(** * Synchronisation primitives of pa3.c: spinlock, blocking mutex, ring buffer

    A shallow embedding of [src/pa3.c] and the properties of its three
    primitives.

    Part I embeds the code.  Every C function is embedded twice:

    - as a sequential program in a small state-and-outcome monad, one
      definition per C function, read line by line against the source
      (modules [Spinlock], [Mutex], [RingBuffer]);
    - as a program-counter machine built from the same primitives, whose
      steps are the individual statements and shared memory accesses of the
      same lines, interleaved by a scheduler (modules [SpinlockThreads],
      [MutexThreads], [RingBufferThreads]; [RingBufferAccesses] is
      [RingBufferThreads] with [count++] and [count--] as a load and a
      store each).

    Part II states and proves the properties of the three primitives;
    Part III adds what the code does at its edges and under every
    interleaving. *)

From stdpp Require Import base numbers option list sorting functions gmap.
From Stdlib Require Import ZArith Lia.

Local Open Scope Z_scope.

(* ================================================================= *)
(** * Part I: the code *)
(* ================================================================= *)

(** ** C integers

    [int] is 32 bits wide.  Signed overflow is undefined behaviour in C, so
    the result of an arithmetic operation is only defined when it is
    representable. *)

Definition INT_MIN : Z := - 2 ^ 31.
Definition INT_MAX : Z := 2 ^ 31 - 1.

Definition is_int (z : Z) : Prop := INT_MIN <= z <= INT_MAX.

(** An [int] result: defined only when representable. *)
Definition int_of (z : Z) : option Z :=
  if (INT_MIN <=? z) && (z <=? INT_MAX) then Some z else None.

(** [a % b] on [int]: truncated remainder, undefined for [b == 0] and for
    [INT_MIN % -1]. *)
Definition int_rem (a b : Z) : option Z :=
  if (b =? 0) || ((a =? INT_MIN) && (b =? -1)) then None else Some (Z.rem a b).

(** A C truth value. *)
Definition of_bool (b : bool) : Z := if b then 1 else 0.

(** ** atomic.h *)

(** Modelled from the spec: [compare_and_swap] is declared in atomic.h, which
    is not among the sources.  The spec describes it as the atomic primitive
    that "conditionally writes a new value only if the current value matches
    an expected value, reporting success/failure".  Every call site in
    pa3.c has the form [while (compare_and_swap(&x, 0, 1));], which spins
    while the result is nonzero: the result is the content found in memory,
    equal to the expected value exactly on success.  The first component of
    the result is the new content of the memory cell, the second the
    returned value. *)
Definition compare_and_swap (content expected new : Z) : Z * Z :=
  if content =? expected then (new, content) else (content, content).

(** ** Programs: state, busy-waiting, blocking and undefined behaviour *)

(** What running a piece of code from a state leads to:
    - [Done a s]: it ran to its end with result [a] in state [s];
    - [Spinning s]: it is still in a busy-wait loop in state [s] when the
      fuel is used up;
    - [Parked s]: the calling thread is suspended in [sigwait], in state [s];
    - [Fault]: it ran into undefined behaviour (an access through a null or
      dangling pointer or outside a block, signed overflow, division by
      zero), or the process was terminated by a signal. *)
Inductive outcome (St A : Type) : Type :=
| Done (a : A) (s : St)
| Spinning (s : St)
| Parked (s : St)
| Fault.
Arguments Done {St A} a s.
Arguments Spinning {St A} s.
Arguments Parked {St A} s.
Arguments Fault {St A}.

Definition prog (St A : Type) : Type := St -> outcome St A.

Definition ret {St A} (a : A) : prog St A := fun s => Done a s.

Definition bind {St A B} (c : prog St A) (k : A -> prog St B) : prog St B :=
  fun s =>
    match c s with
    | Done a s' => k a s'
    | Spinning s' => Spinning s'
    | Parked s' => Parked s'
    | Fault => Fault
    end.

Declare Scope prog_scope.
Delimit Scope prog_scope with prog.
Notation "x <- c ;; k" := (bind c (fun x => k))
  (at level 20, c at level 99, k at level 200, only parsing) : prog_scope.
Notation "c ;; k" := (bind c (fun _ => k))
  (at level 100, k at level 200, only parsing, right associativity) : prog_scope.
Local Open Scope prog_scope.

(** Read a field, overwrite the state through [f]. *)
Definition reads {St A} (f : St -> A) : prog St A := fun s => Done (f s) s.
Definition modify {St} (f : St -> St) : prog St unit := fun s => Done tt (f s).

(** A value whose absence is undefined behaviour. *)
Definition defined {St A} (o : option A) : prog St A :=
  fun s => match o with Some a => Done a s | None => Fault end.

(** [while (cond) ;] -- the loop with an empty body that pa3.c uses for busy
    waiting.  [cond] may itself write to memory (it is a [compare_and_swap]
    at most call sites). *)
Fixpoint while_ {St} (fuel : nat) (cond : prog St Z) : prog St unit :=
  fun s =>
    match fuel with
    | O => Spinning s
    | S fuel' =>
        match cond s with
        | Done r s' => if r =? 0 then Done tt s' else while_ fuel' cond s'
        | Spinning s' => Spinning s'
        | Parked s' => Parked s'
        | Fault => Fault
        end
    end.

(** ** libc: malloc *)

(** What the allocator answers to one [malloc] call: no memory, or a fresh
    block whose cells hold indeterminate values ([garbage i] in cell [i]). *)
Inductive malloc_reply : Type :=
| NoMemory
| Block (garbage : nat -> Z).

Definition sizeof_int : Z := 4.
Definition SIZE_MAX : Z := 2 ^ 64 - 1.
Definition PTRDIFF_MAX : Z := 2 ^ 63 - 1.

(** Conversion of an [int] to [size_t]. *)
Definition to_size_t (z : Z) : Z := z mod (SIZE_MAX + 1).

(** [malloc(size)] for an array of [int]: [None] is the null pointer,
    [Some cells] a pointer to a block of [size / sizeof(int)] cells.  A
    request above [PTRDIFF_MAX] always fails. *)
Definition malloc (reply : malloc_reply) (size : Z) : option (list Z) :=
  match reply with
  | NoMemory => None
  | Block garbage =>
      if size <=? PTRDIFF_MAX
      then Some (garbage <$> seq 0 (Z.to_nat (size / sizeof_int)))
      else None
  end.

(** [*(p + i)] and [*(p + i) = v]: undefined through a null pointer and
    outside the block. *)
Definition load (p : option (list Z)) (i : Z) : option Z :=
  match p with
  | Some cells => if 0 <=? i then cells !! Z.to_nat i else None
  | None => None
  end.

Definition store (p : option (list Z)) (i v : Z) : option (list Z) :=
  match p with
  | Some cells =>
      if (0 <=? i) && (i <? Z.of_nat (length cells))
      then Some (<[Z.to_nat i := v]> cells)
      else None
  | None => None
  end.

(* ----------------------------------------------------------------- *)
(** ** Spinlock (pa3.c, lines 35-81) *)
(* ----------------------------------------------------------------- *)

Module Spinlock.

(** [struct spinlock] *)
Record spinlock : Type := Build { held : Z }.

(** [compare_and_swap(&l->held, 0, 1)] *)
Definition cas_held : prog spinlock Z :=
  fun l =>
    let '(content, result) := compare_and_swap (held l) 0 1 in
    Done result (Build content).

(** [init_spinlock], lines 46-50. *)
Definition init_spinlock : prog spinlock unit :=
  modify (fun _ => Build 0).

(** [acquire_spinlock], lines 61-66. *)
Definition acquire_spinlock (fuel : nat) : prog spinlock unit :=
  while_ fuel cas_held.

(** [release_spinlock], lines 77-81. *)
Definition release_spinlock : prog spinlock unit :=
  modify (fun _ => Build 0).

End Spinlock.

(* ----------------------------------------------------------------- *)
(** ** Blocking mutex (pa3.c, lines 86-218) *)
(* ----------------------------------------------------------------- *)

Module Mutex.

(** Thread identifiers and addresses of [struct thread] records. *)
Abbreviation pthread_t := nat.
Abbreviation addr := nat.

(** [struct thread].  The field [pthread] is indeterminate until it is
    assigned; the field [list] is the record's link in the wait queue, which
    the model represents by the position of the record's address in the
    queue. *)
Record thread : Type := Thread { pthread : option pthread_t }.

(** [struct mutex].  The wait queue [Q], a [struct list_head] in C, is the
    sequence of the addresses of the records linked into it, first entry
    first (see [list_add_tail] below). *)
Record mutex : Type := Build {
  Q : list addr;
  S : Z;
  held : Z
}.

Definition set_Q (v : list addr) (m : mutex) : mutex := Build v (S m) (held m).
Definition set_S (v : Z) (m : mutex) : mutex := Build (Q m) v (held m).
Definition set_held (v : Z) (m : mutex) : mutex := Build (Q m) (S m) v.

(** The memory and the signal state the mutex code works on: the mutex, the
    live [struct thread] records on the heap, the threads whose signal mask
    blocks SIGINT, and the threads for which a SIGINT is pending. *)
Record world : Type := World {
  mtx : mutex;
  heap : gmap addr thread;
  sigmask : gset pthread_t;
  pending : gset pthread_t
}.

Definition on_mutex (f : mutex -> mutex) (w : world) : world :=
  World (f (mtx w)) (heap w) (sigmask w) (pending w).
Definition set_heap (h : gmap addr thread) (w : world) : world :=
  World (mtx w) h (sigmask w) (pending w).
Definition set_sigmask (v : gset pthread_t) (w : world) : world :=
  World (mtx w) (heap w) v (pending w).
Definition set_pending (v : gset pthread_t) (w : world) : world :=
  World (mtx w) (heap w) (sigmask w) v.

Definition SIGINT : Z := 2.

(** [compare_and_swap(&mutex->held, 0, 1)] *)
Definition cas_held : prog world Z :=
  fun w =>
    let '(content, result) := compare_and_swap (held (mtx w)) 0 1 in
    Done result (on_mutex (set_held content) w).

(** [malloc(sizeof(struct thread))].  [reply] is the allocator's answer:
    no memory (the null pointer), or the address of the new record, which
    the allocator picks among the addresses that are not live. *)
Definition malloc_thread (reply : option addr) : prog world (option addr) :=
  fun w =>
    match reply with
    | None => Done None w
    | Some a => Done (Some a) (set_heap (<[a := Thread None]> (heap w)) w)
    end.

(** [free(p)]: nothing for the null pointer, undefined for a pointer that
    is not live. *)
Definition free (p : option addr) : prog world unit :=
  fun w =>
    match p with
    | None => Done tt w
    | Some a =>
        match heap w !! a with
        | Some _ => Done tt (set_heap (delete a (heap w)) w)
        | None => Fault
        end
    end.

(** [p->pthread = t] *)
Definition store_pthread (p : option addr) (t : pthread_t) : prog world unit :=
  fun w =>
    match p with
    | None => Fault
    | Some a =>
        match heap w !! a with
        | Some _ => Done tt (set_heap (<[a := Thread (Some t)]> (heap w)) w)
        | None => Fault
        end
    end.

(** [a->pthread] *)
Definition load_pthread (a : addr) : prog world pthread_t :=
  fun w =>
    match heap w !! a with
    | Some (Thread (Some t)) => Done t w
    | _ => Fault
    end.

(** Modelled from the spec: [list_add_tail] is declared in list_head.h,
    which is not among the sources.  The spec describes the wait queue as
    "an ordered sequence (FIFO) of Waiters" and this call as the one that
    "appends it to the tail of the wait queue".
    [list_add_tail(&p->list, &mutex->Q)] writes the links of the record at
    [p], which is undefined for a null or dangling [p]. *)
Definition list_add_tail (p : option addr) : prog world unit :=
  fun w =>
    match p with
    | None => Fault
    | Some a =>
        match heap w !! a with
        | Some _ => Done tt (on_mutex (set_Q (Q (mtx w) ++ [a])) w)
        | None => Fault
        end
    end.

(** Modelled from the spec: [list_first_entry] is declared in list_head.h,
    which is not among the sources.  The spec describes its use as taking
    "the head of the wait queue (FIFO -- earliest-waiting thread goes
    first)".  [list_first_entry(&mutex->Q, struct thread, list)] on an empty
    queue yields a pointer computed from the list head itself, which is no
    [struct thread]; the use [release_mutex] makes of it is undefined. *)
Definition list_first_entry : prog world addr :=
  fun w =>
    match Q (mtx w) with
    | a :: _ => Done a w
    | [] => Fault
    end.

(** Unlinking one entry from a sequence. *)
Fixpoint unlink (a : addr) (q : list addr) : list addr :=
  match q with
  | [] => []
  | b :: q' => if decide (a = b) then q' else b :: unlink a q'
  end.

(** Modelled from the spec: [list_del_init] is declared in list_head.h,
    which is not among the sources.  The spec describes its use as the one
    that does "remove the head of the wait queue".
    [list_del_init(&a->list)] unlinks the record at [a] from the queue it is
    in. *)
Definition list_del_init (a : addr) : prog world unit :=
  modify (fun w => on_mutex (set_Q (unlink a (Q (mtx w)))) w).

(** [sigemptyset(&mask); sigaddset(&mask, SIGINT);
    sigprocmask(SIG_BLOCK, &mask, NULL)] by thread [self]. *)
Definition sigprocmask_block (self : pthread_t) : prog world unit :=
  modify (fun w => set_sigmask (sigmask w ∪ {[self]}) w).

(** [sigprocmask(SIG_UNBLOCK, &mask, NULL)] by thread [self]. *)
Definition sigprocmask_unblock (self : pthread_t) : prog world unit :=
  modify (fun w => set_sigmask (sigmask w ∖ {[self]}) w).

(** [sigwait(&mask, &sig_no)] by thread [self], [mask] holding SIGINT only:
    accepts the pending SIGINT and returns 0 with [sig_no == SIGINT]; the
    thread is suspended while none is pending.  The result is the pair of
    the return value and [sig_no]. *)
Definition sigwait (self : pthread_t) : prog world (Z * Z) :=
  fun w =>
    if decide (self ∈ pending w)
    then Done (0, SIGINT) (set_pending (pending w ∖ {[self]}) w)
    else Parked w.

(** [pthread_kill(t, SIGINT)]: the signal stays pending when [t] blocks
    it; otherwise its default action terminates the process. *)
Definition pthread_kill (t : pthread_t) : prog world unit :=
  fun w =>
    if decide (t ∈ sigmask w)
    then Done tt (set_pending (pending w ∪ {[t]}) w)
    else Fault.

(** [mutex->S--] and [mutex->S++]: a read of [S] followed by a write. *)
Definition decrement_S : prog world unit :=
  s <- reads (fun w => S (mtx w)) ;;
  s1 <- defined (int_of (s - 1)) ;;
  modify (on_mutex (set_S s1)).

Definition increment_S : prog world unit :=
  s <- reads (fun w => S (mtx w)) ;;
  s1 <- defined (int_of (s + 1)) ;;
  modify (on_mutex (set_S s1)).

(** [init_mutex], lines 106-114. *)
Definition init_mutex : prog world unit :=
  modify (on_mutex (set_Q [])) ;;
  modify (on_mutex (set_held 0)) ;;
  modify (on_mutex (set_S 1)).

(** The [while (1)] loop of [acquire_mutex], lines 167-180. *)
Fixpoint wait_for_signal (fuel : nat) (self : pthread_t) : prog world unit :=
  match fuel with
  | O => fun w => Spinning w
  | Datatypes.S fuel' =>
      r <- sigwait self ;;
      if negb (fst r =? 0) then
        wait_for_signal fuel' self                        (* continue *)
      else if snd r =? SIGINT then
        while_ fuel cas_held ;;
        sigprocmask_unblock self                          (* break *)
      else
        wait_for_signal fuel' self
  end.

(** [acquire_mutex], lines 148-186, called by thread [self]; [reply] is
    the allocator's answer to the [malloc] call. *)
Definition acquire_mutex (fuel : nat) (self : pthread_t) (reply : option addr)
  : prog world unit :=
  new <- malloc_thread reply ;;
  while_ fuel cas_held ;;
  decrement_S ;;
  s <- reads (fun w => S (mtx w)) ;;
  (if s <? 0 then
     sigprocmask_block self ;;
     store_pthread new self ;;
     list_add_tail new ;;
     modify (on_mutex (set_held 0)) ;;
     wait_for_signal fuel self
   else
     ret tt) ;;
  free new ;;
  modify (on_mutex (set_held 0)).

(** The rest of [acquire_mutex] for a thread [self] that is suspended in
    [sigwait] (line 169) with its local variable [new] pointing to the
    record at [a]: lines 167-185. *)
Definition acquire_mutex_resume (fuel : nat) (self : pthread_t) (a : addr)
  : prog world unit :=
  wait_for_signal fuel self ;;
  free (Some a) ;;
  modify (on_mutex (set_held 0)).

(** [release_mutex], lines 198-218. *)
Definition release_mutex (fuel : nat) : prog world unit :=
  while_ fuel cas_held ;;
  increment_S ;;
  s <- reads (fun w => S (mtx w)) ;;
  (if s <=? 0 then
     next <- list_first_entry ;;
     list_del_init next ;;
     modify (on_mutex (set_held 0)) ;;
     t <- load_pthread next ;;
     pthread_kill t
   else
     ret tt) ;;
  modify (on_mutex (set_held 0)).

(** A process before [init_mutex]: no thread record on the heap, no
    thread blocking SIGINT, no signal pending. *)
Definition boot (m : mutex) : world := World m ∅ ∅ ∅.

(** Thread [self] is running application code: it is not suspended inside
    [acquire_mutex], where a thread owns a live [struct thread]. *)
Definition running (w : world) (self : pthread_t) : Prop :=
  forall a r, heap w !! a = Some r -> pthread r <> Some self.

(** The states a mutex goes through after [init_mutex], under every
    sequence of calls, each run from its start to its return or to the
    point where the caller is suspended.  The calls are counted: [now] is
    the number of calls so far, and [since !! a = Some n] records that the
    thread whose record is at [a] began waiting in call number [n].

    - [acquire_mutex] by a running thread, which returns;
    - [acquire_mutex] by a running thread, which suspends the caller;
    - [release_mutex];
    - the rest of [acquire_mutex] for a suspended thread. *)
Inductive reachable : nat -> gmap addr nat -> world -> Prop :=
| reach_init m w :
    init_mutex (boot m) = Done tt w ->
    reachable 0 ∅ w
| reach_acquire now since w fuel self reply w' :
    reachable now since w ->
    running w self ->
    (forall a, reply = Some a -> heap w !! a = None) ->
    acquire_mutex fuel self reply w = Done tt w' ->
    reachable (Datatypes.S now) since w'
| reach_wait now since w fuel self a w' :
    reachable now since w ->
    running w self ->
    heap w !! a = None ->
    acquire_mutex fuel self (Some a) w = Parked w' ->
    reachable (Datatypes.S now) (<[a := now]> since) w'
| reach_release now since w fuel w' :
    reachable now since w ->
    release_mutex fuel w = Done tt w' ->
    reachable (Datatypes.S now) since w'
| reach_resume now since w fuel self a w' :
    reachable now since w ->
    heap w !! a = Some (Thread (Some self)) ->
    acquire_mutex_resume fuel self a w = Done tt w' ->
    reachable (Datatypes.S now) since w'.

(** The record at [a] began waiting before the record at [b]. *)
Definition earlier (since : gmap addr nat) (a b : addr) : Prop :=
  exists ta tb, since !! a = Some ta /\ since !! b = Some tb /\ (ta < tb)%nat.

(** The wait queue against the counter: when [S <= 0] the queue has
    exactly [-S] entries, and its entries are in the order in which their
    threads began waiting. *)
Definition queue_matches (since : gmap addr nat) (w : world) : Prop :=
  (S (mtx w) <= 0 -> Z.of_nat (length (Q (mtx w))) = - S (mtx w)) /\
  StronglySorted (earlier since) (Q (mtx w)) /\
  (forall a, a ∈ Q (mtx w) -> is_Some (since !! a)).

(** The invariant of the reachable states: between calls the internal
    flag is clear; the queue is as long as the counter is negative; the
    queued records are distinct, live, and belong to threads that have no
    signal pending; every live record belongs to one thread, which blocks
    SIGINT; a pending signal belongs to a thread whose record has left the
    queue; the queue is ordered by waiting time. *)
Record consistent (now : nat) (since : gmap addr nat) (w : world) : Prop := {
  con_held : held (mtx w) = 0;
  con_int : is_int (S (mtx w));
  con_length : Z.of_nat (length (Q (mtx w))) = Z.max 0 (- S (mtx w));
  con_nodup : NoDup (Q (mtx w));
  con_queued : forall a,
      a ∈ Q (mtx w) ->
      exists t, heap w !! a = Some (Thread (Some t)) /\ t ∉ pending w;
  con_live : forall a r,
      heap w !! a = Some r ->
      exists t, r = Thread (Some t) /\ t ∈ sigmask w;
  con_owner : forall a b t,
      heap w !! a = Some (Thread (Some t)) ->
      heap w !! b = Some (Thread (Some t)) ->
      a = b;
  con_pending : forall t,
      t ∈ pending w ->
      exists a, heap w !! a = Some (Thread (Some t)) /\ a ∉ Q (mtx w);
  con_sorted : StronglySorted (earlier since) (Q (mtx w));
  con_stamped : forall a,
      a ∈ Q (mtx w) -> exists n, since !! a = Some n /\ (n < now)%nat
}.

(** A state with two waiters: thread 1 has acquired the mutex, thread 2
    and then thread 3 have called [acquire_mutex] and are suspended with
    their records at the addresses 7 and 8; they began waiting in the calls
    number 1 and 2. *)
Definition two_waiters : world :=
  World (Build [7%nat; 8%nat] (-2) 0)
        (<[8%nat := Thread (Some 3%nat)]> (<[7%nat := Thread (Some 2%nat)]> ∅))
        ({[2%nat]} ∪ {[3%nat]})
        ∅.

Definition two_waiters_since : gmap addr nat :=
  <[8%nat := 2%nat]> (<[7%nat := 1%nat]> ∅).

End Mutex.

(* ----------------------------------------------------------------- *)
(** ** Ring buffer (pa3.c, lines 223-324) *)
(* ----------------------------------------------------------------- *)

Module RingBuffer.

(** [struct ringbuffer]; the field [in] is spelled [in_]. *)
Record ringbuffer : Type := Build {
  nr_slots : Z;
  slots : option (list Z);
  held : Z;
  count : Z;
  out : Z;
  in_ : Z
}.

(** [struct ringbuffer ringbuffer = {};] *)
Definition zero : ringbuffer := Build 0 None 0 0 0 0.

Definition set_nr_slots (v : Z) (rb : ringbuffer) : ringbuffer :=
  Build v (slots rb) (held rb) (count rb) (out rb) (in_ rb).
Definition set_slots (v : option (list Z)) (rb : ringbuffer) : ringbuffer :=
  Build (nr_slots rb) v (held rb) (count rb) (out rb) (in_ rb).
Definition set_held (v : Z) (rb : ringbuffer) : ringbuffer :=
  Build (nr_slots rb) (slots rb) v (count rb) (out rb) (in_ rb).
Definition set_count (v : Z) (rb : ringbuffer) : ringbuffer :=
  Build (nr_slots rb) (slots rb) (held rb) v (out rb) (in_ rb).
Definition set_out (v : Z) (rb : ringbuffer) : ringbuffer :=
  Build (nr_slots rb) (slots rb) (held rb) (count rb) v (in_ rb).
Definition set_in (v : Z) (rb : ringbuffer) : ringbuffer :=
  Build (nr_slots rb) (slots rb) (held rb) (count rb) (out rb) v.

(** [compare_and_swap(&ringbuffer.held, 0, 1)] *)
Definition cas_held : prog ringbuffer Z :=
  fun rb =>
    let '(content, result) := compare_and_swap (held rb) 0 1 in
    Done result (set_held content rb).

(** [ringbuffer.count == ringbuffer.nr_slots] *)
Definition is_full : prog ringbuffer Z :=
  reads (fun rb => of_bool (count rb =? nr_slots rb)).

(** [ringbuffer.count == 0] *)
Definition is_empty : prog ringbuffer Z :=
  reads (fun rb => of_bool (count rb =? 0)).

(** [*(ringbuffer.slots + ringbuffer.in) = value;] *)
Definition write_slot (value : Z) : prog ringbuffer unit :=
  p <- reads slots ;;
  i <- reads in_ ;;
  p' <- defined (store p i value) ;;
  modify (set_slots (Some p')).

(** [ringbuffer.in = (ringbuffer.in + 1) % ringbuffer.nr_slots;] *)
Definition advance_in : prog ringbuffer unit :=
  i <- reads in_ ;;
  n <- reads nr_slots ;;
  i1 <- defined (int_of (i + 1)) ;;
  r <- defined (int_rem i1 n) ;;
  modify (set_in r).

(** [ringbuffer.count++;] *)
Definition increment_count : prog ringbuffer unit :=
  c <- reads count ;;
  c1 <- defined (int_of (c + 1)) ;;
  modify (set_count c1).

(** [ringbuffer.out = (ringbuffer.out + 1) % ringbuffer.nr_slots;] *)
Definition advance_out : prog ringbuffer unit :=
  o <- reads out ;;
  n <- reads nr_slots ;;
  o1 <- defined (int_of (o + 1)) ;;
  r <- defined (int_rem o1 n) ;;
  modify (set_out r).

(** [ringbuffer.count--;] *)
Definition decrement_count : prog ringbuffer unit :=
  c <- reads count ;;
  c1 <- defined (int_of (c - 1)) ;;
  modify (set_count c1).

(** [*(ringbuffer.slots + tmp)] *)
Definition read_slot (tmp : Z) : prog ringbuffer Z :=
  p <- reads slots ;;
  defined (load p tmp).

(** [enqueue_into_ringbuffer], lines 242-258.  The [goto again] is the
    recursive call. *)
Fixpoint enqueue_into_ringbuffer (fuel : nat) (value : Z) : prog ringbuffer unit :=
  match fuel with
  | O => fun rb => Spinning rb
  | S fuel' =>
      while_ fuel is_full ;;
      while_ fuel cas_held ;;
      full <- is_full ;;
      if negb (full =? 0) then
        modify (set_held 0) ;;
        enqueue_into_ringbuffer fuel' value
      else
        write_slot value ;;
        advance_in ;;
        increment_count ;;
        modify (set_held 0)
  end.

(** [dequeue_from_ringbuffer], lines 269-287.  The slot is read by the
    [return] statement, after [held] has been cleared. *)
Fixpoint dequeue_from_ringbuffer (fuel : nat) : prog ringbuffer Z :=
  match fuel with
  | O => fun rb => Spinning rb
  | S fuel' =>
      while_ fuel is_empty ;;
      while_ fuel cas_held ;;
      empty <- is_empty ;;
      if negb (empty =? 0) then
        modify (set_held 0) ;;
        dequeue_from_ringbuffer fuel'
      else
        tmp <- reads out ;;
        advance_out ;;
        decrement_count ;;
        modify (set_held 0) ;;
        read_slot tmp
  end.

(** [fini_ringbuffer], lines 295-301.  [free] leaves the pointer dangling:
    no cell can be accessed through it any more, which the model records by
    the absence of a block.  The model does not tell a dangling pointer
    from a null one: the definition is what the code does on a buffer whose
    storage is allocated, or whose [slots] is null; a call on a buffer
    whose storage has been freed already hands the dangling pointer to
    [free] again, which is undefined and which the model does not show. *)
Definition fini_ringbuffer : prog ringbuffer unit :=
  modify (set_slots None) ;;
  modify (set_in 0) ;;
  modify (set_out 0) ;;
  modify (set_count 0).

(** [init_ringbuffer], lines 313-324.  [reply] is the allocator's answer
    to the [malloc] call. *)
Definition init_ringbuffer (reply : malloc_reply) (nr_slots : Z) : prog ringbuffer Z :=
  modify (set_nr_slots nr_slots) ;;
  modify (set_slots (malloc reply (to_size_t (sizeof_int * to_size_t nr_slots)))) ;;
  modify (set_in 0) ;;
  modify (set_out 0) ;;
  modify (set_count 0) ;;
  modify (set_held 0) ;;
  ret 0.

(** The straight-line part of [enqueue_into_ringbuffer], lines 254-257,
    as a function of the state in which [held] has just been taken. *)
Definition enqueue_body (value : Z) (rb : ringbuffer) : option ringbuffer :=
  p' ← store (slots rb) (in_ rb) value;
  i1 ← int_of (in_ rb + 1);
  r ← int_rem i1 (nr_slots rb);
  c1 ← int_of (count rb + 1);
  Some (Build (nr_slots rb) (Some p') 0 c1 (out rb) r).

(** The straight-line part of [dequeue_from_ringbuffer], lines 282-286. *)
Definition dequeue_body (rb : ringbuffer) : option (Z * ringbuffer) :=
  o1 ← int_of (out rb + 1);
  r ← int_rem o1 (nr_slots rb);
  c1 ← int_of (count rb - 1);
  v ← load (slots rb) (out rb);
  Some (v, Build (nr_slots rb) (slots rb) 0 c1 r (in_ rb)).

(** The outcome of a straight-line part: its result and final state, or
    undefined behaviour. *)
Definition lift {A} (o : option (A * ringbuffer)) : outcome ringbuffer A :=
  match o with Some (a, rb) => Done a rb | None => Fault end.

(** An initialised buffer that no thread is operating on: the capacity is
    a positive [int], the storage is allocated with that many cells, the
    internal flag is clear, and count and both indices are in range. *)
Record well_formed (rb : ringbuffer) : Prop := {
  wf_capacity : 0 < nr_slots rb <= INT_MAX;
  wf_slots : exists cells,
      slots rb = Some cells /\ Z.of_nat (length cells) = nr_slots rb;
  wf_held : held rb = 0;
  wf_count : 0 <= count rb <= nr_slots rb;
  wf_out : 0 <= out rb < nr_slots rb;
  wf_in : 0 <= in_ rb < nr_slots rb
}.

(** The values in the buffer, oldest first: the contents of the [count]
    slots from [out] on, modulo [nr_slots]. *)
Definition contents (rb : ringbuffer) : list Z :=
  match slots rb with
  | Some cells =>
      omap (fun k => cells !! Z.to_nat ((out rb + Z.of_nat k) mod nr_slots rb))
           (seq 0 (Z.to_nat (count rb)))
  | None => []
  end.

(** Calls that are made one after the other, each after the previous one
    has returned. *)
Inductive call : Type :=
| Enqueue (value : Z)
| Dequeue.

(** The values the [Dequeue] calls of a sequence of calls return. *)
Fixpoint perform (fuel : nat) (calls : list call) : prog ringbuffer (list Z) :=
  match calls with
  | [] => ret []
  | Enqueue value :: calls' =>
      enqueue_into_ringbuffer fuel value ;;
      perform fuel calls'
  | Dequeue :: calls' =>
      x <- dequeue_from_ringbuffer fuel ;;
      xs <- perform fuel calls' ;;
      ret (x :: xs)
  end.

(** The values a sequence of calls enqueues. *)
Fixpoint inputs (calls : list call) : list Z :=
  match calls with
  | [] => []
  | Enqueue value :: calls' => value :: inputs calls'
  | Dequeue :: calls' => inputs calls'
  end.

(** The states the buffer goes through after [init_ringbuffer(N)], [N] an
    [int]: the one [init_ringbuffer] leaves, and the ones every returning
    call leaves. *)
Inductive reachable (N : Z) : ringbuffer -> Prop :=
| reach_init reply status rb0 rb :
    is_int N ->
    init_ringbuffer reply N rb0 = Done status rb ->
    reachable N rb
| reach_enqueue fuel value rb rb' :
    reachable N rb ->
    enqueue_into_ringbuffer fuel value rb = Done tt rb' ->
    reachable N rb'
| reach_dequeue fuel value rb rb' :
    reachable N rb ->
    dequeue_from_ringbuffer fuel rb = Done value rb' ->
    reachable N rb'
| reach_fini rb rb' :
    reachable N rb ->
    fini_ringbuffer rb = Done tt rb' ->
    reachable N rb'.

(** The invariant of the states reachable from [init_ringbuffer(N)]. *)
Record shape (N : Z) (rb : ringbuffer) : Prop := {
  shape_int : is_int N;
  shape_capacity : nr_slots rb = N;
  shape_held : held rb = 0;
  shape_count : 0 <= N -> 0 <= count rb <= N;
  shape_out : 0 <= out rb < Z.max N 1;
  shape_in : 0 <= in_ rb < Z.max N 1;
  shape_head : 0 < N -> in_ rb = (out rb + count rb) mod N;
  shape_slots : forall cells,
      0 <= N -> slots rb = Some cells -> Z.of_nat (length cells) = N;
  shape_null : N < 0 -> slots rb = None
}.

End RingBuffer.

(* ----------------------------------------------------------------- *)
(** ** Threads *)
(* ----------------------------------------------------------------- *)

(** Thread identifiers. *)
Abbreviation tid := nat.

(** Any number of threads run the code of pa3.c on a shared memory.  The
    scheduler picks the thread that takes the next step; a step is one
    statement, and for [mutex->S++] and [mutex->S--], which the compiler
    turns into a load and a store, one memory access.  [compare_and_swap] is
    one step. *)
Section Interleaving.

Context {Shared Local Turn : Type}.

(** The thread a turn of the scheduler gives the processor to. *)
Variable who : Turn -> tid.

(** One step of a thread, from its local state: [Done] with the next local
    state when it takes the step, [Parked] when it is suspended or has
    nothing left to run. *)
Variable thread_step : Turn -> Local -> prog Shared Local.

Record config : Type := Config {
  shared : Shared;
  locals : tid -> Local
}.

Definition step (turn : Turn) (c : config) : option config :=
  match thread_step turn (locals c (who turn)) (shared c) with
  | Done l s => Some (Config s (<[who turn := l]> (locals c)))
  | _ => None
  end.

(** The configuration a schedule leads to, when every turn of it can be
    taken. *)
Fixpoint run (schedule : list Turn) (c : config) : option config :=
  match schedule with
  | [] => Some c
  | turn :: schedule' =>
      match step turn c with
      | Some c' => run schedule' c'
      | None => None
      end
  end.

(** [n] consecutive steps of one thread, as one program. *)
Fixpoint solo (n : nat) (turn : Turn) (l : Local) : prog Shared Local :=
  match n with
  | O => ret l
  | S n' => l' <- thread_step turn l ;; solo n' turn l'
  end.

End Interleaving.

Arguments config : clear implicits.
Arguments Config {Shared Local} shared locals.

(** [n] consecutive turns of the same thread. *)
Definition turns {Turn} (n : nat) (turn : Turn) : list Turn := replicate n turn.

(* ----------------------------------------------------------------- *)
(** ** Threads on a spinlock *)
(* ----------------------------------------------------------------- *)

Module SpinlockThreads.
Import Spinlock.

(** Where a thread is: outside the critical section, in
    [acquire_spinlock] at the [compare_and_swap] of line 63, inside the
    critical section (between the return of [acquire_spinlock] and the call
    of [release_spinlock]), in [release_spinlock] before the assignment of
    line 79. *)
Inductive label : Type := Outside | At63 | Inside | At79.

(** A thread calls [acquire_spinlock], runs its critical section, calls
    [release_spinlock], and starts over. *)
Definition thread_step (t : tid) (l : label) : prog spinlock label :=
  match l with
  | Outside => ret At63
  | At63 => r <- cas_held ;; ret (if r =? 0 then Inside else At63)
  | Inside => ret At79
  | At79 => release_spinlock ;; ret Outside
  end.

(** After [init_spinlock], every thread outside. *)
Definition boot : config spinlock label := Config (Build 0) (fun _ => Outside).

(** Thread [t] holds the lock: it is between the successful
    [compare_and_swap] and the assignment that clears [held]. *)
Definition holds (c : config spinlock label) (t : tid) : Prop :=
  locals c t = Inside \/ locals c t = At79.

(** The invariant of the configurations: [held] is 0 or 1; while it is 0 no
    thread holds the lock; at most one thread holds the lock. *)
Record exclusive (c : config spinlock label) : Prop := {
  ex_flag : held (shared c) = 0 \/ held (shared c) = 1;
  ex_free : held (shared c) = 0 -> forall t, ~ holds c t;
  ex_one : forall t1 t2, holds c t1 -> holds c t2 -> t1 = t2
}.

End SpinlockThreads.

(* ----------------------------------------------------------------- *)
(** ** Threads on a mutex *)
(* ----------------------------------------------------------------- *)

Module MutexThreads.
Import Mutex.

(** Where a thread is: outside the critical section; at a line of
    [acquire_mutex] ([A...]); inside the critical section, between the return
    of [acquire_mutex] and the call of [release_mutex]; at a line of
    [release_mutex] ([R...]).  The label is the line the thread executes
    next. *)
Inductive label : Type :=
| Outside
| A152 | A155 | A157_load | A157_store | A158 | A162 | A163 | A164 | A165
| A169 | A175 | A177 | A183 | A184
| Inside
| R204 | R206_load | R206_store | R207 | R209 | R210 | R211 | R213 | R216.

(** The local variables of a thread: [new] of [acquire_mutex], [next] of
    [release_mutex], and the register that holds the value of [mutex->S]
    between the load and the store of [mutex->S--] and [mutex->S++]. *)
Record local : Type := Local {
  pc : label;
  new : option addr;
  next : addr;
  reg : Z
}.

Definition goto (l : label) (v : local) : local := Local l (new v) (next v) (reg v).

(** One step of the thread [self = fst turn]; [snd turn] is the allocator's
    answer, used when the step is the [malloc] call. *)
Definition thread_step (turn : tid * option addr) (v : local) : prog world local :=
  let self := fst turn in
  match pc v with
  | Outside => ret (goto A152 v)
  (* struct thread *new = malloc(sizeof(struct thread)); *)
  | A152 => p <- malloc_thread (snd turn) ;; ret (Local A155 p (next v) (reg v))
  (* while (compare_and_swap(&mutex->held, 0, 1)); *)
  | A155 => r <- cas_held ;; ret (if r =? 0 then goto A157_load v else v)
  (* mutex->S--; *)
  | A157_load =>
      s <- reads (fun w => S (mtx w)) ;;
      ret (Local A157_store (new v) (next v) s)
  | A157_store =>
      s1 <- defined (int_of (reg v - 1)) ;;
      modify (on_mutex (set_S s1)) ;;
      ret (goto A158 v)
  (* if (mutex->S < 0) *)
  | A158 =>
      s <- reads (fun w => S (mtx w)) ;;
      ret (goto (if s <? 0 then A162 else A183) v)
  (* sigemptyset; sigaddset; sigprocmask(SIG_BLOCK, &mask, NULL); *)
  | A162 => sigprocmask_block self ;; ret (goto A163 v)
  (* new->pthread = pthread_self(); *)
  | A163 => store_pthread (new v) self ;; ret (goto A164 v)
  (* list_add_tail(&new->list, &mutex->Q); *)
  | A164 => list_add_tail (new v) ;; ret (goto A165 v)
  (* mutex->held = 0; *)
  | A165 => modify (on_mutex (set_held 0)) ;; ret (goto A169 v)
  (* if (sigwait(&mask, &sig_no) != 0) continue; if (sig_no == SIGINT) *)
  | A169 =>
      r <- sigwait self ;;
      ret (if negb (fst r =? 0) then v
           else if snd r =? SIGINT then goto A175 v else v)
  (* while (compare_and_swap(&mutex->held, 0, 1)); *)
  | A175 => r <- cas_held ;; ret (if r =? 0 then goto A177 v else v)
  (* sigprocmask(SIG_UNBLOCK, &mask, NULL); break; *)
  | A177 => sigprocmask_unblock self ;; ret (goto A183 v)
  (* free(new); *)
  | A183 => free (new v) ;; ret (goto A184 v)
  (* mutex->held = 0; return; *)
  | A184 => modify (on_mutex (set_held 0)) ;; ret (goto Inside v)
  | Inside => ret (goto R204 v)
  (* while (compare_and_swap(&mutex->held, 0, 1)); *)
  | R204 => r <- cas_held ;; ret (if r =? 0 then goto R206_load v else v)
  (* mutex->S++; *)
  | R206_load =>
      s <- reads (fun w => S (mtx w)) ;;
      ret (Local R206_store (new v) (next v) s)
  | R206_store =>
      s1 <- defined (int_of (reg v + 1)) ;;
      modify (on_mutex (set_S s1)) ;;
      ret (goto R207 v)
  (* if (mutex->S <= 0) *)
  | R207 =>
      s <- reads (fun w => S (mtx w)) ;;
      ret (goto (if s <=? 0 then R209 else R216) v)
  (* next = list_first_entry(&mutex->Q, struct thread, list); *)
  | R209 => a <- list_first_entry ;; ret (Local R210 (new v) a (reg v))
  (* list_del_init(&next->list); *)
  | R210 => list_del_init (next v) ;; ret (goto R211 v)
  (* mutex->held = 0; *)
  | R211 => modify (on_mutex (set_held 0)) ;; ret (goto R213 v)
  (* pthread_kill(next->pthread, SIGINT); *)
  | R213 => t <- load_pthread (next v) ;; pthread_kill t ;; ret (goto R216 v)
  (* mutex->held = 0; return; *)
  | R216 => modify (on_mutex (set_held 0)) ;; ret (goto Outside v)
  end.

(** After [init_mutex], every thread outside. *)
Definition boot : config world local :=
  Config (World (Build [] 1 0) ∅ ∅ ∅) (fun _ => Local Outside None 0%nat 0).

(** Thread [t] is inside the critical section. *)
Definition inside (c : config world local) (t : tid) : Prop :=
  pc (locals c t) = Inside.

(** A schedule of three threads.  Thread 1 takes the mutex; thread 2 queues
    up behind it and is suspended; thread 1 releases the mutex up to and
    including the [pthread_kill] of line 213; thread 2 wakes, returns from
    [acquire_mutex], calls [release_mutex], takes the internal flag and loads
    [S]; thread 1 runs line 216; thread 3 calls [acquire_mutex], takes the
    internal flag, decrements [S]; thread 2 stores its stale [S + 1] and
    leaves; thread 3 returns from [acquire_mutex]; thread 1 calls
    [acquire_mutex] again and returns from it. *)
Definition two_holders : list (tid * option addr) :=
  turns 8 (1%nat, Some 10%nat) ++
  turns 10 (2%nat, Some 11%nat) ++
  turns 9 (1%nat, None) ++
  turns 5 (2%nat, None) ++
  turns 3 (2%nat, None) ++
  turns 1 (1%nat, None) ++
  turns 5 (3%nat, Some 12%nat) ++
  turns 1 (2%nat, None) ++
  turns 3 (3%nat, None) ++
  turns 2 (2%nat, None) ++
  turns 8 (1%nat, Some 13%nat).

(** A schedule of four threads.  Thread 1 takes the mutex; thread 2 queues
    up behind it and is suspended; thread 1 releases the mutex up to and
    including the [pthread_kill] of line 213; thread 3 calls
    [acquire_mutex], takes the internal flag and loads [S]; thread 1 runs
    line 216; thread 4 calls [acquire_mutex], takes the internal flag and
    loads [S]; thread 3 stores [S - 1], queues up and is suspended; thread
    4 stores the same [S - 1], queues up and is suspended; thread 2 wakes
    and returns from [acquire_mutex]. *)
Definition crowded_queue : list (tid * option addr) :=
  turns 8 (1%nat, Some 10%nat) ++
  turns 10 (2%nat, Some 11%nat) ++
  turns 9 (1%nat, None) ++
  turns 3 (3%nat, Some 12%nat) ++
  turns 1 (3%nat, None) ++
  turns 1 (1%nat, None) ++
  turns 3 (4%nat, Some 13%nat) ++
  turns 1 (4%nat, None) ++
  turns 6 (3%nat, None) ++
  turns 6 (4%nat, None) ++
  turns 5 (2%nat, None).

(** A schedule of two threads.  Thread 1 takes the mutex; thread 2 queues
    up behind it and is suspended; thread 1 releases the mutex up to and
    including the [pthread_kill] of line 213; thread 2 wakes, returns from
    [acquire_mutex], calls [release_mutex], takes the internal flag and
    loads [S]; thread 1 runs line 216 and calls [acquire_mutex] again, takes
    the internal flag and loads [S]; thread 2 stores [S + 1] and leaves;
    thread 1 stores its stale [S - 1], queues up and is suspended; thread 2
    calls [acquire_mutex] again, queues up and is suspended. *)
Definition both_asleep : list (tid * option addr) :=
  turns 8 (1%nat, Some 10%nat) ++
  turns 10 (2%nat, Some 11%nat) ++
  turns 9 (1%nat, None) ++
  turns 5 (2%nat, None) ++
  turns 3 (2%nat, None) ++
  turns 1 (1%nat, None) ++
  turns 4 (1%nat, Some 12%nat) ++
  turns 3 (2%nat, None) ++
  turns 6 (1%nat, None) ++
  turns 10 (2%nat, Some 13%nat).

(** A schedule of three threads.  Thread 1 takes the mutex; threads 2 and
    3 queue up behind it and are suspended; thread 1 releases the mutex up
    to and including the [pthread_kill] of line 213, which wakes thread 2;
    thread 2 returns from [acquire_mutex], calls [release_mutex], takes the
    internal flag and loads [S]; thread 1 runs line 216 and calls
    [acquire_mutex] again, takes the internal flag and loads the same [S];
    thread 2 stores [S + 1], wakes thread 3 and leaves; thread 1 stores its
    stale [S - 1], queues up and is suspended; thread 3 returns from
    [acquire_mutex] and runs [release_mutex], which wakes thread 1; thread
    1 returns from [acquire_mutex].  No step of another thread separates
    a store to [S] from the test of [S] that follows it. *)
Definition headless_release : list (tid * option addr) :=
  turns 8 (1%nat, Some 10%nat) ++
  turns 10 (2%nat, Some 11%nat) ++
  turns 10 (3%nat, Some 12%nat) ++
  turns 9 (1%nat, None) ++
  turns 5 (2%nat, None) ++
  turns 3 (2%nat, None) ++
  turns 1 (1%nat, None) ++
  turns 4 (1%nat, Some 13%nat) ++
  turns 7 (2%nat, None) ++
  turns 6 (1%nat, None) ++
  turns 5 (3%nat, None) ++
  turns 10 (3%nat, None) ++
  turns 5 (1%nat, None).

End MutexThreads.

(* ----------------------------------------------------------------- *)
(** ** Threads on the ring buffer *)
(* ----------------------------------------------------------------- *)

Module RingBufferThreads.
Import RingBuffer.

(** Where a thread is: between calls, at a line of
    [enqueue_into_ringbuffer] ([E...]), at a line of
    [dequeue_from_ringbuffer] ([D...]). *)
Inductive label : Type :=
| Idle
| E245 | E247 | E249 | E251 | E254 | E255 | E256 | E257
| D273 | D275 | D277 | D279 | D282 | D283 | D284 | D285 | D286.

(** A thread: where it is; the argument [value] of the call of
    [enqueue_into_ringbuffer] it is in; the local variable [tmp] of
    [dequeue_from_ringbuffer]; its program, the calls it still has to make,
    one after the other; the values it has passed to the calls of
    [enqueue_into_ringbuffer] that returned, and the values its calls of
    [dequeue_from_ringbuffer] returned, both in the order of the calls. *)
Record local : Type := Local {
  pc : label;
  value : Z;
  tmp : Z;
  todo : list call;
  enqueued : list Z;
  dequeued : list Z
}.

Definition goto (l : label) (v : local) : local :=
  Local l (value v) (tmp v) (todo v) (enqueued v) (dequeued v).

(** One step of a thread. *)
Definition thread_step (t : tid) (v : local) : prog ringbuffer local :=
  match pc v with
  | Idle =>
      match todo v with
      | Enqueue x :: rest => ret (Local E245 x (tmp v) rest (enqueued v) (dequeued v))
      | Dequeue :: rest => ret (Local D273 (value v) (tmp v) rest (enqueued v) (dequeued v))
      | [] => fun rb => Parked rb
      end
  (* again: while (ringbuffer.count == ringbuffer.nr_slots); *)
  | E245 => full <- is_full ;; ret (if negb (full =? 0) then v else goto E247 v)
  (* while (compare_and_swap(&ringbuffer.held, 0, 1)); *)
  | E247 => r <- cas_held ;; ret (if r =? 0 then goto E249 v else v)
  (* if (ringbuffer.count == ringbuffer.nr_slots) *)
  | E249 => full <- is_full ;; ret (goto (if negb (full =? 0) then E251 else E254) v)
  (* ringbuffer.held = 0; goto again; *)
  | E251 => modify (set_held 0) ;; ret (goto E245 v)
  | E254 => write_slot (value v) ;; ret (goto E255 v)
  | E255 => advance_in ;; ret (goto E256 v)
  | E256 => increment_count ;; ret (goto E257 v)
  (* ringbuffer.held = 0; and return *)
  | E257 =>
      modify (set_held 0) ;;
      ret (Local Idle (value v) (tmp v) (todo v)
                 (enqueued v ++ [value v]) (dequeued v))
  (* again: while (ringbuffer.count == 0); *)
  | D273 => empty <- is_empty ;; ret (if negb (empty =? 0) then v else goto D275 v)
  (* while (compare_and_swap(&ringbuffer.held, 0, 1)); *)
  | D275 => r <- cas_held ;; ret (if r =? 0 then goto D277 v else v)
  (* if (ringbuffer.count == 0) *)
  | D277 => empty <- is_empty ;; ret (goto (if negb (empty =? 0) then D279 else D282) v)
  (* ringbuffer.held = 0; goto again; *)
  | D279 => modify (set_held 0) ;; ret (goto D273 v)
  (* tmp = ringbuffer.out; *)
  | D282 =>
      o <- reads out ;;
      ret (Local D283 (value v) o (todo v) (enqueued v) (dequeued v))
  | D283 => advance_out ;; ret (goto D284 v)
  | D284 => decrement_count ;; ret (goto D285 v)
  (* ringbuffer.held = 0; *)
  | D285 => modify (set_held 0) ;; ret (goto D286 v)
  (* return *(ringbuffer.slots + tmp); *)
  | D286 =>
      x <- read_slot (tmp v) ;;
      ret (Local Idle (value v) (tmp v) (todo v)
                 (enqueued v) (dequeued v ++ [x]))
  end.

(** A thread that has the calls [calls] to make. *)
Definition program (calls : list call) : local :=
  Local Idle 0 0 calls [] [].

(** After [init_ringbuffer(N)], with the allocator's answer [reply]: every
    thread [t] is about to run its program [programs t]. *)
Definition boot (reply : malloc_reply) (N : Z) (programs : tid -> list call)
  : config ringbuffer local :=
  Config (Build N (malloc reply (to_size_t (sizeof_int * to_size_t N))) 0 0 0 0)
         (fun t => program (programs t)).

(** One producer, thread 0, which enqueues [values], and one consumer,
    thread 1, which dequeues as many times; the other threads have nothing
    to run. *)
Definition producer_consumer (values : list Z) (t : tid) : list call :=
  match t with
  | O => Enqueue <$> values
  | S O => replicate (length values) Dequeue
  | _ => []
  end.

(** The lines at which a thread holds the internal flag; the lines between
    the test that finds room and the increment of [count]; the lines between
    the test that finds a value and the decrement of [count]; the lines at
    which [tmp] holds the index of the slot to read. *)
Definition critical (l : label) : bool :=
  match l with
  | E249 | E251 | E254 | E255 | E256 | E257
  | D277 | D279 | D282 | D283 | D284 | D285 => true
  | _ => false
  end.

Definition found_room (l : label) : bool :=
  match l with E254 | E255 | E256 => true | _ => false end.

Definition found_value (l : label) : bool :=
  match l with D282 | D283 | D284 => true | _ => false end.

Definition holds_index (l : label) : bool :=
  match l with D283 | D284 | D285 | D286 => true | _ => false end.

(** The lines of [enqueue_into_ringbuffer] and those of
    [dequeue_from_ringbuffer]. *)
Definition in_enqueue (l : label) : bool :=
  match l with
  | E245 | E247 | E249 | E251 | E254 | E255 | E256 | E257 => true
  | _ => false
  end.

Definition in_dequeue (l : label) : bool :=
  match l with
  | D273 | D275 | D277 | D279 | D282 | D283 | D284 | D285 | D286 => true
  | _ => false
  end.

(** The buffer without its internal flag. *)
Definition data (rb : ringbuffer) : Z * option (list Z) * Z * Z * Z :=
  (nr_slots rb, slots rb, count rb, out rb, in_ rb).

(** The invariant of the configurations of threads on a buffer of capacity
    [N]: the storage, when there is one, has [N] cells; [held] is 0 or 1,
    no thread holds the flag while it is 0, and at most one thread holds it;
    count and indices are in range; count is below [N] while a thread is
    about to write and to increment it, and above 0 while a thread is about
    to decrement it; a thread that is about to read a slot has an index of
    the storage in [tmp]. *)
Record safe (N : Z) (c : config ringbuffer local) : Prop := {
  safe_capacity : nr_slots (shared c) = N;
  safe_slots : forall cells,
      slots (shared c) = Some cells -> Z.of_nat (length cells) = N;
  safe_flag : held (shared c) = 0 \/ held (shared c) = 1;
  safe_free : held (shared c) = 0 ->
              forall t, critical (pc (locals c t)) = false;
  safe_one : forall t1 t2,
      critical (pc (locals c t1)) = true ->
      critical (pc (locals c t2)) = true ->
      t1 = t2;
  safe_count : 0 <= count (shared c) <= N;
  safe_in : 0 <= in_ (shared c) < Z.max N 1;
  safe_out : 0 <= out (shared c) < Z.max N 1;
  safe_room : forall t,
      found_room (pc (locals c t)) = true -> count (shared c) < N;
  safe_value : forall t,
      found_value (pc (locals c t)) = true -> 0 < count (shared c);
  safe_tmp : forall t,
      holds_index (pc (locals c t)) = true -> 0 <= tmp (locals c t) < N
}.

(** The calls of a thread that have changed [count]: the calls of
    [enqueue_into_ringbuffer] that have returned or are past line 256, and
    the calls of [dequeue_from_ringbuffer] that have returned or are past
    line 284. *)
Definition counted_in (v : local) : Z :=
  Z.of_nat (length (enqueued v)) + (match pc v with E257 => 1 | _ => 0 end).

Definition counted_out (v : local) : Z :=
  Z.of_nat (length (dequeued v)) +
  (match pc v with D285 | D286 => 1 | _ => 0 end).

(** The same, summed over the threads [ts]. *)
Definition total (f : local -> Z) (ts : list tid) (ls : tid -> local) : Z :=
  foldr (fun t acc => f (ls t) + acc) 0 ts.

(** The invariant: [count] is the tally of the threads [ts], and the other
    threads have nothing to run. *)
Definition tallied (ts : list tid) (c : config ringbuffer local) : Prop :=
  count (shared c)
  = total counted_in ts (locals c) - total counted_out ts (locals c) /\
  (forall t, t ∉ ts -> locals c t = program []).

(** The number of statements a thread that holds the internal flag has
    still to execute, at most, up to and including the assignment that
    clears the flag. *)
Definition remaining (l : label) : nat :=
  match l with
  | E249 | D277 => 5
  | E254 | D282 => 4
  | E255 | D283 => 3
  | E256 | D284 => 2
  | E251 | E257 | D279 | D285 => 1
  | _ => 0
  end.

(** A schedule of the producer and the consumer on a buffer of one slot.
    The producer enqueues its first value and calls
    [enqueue_into_ringbuffer] for the second; the consumer runs
    [dequeue_from_ringbuffer] up to and including line 285, which clears
    [held]; the producer completes its call; the consumer runs line 286; the
    consumer makes its second call. *)
Definition late_read : list tid :=
  turns 8 0%nat ++
  turns 1 0%nat ++
  turns 8 1%nat ++
  turns 7 0%nat ++
  turns 1 1%nat ++
  turns 9 1%nat.

(** The first scenario of the spec: capacity 4, the producer enqueues 0, 1,
    2, 3 and calls [enqueue_into_ringbuffer(99)], which waits; the consumer
    runs its first call up to and including line 285; the producer completes
    its call; the consumer runs line 286 and makes four more calls. *)
Definition scenario_1 : list tid :=
  turns 32 0%nat ++
  turns 1 0%nat ++
  turns 8 1%nat ++
  turns 7 0%nat ++
  turns 1 1%nat ++
  turns 36 1%nat.

End RingBufferThreads.

(* ----------------------------------------------------------------- *)
(** ** Threads on the ring buffer, with [count++] as a load and a store *)
(* ----------------------------------------------------------------- *)

Module RingBufferAccesses.
Import RingBuffer RingBufferThreads.

(** A thread as in [RingBufferThreads], with the register that holds the
    value of [ringbuffer.count] between the load and the store of
    [ringbuffer.count++] (line 256) and of [ringbuffer.count--] (line
    284). *)
Record thread : Type := Thread {
  base : local;
  reg : option Z
}.

(** One step of a thread: one statement, and for [ringbuffer.count++] and
    [ringbuffer.count--], which the compiler turns into a load and a
    store, one memory access. *)
Definition thread_step (t : tid) (v : thread) : prog ringbuffer thread :=
  match pc (base v), reg v with
  (* ringbuffer.count++; and ringbuffer.count--; the load *)
  | E256, None | D284, None =>
      c <- reads count ;; ret (Thread (base v) (Some c))
  (* ringbuffer.count++; the store *)
  | E256, Some c =>
      c1 <- defined (int_of (c + 1)) ;;
      modify (set_count c1) ;;
      ret (Thread (goto E257 (base v)) None)
  (* ringbuffer.count--; the store *)
  | D284, Some c =>
      c1 <- defined (int_of (c - 1)) ;;
      modify (set_count c1) ;;
      ret (Thread (goto D285 (base v)) None)
  | _, _ =>
      l <- RingBufferThreads.thread_step t (base v) ;; ret (Thread l None)
  end.

(** After [init_ringbuffer(N)], as in [RingBufferThreads.boot]. *)
Definition boot (reply : malloc_reply) (N : Z) (programs : tid -> list call)
  : config ringbuffer thread :=
  Config (shared (RingBufferThreads.boot reply N programs))
         (fun t => Thread (program (programs t)) None).

(** The configuration without the registers. *)
Definition statements (c : config ringbuffer thread) : config ringbuffer local :=
  Config (shared c) (fun t => base (locals c t)).

(** The invariant: the configuration without the registers is safe; a
    register is in use only between the load and the store of line 256
    or 284, and then holds the current value of [count]; [count] is the
    tally of the threads [ts], and the other threads have nothing to
    run. *)
Record sound (N : Z) (ts : list tid) (c : config ringbuffer thread) : Prop := {
  sound_safe : safe N (statements c);
  sound_reg : forall t r,
      reg (locals c t) = Some r ->
      (pc (base (locals c t)) = E256 \/ pc (base (locals c t)) = D284) /\
      r = count (shared c);
  sound_tally : tallied ts (statements c)
}.

End RingBufferAccesses.

(* ================================================================= *)
(** * Part II: properties *)
(* ================================================================= *)

(** ** C integers and memory cells *)

Lemma int_of_Some z r : int_of z = Some r <-> r = z /\ is_int z.
Proof.
  unfold int_of, is_int.
  destruct (INT_MIN <=? z) eqn:Hlo, (z <=? INT_MAX) eqn:Hhi; simpl;
    split; intros H; try discriminate; try (destruct H; lia).
  - injection H as <-. lia.
  - destruct H as [-> _]. reflexivity.
Qed.

Lemma int_of_is_int z : is_int z -> int_of z = Some z.
Proof. intros H. apply int_of_Some. auto. Qed.

Lemma int_rem_pos a b : 0 <= a -> 0 < b -> int_rem a b = Some (a mod b).
Proof.
  intros Ha Hb. unfold int_rem.
  replace (b =? 0) with false by lia.
  replace (b =? -1) with false by lia.
  rewrite andb_false_r. simpl. f_equal. apply Z.rem_mod_nonneg; lia.
Qed.

Lemma store_Some p i v p' :
  store p i v = Some p' <->
  exists cells, p = Some cells /\ 0 <= i < Z.of_nat (length cells) /\
                p' = <[Z.to_nat i := v]> cells.
Proof.
  unfold store. destruct p as [cells|].
  - destruct (0 <=? i) eqn:Hlo, (i <? Z.of_nat (length cells)) eqn:Hhi; simpl;
      split; intros H; try discriminate.
    + injection H as <-. exists cells. repeat split; lia.
    + destruct H as (? & [= <-] & _ & ->). reflexivity.
    + destruct H as (? & [= <-] & ? & _). lia.
    + destruct H as (? & [= <-] & ? & _). lia.
    + destruct H as (? & [= <-] & ? & _). lia.
  - split; [discriminate | intros (? & [=] & _)].
Qed.

Lemma load_Some p i v :
  load p i = Some v <->
  exists cells, p = Some cells /\ 0 <= i /\ cells !! Z.to_nat i = Some v.
Proof.
  unfold load. destruct p as [cells|].
  - destruct (0 <=? i) eqn:Hlo; split; intros H; try discriminate.
    + exists cells. repeat split; [lia | assumption].
    + destruct H as (? & [= <-] & _ & H). assumption.
    + destruct H as (? & _ & ? & _). lia.
  - split; [discriminate | intros (? & [=] & _)].
Qed.

(** ** Busy-wait loops *)

Lemma while_stuck {St} (cond : prog St Z) (s : St) r fuel :
  cond s = Done r s -> r <> 0 -> while_ fuel cond s = Spinning s.
Proof.
  intros Hc Hr. induction fuel as [|fuel IH]; simpl; [reflexivity|].
  rewrite Hc. destruct (r =? 0) eqn:E; [lia | exact IH].
Qed.

Lemma while_exit {St} (cond : prog St Z) (s s' : St) fuel :
  cond s = Done 0 s' -> while_ (S fuel) cond s = Done tt s'.
Proof. intros Hc. simpl. rewrite Hc. reflexivity. Qed.

Module RingBufferFacts.
Import RingBuffer.

Lemma spin_full rb fuel :
  count rb = nr_slots rb -> while_ fuel is_full rb = Spinning rb.
Proof.
  intros H. apply while_stuck with (r := 1); [|lia].
  unfold is_full, reads. rewrite H, Z.eqb_refl. reflexivity.
Qed.

Lemma pass_full rb fuel :
  count rb <> nr_slots rb -> while_ (S fuel) is_full rb = Done tt rb.
Proof.
  intros H. apply while_exit. unfold is_full, reads.
  replace (count rb =? nr_slots rb) with false by lia. reflexivity.
Qed.

Lemma spin_empty rb fuel :
  count rb = 0 -> while_ fuel is_empty rb = Spinning rb.
Proof.
  intros H. apply while_stuck with (r := 1); [|lia].
  unfold is_empty, reads. rewrite H. reflexivity.
Qed.

Lemma pass_empty rb fuel :
  count rb <> 0 -> while_ (S fuel) is_empty rb = Done tt rb.
Proof.
  intros H. apply while_exit. unfold is_empty, reads.
  replace (count rb =? 0) with false by lia. reflexivity.
Qed.

Lemma rb_spin_cas rb fuel :
  held rb <> 0 -> while_ fuel cas_held rb = Spinning rb.
Proof.
  intros H. apply while_stuck with (r := held rb); [|assumption].
  unfold cas_held, compare_and_swap.
  replace (held rb =? 0) with false by lia. destruct rb; reflexivity.
Qed.

Lemma rb_pass_cas rb fuel :
  held rb = 0 -> while_ (S fuel) cas_held rb = Done tt (set_held 1 rb).
Proof.
  intros H. apply while_exit. unfold cas_held, compare_and_swap.
  rewrite H. reflexivity.
Qed.

(** What a call to [enqueue_into_ringbuffer] does, by cases on the state
    it is called in. *)
Lemma enqueue_cases fuel value rb :
  enqueue_into_ringbuffer fuel value rb =
    if count rb =? nr_slots rb then Spinning rb
    else match fuel with
         | O => Spinning rb
         | S _ => if held rb =? 0
                  then lift (rb' ← enqueue_body value rb; Some (tt, rb'))
                  else Spinning rb
         end.
Proof.
  destruct (count rb =? nr_slots rb) eqn:Hfull.
  - apply Z.eqb_eq in Hfull. destruct fuel as [|fuel]; [reflexivity|].
    cbn [enqueue_into_ringbuffer]. unfold bind at 1.
    rewrite spin_full by assumption. reflexivity.
  - apply Z.eqb_neq in Hfull. destruct fuel as [|fuel]; [reflexivity|].
    cbn [enqueue_into_ringbuffer]. unfold bind at 1.
    rewrite pass_full by assumption.
    destruct (held rb =? 0) eqn:Hheld.
    + apply Z.eqb_eq in Hheld. unfold bind at 1.
      rewrite rb_pass_cas by assumption.
      unfold write_slot, advance_in, increment_count, bind, is_full, reads,
      modify, defined, enqueue_body; simpl.
      replace (count rb =? nr_slots rb) with false by lia. simpl.
      destruct (store (slots rb) (in_ rb) value); simpl; [|reflexivity].
      destruct (int_of (in_ rb + 1)); simpl; [|reflexivity].
      destruct (int_rem z (nr_slots rb)); simpl; [|reflexivity].
      destruct (int_of (count rb + 1)); reflexivity.
    + apply Z.eqb_neq in Hheld. unfold bind at 1.
      rewrite rb_spin_cas by assumption. reflexivity.
Qed.

Lemma dequeue_cases fuel rb :
  dequeue_from_ringbuffer fuel rb =
    if count rb =? 0 then Spinning rb
    else match fuel with
         | O => Spinning rb
         | S _ => if held rb =? 0 then lift (dequeue_body rb) else Spinning rb
         end.
Proof.
  destruct (count rb =? 0) eqn:Hempty.
  - apply Z.eqb_eq in Hempty. destruct fuel as [|fuel]; [reflexivity|].
    cbn [dequeue_from_ringbuffer]. unfold bind at 1.
    rewrite spin_empty by assumption. reflexivity.
  - apply Z.eqb_neq in Hempty. destruct fuel as [|fuel]; [reflexivity|].
    cbn [dequeue_from_ringbuffer]. unfold bind at 1.
    rewrite pass_empty by assumption.
    destruct (held rb =? 0) eqn:Hheld.
    + apply Z.eqb_eq in Hheld. unfold bind at 1.
      rewrite rb_pass_cas by assumption.
      unfold advance_out, decrement_count, read_slot, bind, is_empty, reads,
      modify, defined, dequeue_body; simpl.
      replace (count rb =? 0) with false by lia. simpl.
      destruct (int_of (out rb + 1)); simpl; [|reflexivity].
      destruct (int_rem z (nr_slots rb)); simpl; [|reflexivity].
      destruct (int_of (count rb - 1)); simpl; [|reflexivity].
      destruct (load (slots rb) (out rb)); reflexivity.
    + apply Z.eqb_neq in Hheld. unfold bind at 1.
      rewrite rb_spin_cas by assumption. reflexivity.
Qed.

Lemma init_ringbuffer_cases reply N rb0 :
  init_ringbuffer reply N rb0 =
    Done 0 (Build N (malloc reply (to_size_t (sizeof_int * to_size_t N))) 0 0 0 0).
Proof. reflexivity. Qed.

Lemma malloc_length reply N cells :
  0 <= N <= INT_MAX ->
  malloc reply (to_size_t (sizeof_int * to_size_t N)) = Some cells ->
  Z.of_nat (length cells) = N.
Proof.
  intros HN. unfold malloc, to_size_t, sizeof_int, SIZE_MAX, INT_MAX in *.
  destruct reply as [|garbage]; [discriminate|].
  rewrite (Z.mod_small N) by lia.
  rewrite (Z.mod_small (4 * N)) by lia.
  destruct (4 * N <=? PTRDIFF_MAX); [|discriminate].
  intros [= <-]. rewrite length_fmap, length_seq.
  replace (4 * N) with (N * 4) by lia. rewrite Z.div_mul by lia. lia.
Qed.

Lemma malloc_negative reply N :
  INT_MIN <= N < 0 ->
  malloc reply (to_size_t (sizeof_int * to_size_t N)) = None.
Proof.
  intros HN. unfold malloc, to_size_t, sizeof_int, SIZE_MAX, PTRDIFF_MAX, INT_MIN in *.
  destruct reply as [|garbage]; [reflexivity|].
  replace (N mod (2 ^ 64 - 1 + 1)) with (N + 2 ^ 64).
  2:{ apply Z.mod_unique with (q := -1); lia. }
  replace ((4 * (N + 2 ^ 64)) mod (2 ^ 64 - 1 + 1)) with (4 * N + 2 ^ 64).
  2:{ apply Z.mod_unique with (q := 3); lia. }
  replace (4 * N + 2 ^ 64 <=? 2 ^ 63 - 1) with false by lia.
  reflexivity.
Qed.

(** A call that returns found room, or a value, and the internal flag
    clear. *)
Lemma enqueue_Done fuel value rb rb' :
  enqueue_into_ringbuffer fuel value rb = Done tt rb' ->
  count rb <> nr_slots rb /\ held rb = 0 /\ enqueue_body value rb = Some rb'.
Proof.
  rewrite enqueue_cases.
  destruct (count rb =? nr_slots rb) eqn:Hfull; [discriminate|].
  apply Z.eqb_neq in Hfull. destruct fuel; [discriminate|].
  destruct (held rb =? 0) eqn:Hheld; [|discriminate].
  apply Z.eqb_eq in Hheld.
  destruct (enqueue_body value rb) as [rb1|]; [|discriminate].
  simpl. intros [= <-]. auto.
Qed.

Lemma dequeue_Done fuel rb value rb' :
  dequeue_from_ringbuffer fuel rb = Done value rb' ->
  count rb <> 0 /\ held rb = 0 /\ dequeue_body rb = Some (value, rb').
Proof.
  rewrite dequeue_cases.
  destruct (count rb =? 0) eqn:Hempty; [discriminate|].
  apply Z.eqb_neq in Hempty. destruct fuel; [discriminate|].
  destruct (held rb =? 0) eqn:Hheld; [|discriminate].
  apply Z.eqb_eq in Hheld.
  destruct (dequeue_body rb) as [[v rb1]|]; [|discriminate].
  simpl. intros [= <- <-]. auto.
Qed.

Lemma shape_init reply N rb0 status rb :
  is_int N -> init_ringbuffer reply N rb0 = Done status rb -> shape N rb.
Proof.
  intros HN Hinit.
  rewrite init_ringbuffer_cases in Hinit. injection Hinit as _ <-.
  split; simpl; try lia; try assumption.
  - intros HN0. rewrite Z.mod_0_l; lia.
  - intros cells HN0 Hm. eapply malloc_length; [|exact Hm].
    unfold is_int in HN. lia.
  - intros HN0. apply malloc_negative. unfold is_int in HN. lia.
Qed.

Lemma shape_enqueue N rb value rb' :
  shape N rb ->
  count rb <> nr_slots rb ->
  enqueue_body value rb = Some rb' ->
  0 < N /\ shape N rb'.
Proof.
  intros [Hint Hcap Hheld Hcount Hout Hin Hhead Hslots Hnull] Hfull Hcall.
  unfold enqueue_body in Hcall.
  destruct (store (slots rb) (in_ rb) value) as [p'|] eqn:Hst; [|discriminate].
  simpl in Hcall.
  destruct (int_of (in_ rb + 1)) as [i1|] eqn:Hi1; [|discriminate].
  simpl in Hcall.
  destruct (int_rem i1 (nr_slots rb)) as [r|] eqn:Hr; [|discriminate].
  simpl in Hcall.
  destruct (int_of (count rb + 1)) as [c1|] eqn:Hc1; [|discriminate].
  simpl in Hcall. injection Hcall as <-.
  apply int_of_Some in Hi1 as [-> _]. apply int_of_Some in Hc1 as [-> _].
  apply store_Some in Hst as (cells & Hcells & Hidx & ->).
  assert (HN : 0 < N).
  { destruct (Z.le_gt_cases 0 N) as [HN0|HN0].
    - specialize (Hslots cells HN0 Hcells). lia.
    - rewrite Hnull in Hcells by lia. discriminate. }
  rewrite Hcap in *. rewrite int_rem_pos in Hr by lia. injection Hr as <-.
  assert (Hmod : 0 <= (in_ rb + 1) mod N < N) by (apply Z.mod_pos_bound; lia).
  split; [assumption|].
  split; simpl; try lia; try assumption.
  - intros _. rewrite Hhead by lia.
    rewrite Zplus_mod_idemp_l. f_equal. lia.
  - intros cells' _ [= <-]. rewrite length_insert. apply Hslots; [lia|assumption].
Qed.

Lemma shape_dequeue N rb value rb' :
  shape N rb ->
  count rb <> 0 ->
  dequeue_body rb = Some (value, rb') ->
  0 < N /\ shape N rb'.
Proof.
  intros [Hint Hcap Hheld Hcount Hout Hin Hhead Hslots Hnull] Hempty Hcall.
  unfold dequeue_body in Hcall.
  destruct (int_of (out rb + 1)) as [o1|] eqn:Ho1; [|discriminate].
  simpl in Hcall.
  destruct (int_rem o1 (nr_slots rb)) as [r|] eqn:Hr; [|discriminate].
  simpl in Hcall.
  destruct (int_of (count rb - 1)) as [c1|] eqn:Hc1; [|discriminate].
  simpl in Hcall.
  destruct (load (slots rb) (out rb)) as [v|] eqn:Hld; [|discriminate].
  simpl in Hcall. injection Hcall as _ <-.
  apply int_of_Some in Ho1 as [-> _]. apply int_of_Some in Hc1 as [-> _].
  apply load_Some in Hld as (cells & Hcells & Hidx & Hv).
  assert (HN : 0 < N).
  { destruct (Z.le_gt_cases 0 N) as [HN0|HN0].
    - specialize (Hslots cells HN0 Hcells).
      apply lookup_lt_Some in Hv. lia.
    - rewrite Hnull in Hcells by lia. discriminate. }
  rewrite Hcap in *. rewrite int_rem_pos in Hr by lia. injection Hr as <-.
  assert (Hmod : 0 <= (out rb + 1) mod N < N) by (apply Z.mod_pos_bound; lia).
  split; [assumption|].
  split; simpl; try lia; try assumption.
  intros _. rewrite Hhead by lia.
  rewrite Zplus_mod_idemp_l. f_equal. lia.
Qed.

Lemma shape_fini N rb rb' :
  shape N rb -> fini_ringbuffer rb = Done tt rb' -> shape N rb'.
Proof.
  intros [Hint Hcap Hheld Hcount Hout Hin Hhead Hslots Hnull] Hcall.
  injection Hcall as <-.
  split; simpl; try lia; try assumption.
  - intros HN. rewrite Z.mod_0_l; lia.
  - discriminate.
  - reflexivity.
Qed.

Lemma reachable_shape N rb : reachable N rb -> shape N rb.
Proof.
  induction 1 as [reply status rb0 rb HN Hinit
                 | fuel value rb rb' _ IH Hcall
                 | fuel value rb rb' _ IH Hcall
                 | rb rb' _ IH Hcall].
  - eapply shape_init; eassumption.
  - apply enqueue_Done in Hcall as (Hfull & _ & Hbody).
    eapply shape_enqueue; eassumption.
  - apply dequeue_Done in Hcall as (Hempty & _ & Hbody).
    eapply shape_dequeue; eassumption.
  - eapply shape_fini; eassumption.
Qed.

(** *** Return status of [init_ringbuffer] *)

Lemma init_status reply N rb0 status rb :
  init_ringbuffer reply N rb0 = Done status rb -> status = 0.
Proof. rewrite init_ringbuffer_cases. intros [= <- _]. reflexivity. Qed.

(** C1 (evaluation at the failing input).  When the allocation of the slot
    storage fails, [init_ringbuffer] still returns status 0: it stores the
    null pointer in [slots] and reports success, for every capacity and
    whatever the previous content of the buffer was. *)
Theorem init_ringbuffer_reports_success_without_storage N rb0 :
  exists rb, init_ringbuffer NoMemory N rb0 = Done 0 rb /\ slots rb = None.
Proof. eexists. split; reflexivity. Qed.

(** *** Bounded count *)

(** A negative number is no capacity.  [init_ringbuffer(-1)] reports
    success although no storage can be allocated for it, and leaves the
    count, 0, above [nr_slots]. *)
Lemma count_above_negative_capacity :
  reachable (-1) (Build (-1) None 0 0 0 0) /\
  ~ (0 <= count (Build (-1) None 0 0 0 0) <= -1).
Proof.
  split.
  - apply (reach_init (-1) NoMemory 0 zero); [|reflexivity].
    unfold is_int, INT_MIN, INT_MAX. lia.
  - simpl. lia.
Qed.

(** For every capacity [N >= 0] and every state reachable from
    [init_ringbuffer(N)] by calls that run one at a time: [0 <= count <= N];
    while [count == N] a call to [enqueue_into_ringbuffer] keeps
    busy-waiting (whatever the fuel) and leaves the state as it was; while
    [count == 0] so does a call to [dequeue_from_ringbuffer]. *)
Lemma reachable_count N rb :
  0 <= N ->
  reachable N rb ->
  0 <= count rb <= N /\
  (count rb = N ->
   forall fuel value, enqueue_into_ringbuffer fuel value rb = Spinning rb) /\
  (count rb = 0 ->
   forall fuel, dequeue_from_ringbuffer fuel rb = Spinning rb).
Proof.
  intros HN Hreach. destruct (reachable_shape N rb Hreach) as [_ Hcap _ Hcount _ _ _ _ _].
  split; [auto|]. split.
  - intros Hfull fuel value. rewrite enqueue_cases.
    replace (count rb =? nr_slots rb) with true by lia. reflexivity.
  - intros Hempty fuel. rewrite dequeue_cases.
    replace (count rb =? 0) with true by lia. reflexivity.
Qed.

(** *** What one call does *)

(** C5.  In every well-formed buffer state with [count < nr_slots], a call
    to [enqueue_into_ringbuffer(value)] returns; it has stored [value] in
    the slot at the head index [in], advanced [in] by one modulo
    [nr_slots], incremented [count] by one, and left every other slot, the
    tail index and the capacity as they were. *)
Theorem enqueue_stores_at_head rb value fuel :
  well_formed rb ->
  count rb < nr_slots rb ->
  exists cells cells',
    slots rb = Some cells /\
    enqueue_into_ringbuffer (S fuel) value rb =
      Done tt (Build (nr_slots rb) (Some cells') 0 (count rb + 1) (out rb)
                     ((in_ rb + 1) mod nr_slots rb)) /\
    cells' !! Z.to_nat (in_ rb) = Some value /\
    (forall j, j <> Z.to_nat (in_ rb) -> cells' !! j = cells !! j) /\
    length cells' = length cells.
Proof.
  intros [Hcap (cells & Hcells & Hlen) Hheld Hcount Hout Hin] Hroom.
  exists cells, (<[Z.to_nat (in_ rb) := value]> cells).
  split; [assumption|]. split; [|split; [|split]].
  - rewrite enqueue_cases.
    replace (count rb =? nr_slots rb) with false by lia.
    rewrite Hheld. simpl. unfold enqueue_body.
    assert (Hst : store (slots rb) (in_ rb) value
                  = Some (<[Z.to_nat (in_ rb) := value]> cells)).
    { apply store_Some. exists cells. repeat split; try assumption; lia. }
    rewrite Hst. simpl.
    rewrite (int_of_is_int (in_ rb + 1))
      by (unfold is_int, INT_MIN, INT_MAX in *; lia). simpl.
    rewrite int_rem_pos by lia. simpl.
    rewrite (int_of_is_int (count rb + 1))
      by (unfold is_int, INT_MIN, INT_MAX in *; lia).
    reflexivity.
  - apply list_lookup_insert_eq. lia.
  - intros j Hj. apply list_lookup_insert_ne. congruence.
  - apply length_insert.
Qed.

Lemma enqueue_stores_at_head_witness :
  exists cells cells',
    slots (Build 2 (Some [7; 0]) 0 1 0 1) = Some cells /\
    enqueue_into_ringbuffer 1 9 (Build 2 (Some [7; 0]) 0 1 0 1) =
      Done tt (Build 2 (Some cells') 0 (1 + 1) 0 ((1 + 1) mod 2)) /\
    cells' !! Z.to_nat 1 = Some 9 /\
    (forall j, j <> Z.to_nat 1 -> cells' !! j = cells !! j) /\
    length cells' = length cells.
Proof.
  apply (enqueue_stores_at_head (Build 2 (Some [7; 0]) 0 1 0 1) 9 0).
  - split; simpl; unfold INT_MAX; try lia.
    exists [7; 0]. split; reflexivity.
  - simpl. lia.
Defined.

(** C6.  In every well-formed buffer state with [count > 0], a call to
    [dequeue_from_ringbuffer()] returns the value stored in the slot at the
    tail index [out]; it has advanced [out] by one modulo [nr_slots] and
    decremented [count] by one, and left the slots, the head index and the
    capacity as they were. *)
Theorem dequeue_returns_tail rb fuel :
  well_formed rb ->
  0 < count rb ->
  exists cells value,
    slots rb = Some cells /\
    cells !! Z.to_nat (out rb) = Some value /\
    dequeue_from_ringbuffer (S fuel) rb =
      Done value (Build (nr_slots rb) (Some cells) 0 (count rb - 1)
                        ((out rb + 1) mod nr_slots rb) (in_ rb)).
Proof.
  intros [Hcap (cells & Hcells & Hlen) Hheld Hcount Hout Hin] Hsome.
  destruct (lookup_lt_is_Some_2 cells (Z.to_nat (out rb))) as [value Hvalue]; [lia|].
  exists cells, value. split; [assumption|]. split; [assumption|].
  rewrite dequeue_cases.
  replace (count rb =? 0) with false by lia.
  rewrite Hheld. simpl. unfold dequeue_body.
  rewrite (int_of_is_int (out rb + 1))
    by (unfold is_int, INT_MIN, INT_MAX in *; lia). simpl.
  rewrite int_rem_pos by lia. simpl.
  rewrite (int_of_is_int (count rb - 1))
    by (unfold is_int, INT_MIN, INT_MAX in *; lia). simpl.
  assert (Hld : load (slots rb) (out rb) = Some value).
  { apply load_Some. exists cells. repeat split; try assumption; lia. }
  rewrite Hld, Hcells. reflexivity.
Qed.

Lemma dequeue_returns_tail_witness :
  exists cells value,
    slots (Build 2 (Some [7; 9]) 0 2 1 1) = Some cells /\
    cells !! Z.to_nat 1 = Some value /\
    dequeue_from_ringbuffer 1 (Build 2 (Some [7; 9]) 0 2 1 1) =
      Done value (Build 2 (Some cells) 0 (2 - 1) ((1 + 1) mod 2) 1).
Proof.
  apply (dequeue_returns_tail (Build 2 (Some [7; 9]) 0 2 1 1) 0).
  - split; simpl; unfold INT_MAX; try lia.
    exists [7; 9]. split; reflexivity.
  - simpl. lia.
Defined.

(** *** Slot accesses stay inside the array *)

(** For every capacity [N > 0] and every state reachable from
    [init_ringbuffer(N)] by calls that run one at a time, the head index
    [in] and the tail index [out] are in [0, N); when the slot storage is
    allocated it has [N] cells, so the store that [enqueue_into_ringbuffer]
    performs at [in] and the load that [dequeue_from_ringbuffer] performs
    at [out] are both defined, and neither call runs into undefined
    behaviour. *)
Lemma reachable_indices N rb :
  0 < N ->
  reachable N rb ->
  (0 <= in_ rb < N /\ 0 <= out rb < N) /\
  (forall cells,
      slots rb = Some cells ->
      Z.of_nat (length cells) = N /\
      (forall value, is_Some (store (slots rb) (in_ rb) value)) /\
      is_Some (load (slots rb) (out rb)) /\
      (forall fuel value, enqueue_into_ringbuffer fuel value rb <> Fault) /\
      (forall fuel, dequeue_from_ringbuffer fuel rb <> Fault)).
Proof.
  intros HN Hreach.
  destruct (reachable_shape N rb Hreach)
    as [Hint Hcap Hheld Hcount Hout Hin Hhead Hslots _].
  split; [lia|]. intros cells Hcells.
  assert (Hlen : Z.of_nat (length cells) = N) by (apply Hslots; [lia|assumption]).
  assert (Hst : forall value, store (slots rb) (in_ rb) value
                              = Some (<[Z.to_nat (in_ rb) := value]> cells)).
  { intros value. apply store_Some. exists cells. repeat split; try assumption; lia. }
  destruct (lookup_lt_is_Some_2 cells (Z.to_nat (out rb))) as [v Hv]; [lia|].
  assert (Hld : load (slots rb) (out rb) = Some v).
  { apply load_Some. exists cells. repeat split; try assumption; lia. }
  unfold is_int, INT_MIN, INT_MAX in Hint.
  split; [assumption|]. split; [|split; [|split]].
  - intros value. rewrite Hst. eauto.
  - rewrite Hld. eauto.
  - intros fuel value. rewrite enqueue_cases.
    destruct (count rb =? nr_slots rb) eqn:Hfull; [discriminate|].
    apply Z.eqb_neq in Hfull.
    destruct fuel; [discriminate|]. rewrite Hheld. simpl. unfold enqueue_body.
    rewrite Hst. simpl.
    rewrite (int_of_is_int (in_ rb + 1))
      by (unfold is_int, INT_MIN, INT_MAX; lia). simpl.
    rewrite int_rem_pos by lia. simpl.
    rewrite (int_of_is_int (count rb + 1))
      by (unfold is_int, INT_MIN, INT_MAX; lia).
    discriminate.
  - intros fuel. rewrite dequeue_cases.
    destruct (count rb =? 0) eqn:Hempty; [discriminate|].
    apply Z.eqb_neq in Hempty.
    destruct fuel; [discriminate|]. rewrite Hheld. simpl. unfold dequeue_body.
    rewrite (int_of_is_int (out rb + 1))
      by (unfold is_int, INT_MIN, INT_MAX; lia). simpl.
    rewrite int_rem_pos by lia. simpl.
    rewrite (int_of_is_int (count rb - 1))
      by (unfold is_int, INT_MIN, INT_MAX; lia). simpl.
    rewrite Hld. discriminate.
Qed.

(** *** First in, first out for calls that do not overlap *)

Lemma mod_add_distinct N o k c :
  0 < N -> 0 <= k < c -> c < N -> (o + k) mod N <> (o + c) mod N.
Proof.
  intros HN Hk Hc Heq.
  pose proof (Z.div_mod (o + k) N ltac:(lia)) as E1.
  pose proof (Z.div_mod (o + c) N ltac:(lia)) as E2.
  rewrite Heq in E1.
  assert (E : c - k = N * ((o + c) / N - (o + k) / N)) by lia.
  assert (Hq : 0 < (o + c) / N - (o + k) / N < 1) by nia.
  lia.
Qed.

Lemma omap_ext_seq {A} (f g : nat -> option A) n m :
  (forall k, (n <= k < n + m)%nat -> f k = g k) ->
  omap f (seq n m) = omap g (seq n m).
Proof.
  revert n. induction m as [|m IH]; intros n Hfg; [reflexivity|].
  simpl. rewrite Hfg by lia. rewrite IH; [reflexivity|].
  intros k Hk. apply Hfg. lia.
Qed.

Lemma omap_seq_shift {A} (f : nat -> option A) n m :
  omap f (seq (S n) m) = omap (fun k => f (S k)) (seq n m).
Proof.
  revert n. induction m as [|m IH]; intros n; [reflexivity|].
  simpl. destruct (f (S n)); rewrite IH; reflexivity.
Qed.

Lemma contents_enqueue N rb value rb' :
  0 < N -> shape N rb ->
  count rb <> nr_slots rb ->
  enqueue_body value rb = Some rb' ->
  contents rb' = contents rb ++ [value].
Proof.
  intros HN [Hint Hcap Hheld Hcount Hout Hin Hhead Hslots _] Hroom Hbody.
  unfold enqueue_body in Hbody.
  destruct (store (slots rb) (in_ rb) value) as [p'|] eqn:Hst; [|discriminate].
  simpl in Hbody.
  destruct (int_of (in_ rb + 1)) as [i1|]; [|discriminate]. simpl in Hbody.
  destruct (int_rem i1 (nr_slots rb)) as [r|]; [|discriminate]. simpl in Hbody.
  destruct (int_of (count rb + 1)) as [c1|] eqn:Hc1; [|discriminate].
  simpl in Hbody. injection Hbody as <-.
  apply int_of_Some in Hc1 as [-> _].
  apply store_Some in Hst as (cells & Hcells & Hidx & ->).
  specialize (Hslots cells ltac:(lia) Hcells).
  specialize (Hcount ltac:(lia)). specialize (Hhead HN).
  unfold contents. simpl. rewrite Hcells, Hcap.
  replace (Z.to_nat (count rb + 1)) with (Z.to_nat (count rb) + 1)%nat by lia.
  rewrite seq_app, omap_app. simpl. f_equal.
  - apply omap_ext_seq. intros k Hk.
    apply list_lookup_insert_ne. rewrite Hhead.
    intros Heq. apply Z2Nat.inj in Heq; try (apply Z.mod_pos_bound; lia).
    symmetry in Heq. revert Heq. apply mod_add_distinct; lia.
  - rewrite Z2Nat.id by lia. rewrite <- Hhead.
    rewrite list_lookup_insert_eq by lia. reflexivity.
Qed.

Lemma contents_dequeue N rb value rb' :
  0 < N -> shape N rb ->
  count rb <> 0 ->
  dequeue_body rb = Some (value, rb') ->
  contents rb = value :: contents rb'.
Proof.
  intros HN [Hint Hcap Hheld Hcount Hout Hin Hhead Hslots _] Hsome Hbody.
  unfold dequeue_body in Hbody.
  destruct (int_of (out rb + 1)) as [o1|] eqn:Ho1; [|discriminate].
  simpl in Hbody.
  destruct (int_rem o1 (nr_slots rb)) as [r|] eqn:Hr; [|discriminate].
  simpl in Hbody.
  destruct (int_of (count rb - 1)) as [c1|] eqn:Hc1; [|discriminate].
  simpl in Hbody.
  destruct (load (slots rb) (out rb)) as [v|] eqn:Hld; [|discriminate].
  simpl in Hbody. injection Hbody as <- <-.
  apply int_of_Some in Ho1 as [-> _]. apply int_of_Some in Hc1 as [-> Hc1].
  apply load_Some in Hld as (cells & Hcells & Hidx & Hv).
  rewrite Hcap in Hr. rewrite int_rem_pos in Hr by lia. injection Hr as <-.
  specialize (Hcount ltac:(lia)).
  unfold contents. simpl. rewrite Hcells, Hcap.
  replace (Z.to_nat (count rb)) with (S (Z.to_nat (count rb - 1))) by lia.
  simpl. rewrite Z.add_0_r, Z.mod_small by lia. rewrite Hv. simpl. f_equal.
  rewrite omap_seq_shift. apply omap_ext_seq. intros k _.
  rewrite Zplus_mod_idemp_l. do 3 f_equal. lia.
Qed.

Lemma perform_fifo N fuel calls rb outs rb' :
  shape N rb ->
  perform fuel calls rb = Done outs rb' ->
  shape N rb' /\ contents rb ++ inputs calls = outs ++ contents rb'.
Proof.
  revert rb outs. induction calls as [|[value|] calls IH];
    intros rb outs Hshape Hrun; simpl in Hrun.
  - injection Hrun as <- <-. split; [assumption|].
    simpl. rewrite app_nil_r. reflexivity.
  - unfold bind in Hrun.
    destruct (enqueue_into_ringbuffer fuel value rb) as [[] rb1| | |] eqn:Hcall;
      try discriminate.
    apply enqueue_Done in Hcall as (Hfull & _ & Hbody).
    destruct (shape_enqueue _ _ _ _ Hshape Hfull Hbody) as [HN Hshape1].
    destruct (IH _ _ Hshape1 Hrun) as [Hshape' Hfifo].
    split; [assumption|]. simpl.
    rewrite <- Hfifo, (contents_enqueue N rb value rb1) by assumption.
    rewrite <- app_assoc. reflexivity.
  - unfold bind in Hrun.
    destruct (dequeue_from_ringbuffer fuel rb) as [x rb1| | |] eqn:Hcall;
      try discriminate.
    destruct (perform fuel calls rb1) as [xs rb2| | |] eqn:Hrest; try discriminate.
    injection Hrun as <- <-.
    apply dequeue_Done in Hcall as (Hempty & _ & Hbody).
    destruct (shape_dequeue _ _ _ _ Hshape Hempty Hbody) as [HN Hshape1].
    destruct (IH _ _ Hshape1 Hrest) as [Hshape' Hfifo].
    split; [assumption|]. simpl.
    rewrite (contents_dequeue N rb x rb1) by assumption.
    simpl. f_equal. assumption.
Qed.

Lemma contents_empty rb : count rb = 0 -> contents rb = [].
Proof. intros H. unfold contents. rewrite H. destruct (slots rb); reflexivity. Qed.

(** X10.  First in, first out, for calls that do not overlap.  After
    [init_ringbuffer(N)], when calls of [enqueue_into_ringbuffer] and
    [dequeue_from_ringbuffer] are made one after the other, in any order, and
    all return, the values dequeued followed by the values still in the
    buffer are the values enqueued, in the order they were enqueued; when
    the buffer ends up empty the sequence dequeued is the sequence
    enqueued. *)
Theorem fifo_without_overlap reply N rb0 status rb fuel calls outs rb' :
  is_int N ->
  init_ringbuffer reply N rb0 = Done status rb ->
  perform fuel calls rb = Done outs rb' ->
  outs ++ contents rb' = inputs calls /\
  (count rb' = 0 -> outs = inputs calls).
Proof.
  intros HN Hinit Hrun.
  pose proof (shape_init _ _ _ _ _ HN Hinit) as Hshape.
  destruct (perform_fifo _ _ _ _ _ _ Hshape Hrun) as [_ Hfifo].
  rewrite contents_empty in Hfifo.
  2:{ rewrite init_ringbuffer_cases in Hinit. injection Hinit as _ <-. reflexivity. }
  simpl in Hfifo. split; [auto|].
  intros Hempty. rewrite contents_empty in Hfifo by assumption.
  rewrite app_nil_r in Hfifo. auto.
Qed.

End RingBufferFacts.

(** ** Blocking mutex *)

Module MutexFacts.
Import Mutex.

Lemma mutex_pass_cas w fuel :
  held (mtx w) = 0 ->
  while_ (Datatypes.S fuel) cas_held w = Done tt (on_mutex (set_held 1) w).
Proof.
  intros H. apply while_exit. unfold cas_held, compare_and_swap.
  rewrite H. reflexivity.
Qed.

Lemma mutex_spin_cas w fuel :
  held (mtx w) <> 0 -> while_ fuel cas_held w = Spinning w.
Proof.
  intros H. apply while_stuck with (r := held (mtx w)); [|assumption].
  unfold cas_held, compare_and_swap.
  replace (held (mtx w) =? 0) with false by lia.
  destruct w as [[q s h] hp sm pd]; reflexivity.
Qed.

(** Symbolic execution of the straight-line code. *)
Ltac run :=
  unfold decrement_S, increment_S, init_mutex, bind, ret, reads, modify,
    defined, malloc_thread, free, store_pthread, load_pthread,
    list_add_tail, list_first_entry, list_del_init, sigprocmask_block,
    sigprocmask_unblock;
  cbn [fst snd negb wait_for_signal
       on_mutex set_heap set_sigmask set_pending set_Q set_S set_held
       mtx heap sigmask pending Q S held].

(** What the rest of [acquire_mutex] does for a suspended thread. *)
Lemma resume_cases fuel self a w :
  acquire_mutex_resume (Datatypes.S fuel) self a w =
    if decide (self ∈ pending w) then
      if held (mtx w) =? 0 then
        match heap w !! a with
        | Some _ =>
            Done tt (World (Build (Q (mtx w)) (S (mtx w)) 0)
                           (delete a (heap w))
                           (sigmask w ∖ {[self]})
                           (pending w ∖ {[self]}))
        | None => Fault
        end
      else Spinning (set_pending (pending w ∖ {[self]}) w)
    else Parked w.
Proof.
  unfold acquire_mutex_resume. cbn [wait_for_signal]. unfold bind, sigwait.
  destruct (decide (self ∈ pending w)) as [Hin|Hout]; [|reflexivity].
  run. rewrite !Z.eqb_refl. run.
  destruct (held (mtx w) =? 0) eqn:Hheld.
  - apply Z.eqb_eq in Hheld. rewrite mutex_pass_cas by exact Hheld. run.
    destruct (heap w !! a); reflexivity.
  - apply Z.eqb_neq in Hheld. rewrite mutex_spin_cas by exact Hheld. reflexivity.
Qed.

(** What a call to [acquire_mutex] does when no other thread is inside the
    mutex code. *)
Lemma acquire_cases fuel self reply w :
  held (mtx w) = 0 ->
  acquire_mutex (Datatypes.S fuel) self reply w =
    match int_of (S (mtx w) - 1) with
    | None => Fault
    | Some s1 =>
        if s1 <? 0 then
          match reply with
          | None => Fault
          | Some a =>
              acquire_mutex_resume (Datatypes.S fuel) self a
                (World (Build (Q (mtx w) ++ [a]) s1 0)
                       (<[a := Thread (Some self)]> (heap w))
                       (sigmask w ∪ {[self]})
                       (pending w))
          end
        else
          Done tt (World (Build (Q (mtx w)) s1 0)
                         (match reply with
                          | Some a => delete a (heap w)
                          | None => heap w
                          end)
                         (sigmask w) (pending w))
    end.
Proof.
  intros Hheld. unfold acquire_mutex, acquire_mutex_resume.
  destruct reply as [a|]; run.
  - rewrite mutex_pass_cas by exact Hheld. run.
    destruct (int_of (S (mtx w) - 1)) as [s1|]; [|reflexivity]. run.
    destruct (s1 <? 0) eqn:Hneg; run.
    + rewrite lookup_insert_eq. run. rewrite lookup_insert_eq. run.
      rewrite insert_insert_eq. reflexivity.
    + rewrite lookup_insert_eq. rewrite delete_insert_eq. reflexivity.
  - rewrite mutex_pass_cas by exact Hheld. run.
    destruct (int_of (S (mtx w) - 1)) as [s1|]; [|reflexivity]. run.
    destruct (s1 <? 0) eqn:Hneg; reflexivity.
Qed.

Lemma unlink_head a q : unlink a (a :: q) = q.
Proof. simpl. destruct (decide (a = a)); congruence. Qed.

(** What a call to [release_mutex] does when no other thread is inside the
    mutex code. *)
Lemma release_cases fuel w :
  held (mtx w) = 0 ->
  release_mutex (Datatypes.S fuel) w =
    match int_of (S (mtx w) + 1) with
    | None => Fault
    | Some s1 =>
        if s1 <=? 0 then
          match Q (mtx w) with
          | [] => Fault
          | a :: rest =>
              match heap w !! a with
              | Some (Thread (Some t)) =>
                  if decide (t ∈ sigmask w)
                  then Done tt (World (Build rest s1 0) (heap w) (sigmask w)
                                      (pending w ∪ {[t]}))
                  else Fault
              | _ => Fault
              end
          end
        else Done tt (World (Build (Q (mtx w)) s1 0) (heap w) (sigmask w) (pending w))
    end.
Proof.
  intros Hheld. unfold release_mutex. run.
  rewrite mutex_pass_cas by exact Hheld. run.
  destruct (int_of (S (mtx w) + 1)) as [s1|]; [|reflexivity]. run.
  destruct (s1 <=? 0) eqn:Hneg; run; [|reflexivity].
  destruct (Q (mtx w)) as [|a rest] eqn:HQ; [reflexivity|]. run.
  rewrite ?HQ, unlink_head.
  destruct (heap w !! a) as [[[t|]]|]; try reflexivity.
  unfold pthread_kill. run.
  destruct (decide (t ∈ sigmask w)); reflexivity.
Qed.

Lemma init_mutex_cases m :
  init_mutex (boot m) = Done tt (World (Build [] 1 0) ∅ ∅ ∅).
Proof. reflexivity. Qed.

Lemma earlier_insert since a now x y :
  x <> a -> y <> a -> earlier since x y -> earlier (<[a := now]> since) x y.
Proof.
  intros Hx Hy (tx & ty & Htx & Hty & Hlt). exists tx, ty.
  rewrite !lookup_insert_ne by congruence. auto.
Qed.

Lemma running_not_pending now since w self :
  consistent now since w -> running w self -> self ∉ pending w.
Proof.
  intros Hc Hrun Hin.
  destruct (con_pending _ _ _ Hc self Hin) as (a & Ha & _).
  apply (Hrun a _ Ha). reflexivity.
Qed.

Lemma queued_live now since w a :
  consistent now since w -> a ∈ Q (mtx w) -> is_Some (heap w !! a).
Proof.
  intros Hc Hin. destruct (con_queued _ _ _ Hc a Hin) as (t & Ht & _). eauto.
Qed.

Lemma consistent_init m w :
  init_mutex (boot m) = Done tt w -> consistent 0 ∅ w.
Proof.
  rewrite init_mutex_cases. intros [= <-].
  split; simpl; try (intros; set_solver); try reflexivity.
  - unfold is_int, INT_MIN, INT_MAX. lia.
  - constructor.
  - constructor.
Qed.

Lemma consistent_acquire now since w fuel self reply w' :
  consistent now since w ->
  running w self ->
  (forall a, reply = Some a -> heap w !! a = None) ->
  acquire_mutex fuel self reply w = Done tt w' ->
  consistent (Datatypes.S now) since w'.
Proof.
  intros Hc Hrun Hfresh Hcall.
  pose proof (running_not_pending _ _ _ _ Hc Hrun) as Hnp.
  destruct Hc as [Hheld Hint Hlen Hnd Hq Hlive Hown Hpend Hsort Hstamp].
  destruct fuel as [|fuel].
  { unfold acquire_mutex in Hcall. run. destruct reply; discriminate. }
  rewrite acquire_cases in Hcall by exact Hheld.
  destruct (int_of (S (mtx w) - 1)) as [s1|] eqn:Hs1; [|discriminate].
  apply int_of_Some in Hs1 as [-> Hint1].
  destruct (S (mtx w) - 1 <? 0) eqn:Hneg.
  { destruct reply as [a|]; [|discriminate].
    rewrite resume_cases in Hcall. simpl in Hcall.
    destruct (decide (self ∈ pending w)); [contradiction | discriminate]. }
  apply Z.ltb_ge in Hneg.
  assert (Hheap : match reply with Some a => delete a (heap w) | None => heap w end
                  = heap w).
  { destruct reply as [a|]; [|reflexivity]. apply delete_id. auto. }
  rewrite Hheap in Hcall. injection Hcall as <-.
  split; simpl.
  - reflexivity.
  - assumption.
  - lia.
  - assumption.
  - assumption.
  - assumption.
  - assumption.
  - assumption.
  - assumption.
  - intros a Ha. destruct (Hstamp a Ha) as (n & Hn & Hlt).
    exists n. split; [assumption|lia].
Qed.

Lemma consistent_wait now since w fuel self a w' :
  consistent now since w ->
  running w self ->
  heap w !! a = None ->
  acquire_mutex fuel self (Some a) w = Parked w' ->
  consistent (Datatypes.S now) (<[a := now]> since) w'.
Proof.
  intros Hc Hrun Hfresh Hcall.
  pose proof (running_not_pending _ _ _ _ Hc Hrun) as Hnp.
  assert (HaQ : a ∉ Q (mtx w)).
  { intros Hin. destruct (queued_live _ _ _ _ Hc Hin) as [r Hr]. congruence. }
  destruct Hc as [Hheld Hint Hlen Hnd Hq Hlive Hown Hpend Hsort Hstamp].
  destruct fuel as [|fuel].
  { unfold acquire_mutex in Hcall. run. discriminate. }
  rewrite acquire_cases in Hcall by exact Hheld.
  destruct (int_of (S (mtx w) - 1)) as [s1|] eqn:Hs1; [|discriminate].
  apply int_of_Some in Hs1 as [-> Hint1].
  destruct (S (mtx w) - 1 <? 0) eqn:Hneg; [|discriminate].
  apply Z.ltb_lt in Hneg.
  rewrite resume_cases in Hcall. simpl in Hcall.
  destruct (decide (self ∈ pending w)) as [Hin|_]; [contradiction|].
  injection Hcall as <-.
  split; simpl.
  - reflexivity.
  - assumption.
  - rewrite length_app. simpl. lia.
  - apply NoDup_app. split; [assumption|]. split; [|apply NoDup_singleton].
    intros x Hx Hxa. apply list_elem_of_singleton in Hxa. subst. contradiction.
  - intros x Hx. apply elem_of_app in Hx as [Hx|Hx].
    + destruct (Hq x Hx) as (t & Ht & Htp). exists t.
      rewrite lookup_insert_ne by (intros ->; contradiction). auto.
    + apply list_elem_of_singleton in Hx as ->. exists self.
      rewrite lookup_insert_eq. auto.
  - intros x r Hx. destruct (decide (x = a)) as [->|Hne].
    + rewrite lookup_insert_eq in Hx. injection Hx as <-.
      exists self. split; [reflexivity|set_solver].
    + rewrite lookup_insert_ne in Hx by congruence.
      destruct (Hlive x r Hx) as (t & -> & Ht). exists t. split; [reflexivity|set_solver].
  - intros x y t Hx Hy.
    destruct (decide (x = a)) as [->|Hxa], (decide (y = a)) as [->|Hya].
    + reflexivity.
    + rewrite lookup_insert_eq in Hx. injection Hx as <-.
      rewrite lookup_insert_ne in Hy by congruence.
      exfalso. apply (Hrun y _ Hy). reflexivity.
    + rewrite lookup_insert_eq in Hy. injection Hy as <-.
      rewrite lookup_insert_ne in Hx by congruence.
      exfalso. apply (Hrun x _ Hx). reflexivity.
    + rewrite lookup_insert_ne in Hx by congruence.
      rewrite lookup_insert_ne in Hy by congruence. eauto.
  - intros t Ht. destruct (Hpend t Ht) as (b & Hb & HbQ).
    assert (Hba : b <> a) by congruence.
    exists b. rewrite lookup_insert_ne by congruence. split; [assumption|].
    rewrite elem_of_app, list_elem_of_singleton. tauto.
  - apply StronglySorted_app. split; [|split].
    + intros x y Hx Hy. apply list_elem_of_singleton in Hy as ->.
      destruct (Hstamp x Hx) as (n & Hn & Hlt). exists n, now.
      rewrite lookup_insert_eq.
      rewrite lookup_insert_ne by (intros ->; contradiction). auto.
    + clear -Hsort HaQ. induction Hsort as [|x l _ IH Hall]; [constructor|].
      apply not_elem_of_cons in HaQ as [Hxa Hal].
      constructor; [auto|].
      rewrite Forall_forall in Hall |- *. intros y Hy.
      apply earlier_insert; [congruence| |auto].
      intros ->. contradiction.
    + repeat constructor.
  - intros x Hx. apply elem_of_app in Hx as [Hx|Hx].
    + destruct (Hstamp x Hx) as (n & Hn & Hlt). exists n.
      rewrite lookup_insert_ne by (intros ->; contradiction). split; [assumption|lia].
    + apply list_elem_of_singleton in Hx as ->. exists now.
      rewrite lookup_insert_eq. split; [reflexivity|lia].
Qed.

Lemma consistent_release now since w fuel w' :
  consistent now since w ->
  release_mutex fuel w = Done tt w' ->
  consistent (Datatypes.S now) since w'.
Proof.
  intros Hc Hcall.
  destruct Hc as [Hheld Hint Hlen Hnd Hq Hlive Hown Hpend Hsort Hstamp].
  destruct fuel as [|fuel]; [discriminate|].
  rewrite release_cases in Hcall by exact Hheld.
  destruct (int_of (S (mtx w) + 1)) as [s1|] eqn:Hs1; [|discriminate].
  apply int_of_Some in Hs1 as [-> Hint1].
  destruct (S (mtx w) + 1 <=? 0) eqn:Hneg.
  - apply Z.leb_le in Hneg.
    destruct (Q (mtx w)) as [|a rest] eqn:HQ; [discriminate|].
    destruct (heap w !! a) as [[[t|]]|] eqn:Ha; try discriminate.
    destruct (decide (t ∈ sigmask w)) as [Hmask|]; [|discriminate].
    injection Hcall as <-.
    apply NoDup_cons in Hnd as [HaQ Hnd].
    apply StronglySorted_cons in Hsort as [_ Hsort].
    split; simpl.
    + reflexivity.
    + assumption.
    + simpl in Hlen. lia.
    + assumption.
    + intros b Hb.
      destruct (Hq b) as (tb & Htb & Hnp); [set_solver|].
      exists tb. split; [assumption|].
      assert (Hne : tb <> t).
      { intros ->. assert (Hba : b = a) by eauto. subst. contradiction. }
      intros Hin. apply elem_of_union in Hin as [Hin|Hin]; [contradiction|].
      apply elem_of_singleton in Hin. contradiction.
    + assumption.
    + assumption.
    + intros t' Ht'. apply elem_of_union in Ht' as [Ht'|Ht'].
      * destruct (Hpend t' Ht') as (b & Hb & HbQ).
        exists b. split; [assumption|set_solver].
      * apply elem_of_singleton in Ht' as ->. eauto.
    + assumption.
    + intros b Hb. destruct (Hstamp b) as (n & Hn & Hlt); [set_solver|].
      exists n. split; [assumption|lia].
  - apply Z.leb_gt in Hneg. injection Hcall as <-.
    split; simpl; try assumption.
    + reflexivity.
    + lia.
    + intros b Hb. destruct (Hstamp b Hb) as (n & Hn & Hlt).
      exists n. split; [assumption|lia].
Qed.

Lemma consistent_resume now since w fuel self a w' :
  consistent now since w ->
  heap w !! a = Some (Thread (Some self)) ->
  acquire_mutex_resume fuel self a w = Done tt w' ->
  consistent (Datatypes.S now) since w'.
Proof.
  intros Hc Ha Hcall.
  destruct Hc as [Hheld Hint Hlen Hnd Hq Hlive Hown Hpend Hsort Hstamp].
  destruct fuel as [|fuel]; [discriminate|].
  rewrite resume_cases in Hcall.
  destruct (decide (self ∈ pending w)) as [Hin|_]; [|discriminate].
  rewrite Hheld, Ha in Hcall. simpl in Hcall. injection Hcall as <-.
  assert (HaQ : a ∉ Q (mtx w)).
  { destruct (Hpend self Hin) as (b & Hb & HbQ).
    assert (Hab : a = b) by eauto. subst. assumption. }
  assert (Hother : forall b t, heap w !! b = Some (Thread (Some t)) ->
                               b <> a -> t <> self).
  { intros b t Hb Hne ->. apply Hne. eauto. }
  split; simpl.
  - reflexivity.
  - assumption.
  - assumption.
  - assumption.
  - intros b Hb. destruct (Hq b Hb) as (t & Ht & Hnp).
    exists t. rewrite lookup_delete_ne by (intros ->; contradiction).
    split; [assumption|].
    intros Ht'. apply elem_of_difference in Ht' as [Ht' _]. contradiction.
  - intros b r Hb. apply lookup_delete_Some in Hb as [Hne Hb].
    destruct (Hlive b r Hb) as (t & -> & Ht). exists t. split; [reflexivity|].
    assert (Hts : t <> self) by eauto. set_solver.
  - intros x y t Hx Hy.
    apply lookup_delete_Some in Hx as [_ Hx].
    apply lookup_delete_Some in Hy as [_ Hy]. eauto.
  - intros t Ht. apply elem_of_difference in Ht as [Ht Hne].
    destruct (Hpend t Ht) as (b & Hb & HbQ).
    exists b. split; [|assumption].
    rewrite lookup_delete_ne; [assumption|].
    intros <-. rewrite Ha in Hb. injection Hb as <-. set_solver.
  - assumption.
  - intros b Hb. destruct (Hstamp b Hb) as (n & Hn & Hlt).
    exists n. split; [assumption|lia].
Qed.

Lemma reachable_consistent now since w :
  reachable now since w -> consistent now since w.
Proof.
  induction 1;
    eauto using consistent_init, consistent_acquire, consistent_wait,
      consistent_release, consistent_resume.
Qed.

Lemma consistent_queue_matches now since w :
  consistent now since w -> queue_matches since w.
Proof.
  intros [_ _ Hlen _ _ _ _ _ Hsort Hstamp]. split; [|split].
  - lia.
  - assumption.
  - intros a Ha. destruct (Hstamp a Ha) as (n & Hn & _). eauto.
Qed.

(** The state [two_waiters] is reached by three calls: thread 1 acquires
    the mutex, threads 2 and 3 call [acquire_mutex] and are suspended. *)
Ltac two_waiters_reached :=
  apply (reach_wait 2 (<[7%nat := 1%nat]> ∅)
           (World (Build [7%nat] (-1) 0) (<[7%nat := Thread (Some 2%nat)]> ∅)
                  ({[2%nat]}) ∅) 1 3 8);
  [apply (reach_wait 1 ∅ (World (Build [] 0 0) ∅ ∅ ∅) 1 2 7);
   [apply (reach_acquire 0 ∅ (World (Build [] 1 0) ∅ ∅ ∅) 1 1 None);
    [apply (reach_init (Build [] 0 0)); reflexivity
    |intros a r Hr; simpl in Hr; rewrite lookup_empty in Hr; discriminate
    |intros a Ha; discriminate
    |reflexivity]
   |intros a r Hr; simpl in Hr; rewrite lookup_empty in Hr; discriminate
   |reflexivity
   |vm_compute; reflexivity]
  |intros a r Hr; simpl in Hr;
   apply lookup_insert_Some in Hr as [[_ <-]|[_ Hr]];
   [discriminate|rewrite lookup_empty in Hr; discriminate]
  |reflexivity
  |vm_compute; reflexivity].

Ltac two_waiters_running :=
  intros a r Hr; unfold two_waiters in Hr; simpl in Hr;
  apply lookup_insert_Some in Hr as [[_ <-]|[_ Hr]]; [discriminate|];
  apply lookup_insert_Some in Hr as [[_ <-]|[_ Hr]]; [discriminate|];
  rewrite lookup_empty in Hr; discriminate.

(** *** The wait queue against the counter *)

(** X19.  For calls that run one at a time.  In every state reachable
    from [init_mutex] by calls of [acquire_mutex] and [release_mutex] that
    run one at a time, whenever [S <= 0] the wait queue has exactly [-S]
    entries, and the entries are in the order in which their threads began
    waiting.  Every such call of [acquire_mutex], returning or suspending
    its caller, and every such call of [release_mutex] leads to a state in
    which this holds again. *)
Theorem wait_queue_matches_counter now since w :
  reachable now since w ->
  queue_matches since w /\
  (forall fuel self reply w',
      running w self ->
      (forall a, reply = Some a -> heap w !! a = None) ->
      acquire_mutex fuel self reply w = Done tt w' ->
      queue_matches since w') /\
  (forall fuel self a w',
      running w self ->
      heap w !! a = None ->
      acquire_mutex fuel self (Some a) w = Parked w' ->
      queue_matches (<[a := now]> since) w') /\
  (forall fuel w',
      release_mutex fuel w = Done tt w' ->
      queue_matches since w').
Proof.
  intros Hreach. pose proof (reachable_consistent _ _ _ Hreach) as Hc.
  split; [|split; [|split]].
  - eapply consistent_queue_matches; eassumption.
  - intros fuel self reply w' Hrun Hfresh Hcall.
    eapply consistent_queue_matches, consistent_acquire; eassumption.
  - intros fuel self a w' Hrun Hfresh Hcall.
    eapply consistent_queue_matches, consistent_wait; eassumption.
  - intros fuel w' Hcall.
    eapply consistent_queue_matches, consistent_release; eassumption.
Qed.

Lemma wait_queue_matches_counter_witness :
  (S (mtx two_waiters) <= 0 ->
   Z.of_nat (length (Q (mtx two_waiters))) = - S (mtx two_waiters)) /\
  StronglySorted (earlier two_waiters_since) [7%nat; 8%nat] /\
  queue_matches (<[9%nat := 3%nat]> two_waiters_since)
    (World (Build [7%nat; 8%nat; 9%nat] (-3) 0)
           (<[9%nat := Thread (Some 4%nat)]> (heap two_waiters))
           (sigmask two_waiters ∪ {[4%nat]}) ∅) /\
  queue_matches two_waiters_since
    (World (Build [8%nat] (-1) 0) (heap two_waiters) (sigmask two_waiters)
           (∅ ∪ {[2%nat]})).
Proof.
  destruct (wait_queue_matches_counter 3 two_waiters_since two_waiters)
    as ((Hlen & Hsort & _) & _ & Hwait & Hrelease).
  - two_waiters_reached.
  - split; [exact Hlen|]. split; [exact Hsort|]. split.
    + apply (Hwait 1%nat 4%nat 9%nat).
      * two_waiters_running.
      * reflexivity.
      * vm_compute. reflexivity.
    + apply (Hrelease 1%nat). vm_compute. reflexivity.
Defined.

(** *** First in, first out *)

(** X18.  For calls that run one at a time.  In every state reachable
    from [init_mutex] by calls that run one at a time: a call of
    [acquire_mutex] by a running thread that finds the decremented [S]
    negative suspends the caller with its record appended at the tail of
    the queue, the entries before it unchanged; a call of [release_mutex]
    that finds the incremented [S <= 0] finds the queue non-empty, removes
    its first entry, which began waiting before every other entry, and
    makes SIGINT pending for the thread of that entry and for no other
    thread: the threads of the remaining entries are other threads and
    have no signal pending afterwards. *)
Theorem wait_queue_fifo now since w :
  reachable now since w ->
  (forall fuel self a,
      running w self ->
      heap w !! a = None ->
      INT_MIN < S (mtx w) ->
      S (mtx w) - 1 < 0 ->
      acquire_mutex (Datatypes.S fuel) self (Some a) w =
        Parked (World (Build (Q (mtx w) ++ [a]) (S (mtx w) - 1) 0)
                      (<[a := Thread (Some self)]> (heap w))
                      (sigmask w ∪ {[self]})
                      (pending w))) /\
  (forall fuel,
      S (mtx w) + 1 <= 0 ->
      exists a rest t,
        Q (mtx w) = a :: rest /\
        heap w !! a = Some (Thread (Some t)) /\
        Forall (earlier since a) rest /\
        release_mutex (Datatypes.S fuel) w =
          Done tt (World (Build rest (S (mtx w) + 1) 0)
                         (heap w) (sigmask w) (pending w ∪ {[t]})) /\
        (forall b, b ∈ rest ->
                   exists t', heap w !! b = Some (Thread (Some t')) /\
                              t' <> t /\ t' ∉ pending w ∪ {[t]})).
Proof.
  intros Hreach. pose proof (reachable_consistent _ _ _ Hreach) as Hc.
  split.
  - intros fuel self a Hrun Hfresh Hmin Hneg.
    pose proof (running_not_pending _ _ _ _ Hc Hrun) as Hnp.
    destruct Hc as [Hheld Hint _ _ _ _ _ _ _ _].
    rewrite acquire_cases by exact Hheld.
    rewrite int_of_is_int by (unfold is_int, INT_MIN, INT_MAX in *; lia).
    replace (S (mtx w) - 1 <? 0) with true by lia.
    rewrite resume_cases. simpl.
    destruct (decide (self ∈ pending w)) as [Hin|_]; [contradiction|reflexivity].
  - intros fuel Hneg.
    destruct Hc as [Hheld Hint Hlen Hnd Hq Hlive Hown Hpend Hsort Hstamp].
    destruct (Q (mtx w)) as [|a rest] eqn:HQ; [simpl in Hlen; lia|].
    destruct (Hq a) as (t & Ha & Hnp); [set_solver|].
    destruct (Hlive a _ Ha) as (t0 & [= <-] & Hmask).
    apply NoDup_cons in Hnd as [HaQ Hnd].
    apply StronglySorted_cons in Hsort as [Hfirst _].
    exists a, rest, t. repeat split; try assumption.
    + rewrite release_cases by exact Hheld.
      rewrite int_of_is_int by (unfold is_int, INT_MIN, INT_MAX in *; lia).
      replace (S (mtx w) + 1 <=? 0) with true by lia.
      rewrite HQ, Ha.
      destruct (decide (t ∈ sigmask w)) as [_|Hout]; [reflexivity|contradiction].
    + intros b Hb. destruct (Hq b) as (tb & Htb & Hnpb); [set_solver|].
      assert (Hne : tb <> t).
      { intros ->. assert (Hba : b = a) by eauto. subst. contradiction. }
      exists tb. repeat split; [assumption|assumption|].
      intros Hin. apply elem_of_union in Hin as [Hin|Hin]; [contradiction|].
      apply elem_of_singleton in Hin. contradiction.
Qed.

Lemma wait_queue_fifo_witness :
  acquire_mutex 1 4%nat (Some 9%nat) two_waiters =
    Parked (World (Build ([7%nat; 8%nat] ++ [9%nat]) (-2 - 1) 0)
                  (<[9%nat := Thread (Some 4%nat)]> (heap two_waiters))
                  (sigmask two_waiters ∪ {[4%nat]})
                  ∅) /\
  release_mutex 1 two_waiters =
    Done tt (World (Build [8%nat] (-2 + 1) 0) (heap two_waiters)
                   (sigmask two_waiters) (∅ ∪ {[2%nat]})) /\
  Forall (earlier two_waiters_since 7%nat) [8%nat].
Proof.
  destruct (wait_queue_fifo 3 two_waiters_since two_waiters)
    as [Hacquire Hrelease].
  - two_waiters_reached.
  - split.
    + apply (Hacquire 0%nat 4%nat 9%nat).
      * two_waiters_running.
      * reflexivity.
      * unfold INT_MIN. simpl. lia.
      * simpl. lia.
    + destruct (Hrelease 0%nat) as (a & rest & t & HQ & Ha & Hfirst & Hcall & _).
      * simpl. lia.
      * injection HQ as <- <-.
        assert (Ht : t = 2%nat) by (vm_compute in Ha; congruence).
        subst t. split; [exact Hcall|exact Hfirst].
Defined.

End MutexFacts.

(** ** Threads *)

Section InterleavingFacts.

Context {Shared Local Turn : Type}.
Variable who : Turn -> tid.
Variable thread_step : Turn -> Local -> prog Shared Local.

Lemma solo_S n turn l s :
  solo thread_step (S n) turn l s =
    match thread_step turn l s with
    | Done l' s' => solo thread_step n turn l' s'
    | Spinning s' => Spinning s'
    | Parked s' => Parked s'
    | Fault => Fault
    end.
Proof. reflexivity. Qed.

(** A thread that is given [n] turns in a row takes its next [n] steps on
    the shared memory and leaves the other threads where they are. *)
Lemma run_turns n turn c l s :
  solo thread_step n turn (locals c (who turn)) (shared c) = Done l s ->
  exists c',
    run who thread_step (turns n turn) c = Some c' /\
    shared c' = s /\
    locals c' (who turn) = l /\
    (forall t, t <> who turn -> locals c' t = locals c t).
Proof.
  revert c. induction n as [|n IH]; intros c Hsolo; simpl in Hsolo.
  - injection Hsolo as <- <-. exists c. auto.
  - unfold bind in Hsolo.
    destruct (thread_step turn (locals c (who turn)) (shared c))
      as [l1 s1| | |] eqn:Hstep; try discriminate.
    destruct (IH (Config s1 (<[who turn := l1]> (locals c)))) as (c' & Hrun & Hs & Hl & Hothers).
    { simpl. rewrite fn_lookup_insert. exact Hsolo. }
    exists c'. split; [|split; [assumption|split; [assumption|]]].
    + simpl. unfold step. rewrite Hstep. exact Hrun.
    + intros t Ht. rewrite Hothers by exact Ht. simpl.
      apply fn_lookup_insert_ne. congruence.
Qed.

(** A thread that is given no turn stays where it is. *)
Lemma run_others schedule c c' t :
  run who thread_step schedule c = Some c' ->
  t ∉ who <$> schedule ->
  locals c' t = locals c t.
Proof.
  revert c. induction schedule as [|turn schedule IH]; intros c Hrun Ht;
    simpl in Hrun.
  - injection Hrun as <-. reflexivity.
  - rewrite fmap_cons in Ht. apply not_elem_of_cons in Ht as [Hne Ht].
    destruct (step who thread_step turn c) as [c1|] eqn:Hstep; [|discriminate].
    rewrite (IH c1 Hrun Ht). unfold step in Hstep.
    destruct (thread_step turn (locals c (who turn)) (shared c));
      try discriminate.
    injection Hstep as <-. simpl. apply fn_lookup_insert_ne. congruence.
Qed.
End InterleavingFacts.

(** ** Threads on a spinlock *)

Module SpinlockFacts.
Import Spinlock SpinlockThreads.

(** [acquire_spinlock] on a free lock returns with the lock held; on a held
    lock it spins, and leaves the lock as it is. *)
Lemma acquire_spinlock_free l fuel :
  held l = 0 -> acquire_spinlock (S fuel) l = Done tt (Build 1).
Proof.
  intros H. apply while_exit. unfold cas_held, compare_and_swap.
  rewrite H. reflexivity.
Qed.

Lemma acquire_spinlock_held l fuel :
  held l <> 0 -> acquire_spinlock fuel l = Spinning l.
Proof.
  intros H. apply while_stuck with (r := held l); [|assumption].
  unfold cas_held, compare_and_swap.
  replace (held l =? 0) with false by lia. destruct l; reflexivity.
Qed.

(** The threads start from the state [init_spinlock] leaves. *)
Lemma boot_after_init_spinlock l : init_spinlock l = Done tt (shared boot).
Proof. reflexivity. Qed.

(** A thread that is given the processor for a whole call of
    [acquire_spinlock] on a free lock does what the sequential function
    does. *)
Lemma acquire_spinlock_alone t l fuel l' :
  held l = 0 ->
  acquire_spinlock (S fuel) l = Done tt l' ->
  solo thread_step 2 t Outside l = Done Inside l'.
Proof.
  intros H Hcall. rewrite acquire_spinlock_free in Hcall by exact H.
  injection Hcall as <-.
  destruct l as [h]. simpl in H. subst h. reflexivity.
Qed.

Lemma exclusive_boot : exclusive boot.
Proof.
  split; simpl.
  - auto.
  - intros _ t [H|H]; discriminate.
  - intros t1 t2 [H|H]; discriminate.
Qed.

Lemma holds_insert_ne c s t l t' :
  t <> t' ->
  holds (Config s (<[t := l]> (locals c))) t' <-> holds c t'.
Proof.
  intros Hne. unfold holds. simpl. rewrite fn_lookup_insert_ne by exact Hne.
  reflexivity.
Qed.

Lemma exclusive_step t c c' :
  exclusive c -> step id thread_step t c = Some c' -> exclusive c'.
Proof.
  intros [Hflag Hfree Hone] Hstep. unfold step, id in Hstep.
  destruct (locals c t) eqn:Hpc; simpl in Hstep.
  - (* the call of acquire_spinlock *)
    injection Hstep as <-. split; simpl.
    + assumption.
    + intros H0 t' Ht'. destruct (decide (t = t')) as [<-|Hne].
      * destruct Ht' as [H|H]; simpl in H; rewrite fn_lookup_insert in H; discriminate.
      * apply holds_insert_ne in Ht'; [|exact Hne]. eapply Hfree; eauto.
    + intros t1 t2 H1 H2.
      destruct (decide (t = t1)) as [<-|Hne1].
      { destruct H1 as [H|H]; simpl in H; rewrite fn_lookup_insert in H; discriminate. }
      destruct (decide (t = t2)) as [<-|Hne2].
      { destruct H2 as [H|H]; simpl in H; rewrite fn_lookup_insert in H; discriminate. }
      apply holds_insert_ne in H1; [|exact Hne1].
      apply holds_insert_ne in H2; [|exact Hne2]. auto.
  - (* compare_and_swap *)
    unfold bind, cas_held, compare_and_swap, ret in Hstep.
    destruct (held (shared c) =? 0) eqn:Hheld; simpl in Hstep.
    + apply Z.eqb_eq in Hheld. rewrite Hheld in Hstep. simpl in Hstep.
      injection Hstep as <-. split; simpl.
      * auto.
      * discriminate.
      * intros t1 t2 H1 H2.
        destruct (decide (t = t1)) as [<-|Hne1], (decide (t = t2)) as [<-|Hne2].
        -- reflexivity.
        -- apply holds_insert_ne in H2; [|exact Hne2]. destruct (Hfree Hheld _ H2).
        -- apply holds_insert_ne in H1; [|exact Hne1]. destruct (Hfree Hheld _ H1).
        -- apply holds_insert_ne in H1; [|exact Hne1].
           apply holds_insert_ne in H2; [|exact Hne2]. auto.
    + apply Z.eqb_neq in Hheld.
      replace (held (shared c) =? 0) with false in Hstep by lia.
      injection Hstep as <-. split; simpl.
      * assumption.
      * intros H0. contradiction.
      * intros t1 t2 H1 H2.
        destruct (decide (t = t1)) as [<-|Hne1].
        { destruct H1 as [H|H]; simpl in H; rewrite fn_lookup_insert in H; discriminate. }
        destruct (decide (t = t2)) as [<-|Hne2].
        { destruct H2 as [H|H]; simpl in H; rewrite fn_lookup_insert in H; discriminate. }
        apply holds_insert_ne in H1; [|exact Hne1].
        apply holds_insert_ne in H2; [|exact Hne2]. auto.
  - (* the call of release_spinlock *)
    assert (Ht : holds c t) by (left; exact Hpc).
    injection Hstep as <-. split; simpl.
    + assumption.
    + intros H0. destruct (Hfree H0 _ Ht).
    + intros t1 t2 H1 H2.
      assert (E1 : t1 = t).
      { destruct (decide (t = t1)) as [<-|Hne]; [reflexivity|].
        apply holds_insert_ne in H1; [|exact Hne]. auto. }
      assert (E2 : t2 = t).
      { destruct (decide (t = t2)) as [<-|Hne]; [reflexivity|].
        apply holds_insert_ne in H2; [|exact Hne]. auto. }
      congruence.
  - (* l->held = 0 *)
    assert (Ht : holds c t) by (right; exact Hpc).
    injection Hstep as <-.
    assert (Hnone : forall t', ~ holds (Config (Build 0) (<[t := Outside]> (locals c))) t').
    { intros t' Ht'. destruct (decide (t = t')) as [<-|Hne].
      - destruct Ht' as [H|H]; simpl in H; rewrite fn_lookup_insert in H; discriminate.
      - apply holds_insert_ne in Ht'; [|exact Hne].
        apply Hne. auto. }
    split; simpl.
    + auto.
    + intros _. exact Hnone.
    + intros t1 t2 H1 _. destruct (Hnone _ H1).
Qed.

Lemma exclusive_run schedule c c' :
  exclusive c -> run id thread_step schedule c = Some c' -> exclusive c'.
Proof.
  revert c. induction schedule as [|t schedule IH]; intros c Hc Hrun; simpl in Hrun.
  - injection Hrun as <-. assumption.
  - destruct (step id thread_step t c) as [c1|] eqn:Hstep; [|discriminate].
    eapply IH; [|exact Hrun]. eapply exclusive_step; eassumption.
Qed.

(** Every turn can be taken: no thread on a spinlock is ever suspended. *)
Lemma run_total schedule c : is_Some (run id thread_step schedule c).
Proof.
  revert c. induction schedule as [|t schedule IH]; intros c; simpl; [eauto|].
  unfold step, id. destruct (locals c t); simpl; try apply IH.
  unfold bind, cas_held, compare_and_swap.
  destruct (held (shared c) =? 0); simpl; apply IH.
Qed.

(** X1.  Mutual exclusion of the spinlock: under every schedule of any number of
    threads that call [acquire_spinlock] before and [release_spinlock] after
    their critical sections, no two threads are inside their critical
    sections at the same time. *)
Theorem spinlock_mutual_exclusion schedule c t1 t2 :
  run id thread_step schedule boot = Some c ->
  locals c t1 = Inside ->
  locals c t2 = Inside ->
  t1 = t2.
Proof.
  intros Hrun H1 H2.
  destruct (exclusive_run _ _ _ exclusive_boot Hrun) as [_ _ Hone].
  apply Hone; left; assumption.
Qed.

End SpinlockFacts.

(** ** Threads on a mutex *)

Module MutexThreadsFacts.
Import Mutex MutexFacts MutexThreads.

(** *** A thread that runs a whole call without interruption *)

Lemma cas_free w :
  held (mtx w) = 0 -> cas_held w = Done 0 (on_mutex (set_held 1) w).
Proof. intros H. unfold cas_held, compare_and_swap. rewrite H. reflexivity. Qed.

(** Symbolic execution of the machine, one step at a time. *)
Ltac settle :=
  repeat (progress (run; cbn [pc new next reg fst snd];
                    change (0 =? 0) with true;
                    change (SIGINT =? SIGINT) with true;
                    cbv iota)).

Ltac tick :=
  rewrite solo_S; unfold thread_step at 1;
  cbn [pc new next reg fst snd];
  unfold goto, sigwait, pthread_kill;
  settle.

Lemma acquire_alone_returns fuel self reply nw nx rg w w' :
  held (mtx w) = 0 ->
  0 <= S (mtx w) - 1 ->
  acquire_mutex (Datatypes.S fuel) self reply w = Done tt w' ->
  solo thread_step 8 (self, reply) (Local Outside nw nx rg) w =
    Done (Local Inside reply nx (S (mtx w))) w'.
Proof.
  intros Hheld Hfast Hcall.
  rewrite acquire_cases in Hcall by exact Hheld.
  destruct (int_of (S (mtx w) - 1)) as [s1|] eqn:Hs1; [|discriminate].
  pose proof Hs1 as Hs1'. apply int_of_Some in Hs1' as [-> _].
  replace (S (mtx w) - 1 <? 0) with false in Hcall by lia.
  injection Hcall as <-.
  tick. tick.
  destruct reply as [a|].
  - tick. rewrite cas_free by exact Hheld. settle.
    tick. tick. rewrite Hs1. settle. tick.
    replace (S (mtx w) - 1 <? 0) with false by lia. tick.
    rewrite lookup_insert_eq. settle. tick.
    rewrite delete_insert_eq. reflexivity.
  - tick. rewrite cas_free by exact Hheld. settle.
    tick. tick. rewrite Hs1. settle. tick.
    replace (S (mtx w) - 1 <? 0) with false by lia. tick. tick.
    reflexivity.
Qed.

Lemma acquire_alone_waits fuel self a nw nx rg w w' :
  held (mtx w) = 0 ->
  acquire_mutex (Datatypes.S fuel) self (Some a) w = Parked w' ->
  solo thread_step 10 (self, Some a) (Local Outside nw nx rg) w =
    Done (Local A169 (Some a) nx (S (mtx w))) w'.
Proof.
  intros Hheld Hcall.
  rewrite acquire_cases in Hcall by exact Hheld.
  destruct (int_of (S (mtx w) - 1)) as [s1|] eqn:Hs1; [|discriminate].
  pose proof Hs1 as Hs1'. apply int_of_Some in Hs1' as [-> _].
  destruct (S (mtx w) - 1 <? 0) eqn:Hneg; [|discriminate].
  rewrite resume_cases in Hcall. cbn [pending mtx held] in Hcall.
  destruct (decide (self ∈ pending w)) as [Hin|Hout].
  { cbn [heap] in Hcall. change (0 =? 0) with true in Hcall. cbv iota in Hcall.
    rewrite lookup_insert_eq in Hcall. discriminate. }
  injection Hcall as <-.
  tick. tick. tick. rewrite cas_free by exact Hheld. settle.
  tick. tick. rewrite Hs1. settle. tick. rewrite Hneg. tick. tick.
  rewrite lookup_insert_eq. settle. tick. rewrite lookup_insert_eq. settle.
  tick. rewrite insert_insert_eq. reflexivity.
Qed.

Lemma resume_alone fuel self reply a nx rg w w' :
  acquire_mutex_resume (Datatypes.S fuel) self a w = Done tt w' ->
  solo thread_step 5 (self, reply) (Local A169 (Some a) nx rg) w =
    Done (Local Inside (Some a) nx rg) w'.
Proof.
  intros Hcall. rewrite resume_cases in Hcall.
  destruct (decide (self ∈ pending w)) as [Hin|Hout]; [|discriminate].
  destruct (held (mtx w) =? 0) eqn:Hheld; [|discriminate].
  apply Z.eqb_eq in Hheld.
  destruct (heap w !! a) as [r|] eqn:Ha; [|discriminate].
  injection Hcall as <-.
  tick. destruct (decide (self ∈ pending w)) as [_|Hout]; [|contradiction].
  settle. tick. rewrite cas_free by exact Hheld. settle.
  tick. tick. rewrite Ha. settle. tick. reflexivity.
Qed.

Lemma release_alone fuel self reply nw nx rg w w' :
  held (mtx w) = 0 ->
  release_mutex (Datatypes.S fuel) w = Done tt w' ->
  exists n nx',
    solo thread_step n (self, reply) (Local Inside nw nx rg) w =
      Done (Local Outside nw nx' (S (mtx w))) w'.
Proof.
  intros Hheld Hcall.
  rewrite release_cases in Hcall by exact Hheld.
  destruct (int_of (S (mtx w) + 1)) as [s1|] eqn:Hs1; [|discriminate].
  pose proof Hs1 as Hs1'. apply int_of_Some in Hs1' as [-> _].
  destruct (S (mtx w) + 1 <=? 0) eqn:Hneg.
  - destruct (Q (mtx w)) as [|a rest] eqn:HQ; [discriminate|].
    destruct (heap w !! a) as [[[t|]]|] eqn:Ha; try discriminate.
    destruct (decide (t ∈ sigmask w)) as [Hmask|]; [|discriminate].
    injection Hcall as <-.
    exists 10%nat, a.
    tick. tick. rewrite cas_free by exact Hheld. settle.
    tick. tick. rewrite Hs1. settle. tick. rewrite Hneg. tick.
    rewrite HQ. settle. tick. rewrite HQ, unlink_head. tick. tick.
    rewrite Ha. settle.
    destruct (decide (t ∈ sigmask w)) as [_|Hout]; [|contradiction].
    settle. tick. reflexivity.
  - injection Hcall as <-.
    exists 6%nat, nx.
    tick. tick. rewrite cas_free by exact Hheld. settle.
    tick. tick. rewrite Hs1. settle. tick. rewrite Hneg. tick.
    reflexivity.
Qed.

Lemma acquire_alone_queue fuel self reply nw nx rg w w' k :
  held (mtx w) = 0 ->
  0 <= S (mtx w) - 1 ->
  acquire_mutex (Datatypes.S fuel) self reply w = Done tt w' ->
  (k <= 8)%nat ->
  exists l s,
    solo thread_step k (self, reply) (Local Outside nw nx rg) w = Done l s /\
    Q (mtx s) = Q (mtx w).
Proof.
  intros Hheld Hfast Hcall Hk.
  rewrite acquire_cases in Hcall by exact Hheld.
  destruct (int_of (S (mtx w) - 1)) as [s1|] eqn:Hs1; [|discriminate].
  pose proof Hs1 as Hs1'. apply int_of_Some in Hs1' as [-> _].
  assert (Hneg : (S (mtx w) - 1 <? 0) = false) by lia.
  clear Hcall.
  assert (Hlive : forall a h, (<[a := Thread None]> h : gmap nat thread) !! a
                              = Some (Thread None))
    by (intros; apply lookup_insert_eq).
  destruct reply as [a|];
    do 9 (destruct k as [|k];
          [eexists _, _; split;
           [repeat (tick; rewrite ?cas_free by exact Hheld;
                    rewrite ?Hs1, ?Hneg, ?Hlive; settle);
            reflexivity
           |reflexivity]
          |]);
    lia.
Qed.

(** The two embeddings agree: a thread that is given the processor for a
    whole call of [acquire_mutex] or [release_mutex], up to the return or to
    the point where it is suspended, or from its wake-up to the return,
    changes the memory as the sequential function says. *)
Theorem mutex_calls_alone fuel turn c w' nw nx rg :
  held (mtx (shared c)) = 0 ->
  (locals c (fst turn) = Local Outside nw nx rg ->
   0 <= S (mtx (shared c)) - 1 ->
   acquire_mutex (Datatypes.S fuel) (fst turn) (snd turn) (shared c) = Done tt w' ->
   exists c',
     run fst thread_step (turns 8 turn) c = Some c' /\
     shared c' = w' /\ pc (locals c' (fst turn)) = Inside) /\
  (forall a,
      locals c (fst turn) = Local Outside nw nx rg ->
      snd turn = Some a ->
      acquire_mutex (Datatypes.S fuel) (fst turn) (Some a) (shared c) = Parked w' ->
      exists c',
        run fst thread_step (turns 10 turn) c = Some c' /\
        shared c' = w' /\ pc (locals c' (fst turn)) = A169) /\
  (forall a,
      locals c (fst turn) = Local A169 (Some a) nx rg ->
      acquire_mutex_resume (Datatypes.S fuel) (fst turn) a (shared c) = Done tt w' ->
      exists c',
        run fst thread_step (turns 5 turn) c = Some c' /\
        shared c' = w' /\ pc (locals c' (fst turn)) = Inside) /\
  (locals c (fst turn) = Local Inside nw nx rg ->
   release_mutex (Datatypes.S fuel) (shared c) = Done tt w' ->
   exists n c',
     run fst thread_step (turns n turn) c = Some c' /\
     shared c' = w' /\ pc (locals c' (fst turn)) = Outside).
Proof.
  intros Hheld. destruct turn as [self reply]. cbn [fst snd] in *.
  split; [|split; [|split]].
  - intros Hl Hfast Hcall.
    destruct (run_turns fst thread_step 8 (self, reply) c
                (Local Inside reply nx (S (mtx (shared c)))) w')
      as (c' & Hrun & Hs & Hl' & _).
    { cbn [fst]. rewrite Hl. apply acquire_alone_returns with (fuel := fuel); assumption. }
    exists c'. cbn [fst] in Hl'. rewrite Hl'. auto.
  - intros a Hl -> Hcall.
    destruct (run_turns fst thread_step 10 (self, Some a) c
                (Local A169 (Some a) nx (S (mtx (shared c)))) w')
      as (c' & Hrun & Hs & Hl' & _).
    { cbn [fst]. rewrite Hl. apply acquire_alone_waits with (fuel := fuel); assumption. }
    exists c'. cbn [fst] in Hl'. rewrite Hl'. auto.
  - intros a Hl Hcall.
    destruct (run_turns fst thread_step 5 (self, reply) c
                (Local Inside (Some a) nx rg) w')
      as (c' & Hrun & Hs & Hl' & _).
    { cbn [fst]. rewrite Hl. apply resume_alone with (fuel := fuel); assumption. }
    exists c'. cbn [fst] in Hl'. rewrite Hl'. auto.
  - intros Hl Hcall.
    destruct (release_alone fuel self reply nw nx rg (shared c) w' Hheld Hcall)
      as (n & nx' & Hsolo).
    destruct (run_turns fst thread_step n (self, reply) c
                (Local Outside nw nx' (S (mtx (shared c)))) w')
      as (c' & Hrun & Hs & Hl' & _).
    { cbn [fst]. rewrite Hl. exact Hsolo. }
    exists n, c'. cbn [fst] in Hl'. rewrite Hl'. auto.
Qed.

(** *** The uncontended path of [acquire_mutex] *)

(** C10.  A call of [acquire_mutex] on a mutex with [S >= 1] that no other
    thread is operating on returns.  [S] is decremented by one; the wait
    queue, the heap and the signal state are exactly as before the call, so
    the record the call allocated is not live any more when the call
    returns.  The thread takes eight steps from the call to the return, and
    after each of them the queue is the queue of before the call: the record
    is never linked into it. *)
Theorem acquire_uncontended fuel self reply w :
  held (mtx w) = 0 ->
  is_int (S (mtx w)) ->
  1 <= S (mtx w) ->
  (forall a, reply = Some a -> heap w !! a = None) ->
  exists w',
    acquire_mutex (Datatypes.S fuel) self reply w = Done tt w' /\
    S (mtx w') = S (mtx w) - 1 /\
    Q (mtx w') = Q (mtx w) /\
    held (mtx w') = 0 /\
    heap w' = heap w /\
    sigmask w' = sigmask w /\
    pending w' = pending w /\
    (forall a, reply = Some a -> heap w' !! a = None) /\
    (forall nw nx rg,
        solo thread_step 8 (self, reply) (Local Outside nw nx rg) w =
          Done (Local Inside reply nx (S (mtx w))) w') /\
    (forall nw nx rg k,
        (k <= 8)%nat ->
        exists l s,
          solo thread_step k (self, reply) (Local Outside nw nx rg) w = Done l s /\
          Q (mtx s) = Q (mtx w)).
Proof.
  intros Hheld Hint Hfree Hfresh.
  assert (Hcall : acquire_mutex (Datatypes.S fuel) self reply w =
                  Done tt (World (Build (Q (mtx w)) (S (mtx w) - 1) 0)
                                 (heap w) (sigmask w) (pending w))).
  { rewrite acquire_cases by exact Hheld.
    rewrite int_of_is_int by (unfold is_int, INT_MIN, INT_MAX in *; lia).
    replace (S (mtx w) - 1 <? 0) with false by lia.
    destruct reply as [a|]; [|reflexivity].
    rewrite delete_id by auto. reflexivity. }
  eexists. split; [exact Hcall|].
  repeat split; cbn [mtx heap sigmask pending Q S held]; try assumption; try reflexivity.
  - intros nw nx rg.
    apply acquire_alone_returns with (fuel := fuel); [assumption|lia|assumption].
  - intros nw nx rg k Hk.
    eapply acquire_alone_queue; [assumption|lia|exact Hcall|assumption].
Qed.

Lemma acquire_uncontended_witness :
  exists w',
    acquire_mutex 1 1 (Some 7%nat) (World (Build [] 1 0) ∅ ∅ ∅) = Done tt w' /\
    S (mtx w') = 1 - 1 /\
    Q (mtx w') = [] /\
    held (mtx w') = 0 /\
    heap w' = ∅ /\
    sigmask w' = ∅ /\
    pending w' = ∅.
Proof.
  destruct (acquire_uncontended 0 1 (Some 7%nat) (World (Build [] 1 0) ∅ ∅ ∅))
    as (w' & Hcall & HS & HQ & Hheld & Hheap & Hmask & Hpend & _).
  - reflexivity.
  - simpl. unfold is_int, INT_MIN, INT_MAX. lia.
  - simpl. lia.
  - intros a _. apply lookup_empty.
  - exists w'. auto 10.
Defined.

(** *** Two threads inside the critical section *)

(** The threads start from the state [init_mutex] leaves. *)
Lemma boot_after_init_mutex m :
  init_mutex (Mutex.boot m) = Done tt (shared MutexThreads.boot).
Proof. reflexivity. Qed.

(** Where the threads are at the end of the schedule [two_holders]. *)
Lemma two_holders_ends :
  (c ← run fst thread_step two_holders boot;
   Some (pc (locals c 1%nat), pc (locals c 2%nat), pc (locals c 3%nat),
         mtx (shared c)))
  = Some (Inside, Outside, Inside, Build [] 0 0).
Proof. vm_compute. reflexivity. Qed.

(** C8 (evaluation at the failing schedule).  The schedule [two_holders] of
    three threads, each of which calls [acquire_mutex] before and
    [release_mutex] after its critical section, can be run from the state
    [init_mutex] leaves, and leads to a configuration in which thread 1 and
    thread 3 are both inside the critical section of the same mutex. *)
Theorem two_threads_inside_mutex :
  exists c,
    run fst thread_step two_holders boot = Some c /\
    inside c 1%nat /\ inside c 3%nat.
Proof.
  pose proof two_holders_ends as Hend.
  destruct (run fst thread_step two_holders boot) as [c|]; [|discriminate Hend].
  exists c. split; [reflexivity|].
  cbn [mbind option_bind] in Hend. injection Hend as H1 _ H3 _.
  split; assumption.
Qed.

(** Mutual exclusion does not hold for the mutex. *)
Lemma mutex_mutual_exclusion_fails :
  ~ (forall schedule c t1 t2,
        run fst thread_step schedule boot = Some c ->
        inside c t1 -> inside c t2 -> t1 = t2).
Proof.
  intros Hexcl. pose proof two_holders_ends as Hend.
  destruct (run fst thread_step two_holders boot) as [c|] eqn:Hrun;
    [|discriminate Hend].
  cbn [mbind option_bind] in Hend. injection Hend as H1 _ H3 _.
  specialize (Hexcl _ _ 1%nat 3%nat Hrun H1 H3). discriminate Hexcl.
Qed.

(** *** Overlapping calls and the wait queue *)

(** The invariant of the wait queue is an invariant of calls that run one
    at a time.  Once [release_mutex] has cleared the internal flag for the
    second time while another thread holds it, two calls of [acquire_mutex]
    can update [S] and the queue at once: under the schedule
    [crowded_queue] thread 2 is inside the critical section, threads 3 and
    4 are both suspended in the queue, and [S] is -1. *)
Lemma overlapping_calls_crowd_queue :
  (c ← run fst thread_step crowded_queue boot;
   Some (pc (locals c 1%nat), pc (locals c 2%nat), pc (locals c 3%nat),
         pc (locals c 4%nat), mtx (shared c)))
  = Some (Outside, Inside, A169, A169, Build [12%nat; 13%nat] (-1) 0).
Proof. vm_compute. reflexivity. Qed.

Lemma crowded_queue_threads t :
  t ∈ fst <$> crowded_queue ->
  t = 1%nat \/ t = 2%nat \/ t = 3%nat \/ t = 4%nat.
Proof.
  unfold crowded_queue, turns. rewrite !fmap_app, !fmap_replicate. cbn [fst].
  intros H.
  repeat match type of H with
         | _ ∈ _ ++ _ => apply elem_of_app in H as [H|H]
         end;
    apply elem_of_replicate in H as [-> _]; auto.
Qed.

(** C3 (evaluation at the failing schedule).  Four threads use one mutex,
    each calling [acquire_mutex] before and [release_mutex] after its
    critical section; no other thread takes a step.  Under the schedule
    [crowded_queue] every turn can be taken, and at the end no thread is
    inside the code of the mutex: thread 1 is outside, thread 2 is inside
    its critical section, threads 3 and 4 are suspended in [sigwait]; the
    internal flag is clear, [S] is -1, and the wait queue has two
    entries, not [-S] of them. *)
Theorem queue_outgrows_counter :
  exists c,
    run fst thread_step crowded_queue boot = Some c /\
    (forall t, t <> 1%nat -> t <> 2%nat -> t <> 3%nat -> t <> 4%nat ->
               locals c t = locals boot t) /\
    pc (locals c 1%nat) = Outside /\
    pc (locals c 2%nat) = Inside /\
    pc (locals c 3%nat) = A169 /\
    pc (locals c 4%nat) = A169 /\
    mtx (shared c) = Build [12%nat; 13%nat] (-1) 0 /\
    S (mtx (shared c)) <= 0 /\
    Z.of_nat (length (Q (mtx (shared c)))) <> - S (mtx (shared c)).
Proof.
  pose proof overlapping_calls_crowd_queue as Hend.
  destruct (run fst thread_step crowded_queue boot) as [c|] eqn:Hrun;
    [|discriminate Hend].
  cbn [mbind option_bind] in Hend. injection Hend as H1 H2 H3 H4 Hm.
  exists c. split; [reflexivity|]. split.
  { intros t Hn1 Hn2 Hn3 Hn4. apply (run_others fst thread_step _ _ _ _ Hrun).
    intros Hin.
    apply crowded_queue_threads in Hin as [?|[?|[?|?]]]; contradiction. }
  do 5 (split; [assumption|]). rewrite Hm. simpl. lia.
Qed.

(** *** A release that finds no waiter *)

Lemma headless_release_ends :
  (c ← run fst thread_step headless_release boot;
   c' ← run fst thread_step (turns 5 (1%nat, None)) c;
   Some (pc (locals c 1%nat), pc (locals c 2%nat), pc (locals c 3%nat),
         mtx (shared c), pc (locals c' 1%nat), mtx (shared c')))
  = Some (Inside, Outside, Outside, Build [] (-1) 0, R209, Build [] 0 1).
Proof. vm_compute. reflexivity. Qed.

Lemma headless_release_threads t :
  t ∈ fst <$> headless_release -> t = 1%nat \/ t = 2%nat \/ t = 3%nat.
Proof.
  unfold headless_release, turns. rewrite !fmap_app, !fmap_replicate. cbn [fst].
  intros H.
  repeat match type of H with
         | _ ∈ _ ++ _ => apply elem_of_app in H as [H|H]
         end;
    apply elem_of_replicate in H as [-> _]; auto.
Qed.

(** C2 (evaluation at the failing schedule).  Three threads use one mutex,
    each calling [acquire_mutex] before and [release_mutex] after its
    critical section; no other thread takes a step.  Under the schedule
    [headless_release] every turn can be taken, and at the end thread 1 is
    inside its critical section, threads 2 and 3 are outside, the internal
    flag is clear, [S] is -1, and the wait queue is empty.  The call of
    [release_mutex] that thread 1 then makes increments [S] to 0, finds it
    [<= 0] at line 207, and finds no entry in the queue: there is no head
    waiter to remove and to signal, and line 209 computes a pointer from
    the list head itself. *)
Theorem release_finds_no_waiter :
  exists c,
    run fst thread_step headless_release boot = Some c /\
    (forall t, t <> 1%nat -> t <> 2%nat -> t <> 3%nat ->
               locals c t = locals boot t) /\
    pc (locals c 1%nat) = Inside /\
    pc (locals c 2%nat) = Outside /\
    pc (locals c 3%nat) = Outside /\
    mtx (shared c) = Build [] (-1) 0 /\
    (forall fuel, release_mutex (Datatypes.S fuel) (shared c) = Fault) /\
    exists c',
      run fst thread_step (turns 5 (1%nat, None)) c = Some c' /\
      pc (locals c' 1%nat) = R209 /\
      mtx (shared c') = Build [] 0 1 /\
      (forall reply,
          thread_step (1%nat, reply) (locals c' 1%nat) (shared c') = Fault).
Proof.
  pose proof headless_release_ends as Hend.
  destruct (run fst thread_step headless_release boot) as [c|] eqn:Hrun;
    [|discriminate Hend].
  cbn [mbind option_bind] in Hend.
  destruct (run fst thread_step (turns 5 (1%nat, None)) c) as [c'|] eqn:Hrun';
    [|discriminate Hend].
  cbn [mbind option_bind] in Hend. injection Hend as H1 H2 H3 Hm H1' Hm'.
  exists c. split; [reflexivity|]. split.
  { intros t Hn1 Hn2 Hn3. apply (run_others fst thread_step _ _ _ _ Hrun).
    intros Hin. apply headless_release_threads in Hin as [?|[?|?]]; contradiction. }
  do 4 (split; [assumption|]). split.
  - intros fuel. rewrite release_cases by (rewrite Hm; reflexivity).
    rewrite Hm. reflexivity.
  - exists c'. split; [exact Hrun'|]. do 2 (split; [assumption|]).
    intros reply. unfold thread_step. rewrite H1'.
    unfold bind, list_first_entry. rewrite Hm'. reflexivity.
Qed.

End MutexThreadsFacts.

(** ** Threads on the ring buffer *)

Module RingBufferThreadsFacts.
Import RingBuffer RingBufferFacts RingBufferThreads.

(** *** A thread that runs a whole call without interruption *)

Lemma enqueue_alone fuel t v rest x tm e d rb rb' :
  enqueue_into_ringbuffer (S fuel) v rb = Done tt rb' ->
  solo thread_step 8 t (Local Idle x tm (Enqueue v :: rest) e d) rb =
    Done (Local Idle v tm rest (e ++ [v]) d) rb'.
Proof.
  intros Hcall. apply enqueue_Done in Hcall as (Hfull & Hheld & Hbody).
  unfold enqueue_body in Hbody.
  destruct (store (slots rb) (in_ rb) v) as [p'|] eqn:Hst; [|discriminate].
  simpl in Hbody.
  destruct (int_of (in_ rb + 1)) as [i1|] eqn:Hi1; [|discriminate].
  simpl in Hbody.
  destruct (int_rem i1 (nr_slots rb)) as [r|] eqn:Hr; [|discriminate].
  simpl in Hbody.
  destruct (int_of (count rb + 1)) as [c1|] eqn:Hc1; [|discriminate].
  simpl in Hbody. injection Hbody as <-.
  cbn [solo]. unfold bind, thread_step, ret, is_full, reads, cas_held,
    compare_and_swap, write_slot, advance_in, increment_count, modify,
    defined, goto, bind; simpl.
  replace (count rb =? nr_slots rb) with false by lia. simpl.
  rewrite Hheld. simpl.
  replace (count rb =? nr_slots rb) with false by lia. simpl.
  rewrite Hst. simpl. rewrite Hi1. simpl. rewrite Hr. simpl. rewrite Hc1.
  reflexivity.
Qed.

Lemma dequeue_alone fuel t v tm rest e d rb x rb' :
  dequeue_from_ringbuffer (S fuel) rb = Done x rb' ->
  solo thread_step 9 t (Local Idle v tm (Dequeue :: rest) e d) rb =
    Done (Local Idle v (out rb) rest e (d ++ [x])) rb'.
Proof.
  intros Hcall. apply dequeue_Done in Hcall as (Hempty & Hheld & Hbody).
  unfold dequeue_body in Hbody.
  destruct (int_of (out rb + 1)) as [o1|] eqn:Ho1; [|discriminate].
  simpl in Hbody.
  destruct (int_rem o1 (nr_slots rb)) as [r|] eqn:Hr; [|discriminate].
  simpl in Hbody.
  destruct (int_of (count rb - 1)) as [c1|] eqn:Hc1; [|discriminate].
  simpl in Hbody.
  destruct (load (slots rb) (out rb)) as [y|] eqn:Hld; [|discriminate].
  simpl in Hbody. injection Hbody as <- <-.
  cbn [solo]. unfold bind, thread_step, ret, is_empty, reads, cas_held,
    compare_and_swap, advance_out, decrement_count, read_slot, modify,
    defined, goto, bind; simpl.
  replace (count rb =? 0) with false by lia. simpl.
  rewrite Hheld. simpl.
  replace (count rb =? 0) with false by lia. simpl.
  rewrite Ho1. simpl. rewrite Hr. simpl. rewrite Hc1. simpl. rewrite Hld.
  reflexivity.
Qed.

(** The two embeddings agree: a thread that is scheduled for a whole call,
    from the call to the return, changes the buffer as the sequential
    function says, and the call returns what the function returns. *)
Theorem ringbuffer_calls_alone fuel t c rb' :
  (forall v rest x tm e d,
      locals c t = Local Idle x tm (Enqueue v :: rest) e d ->
      enqueue_into_ringbuffer (S fuel) v (shared c) = Done tt rb' ->
      exists c',
        run id thread_step (turns 8 t) c = Some c' /\
        shared c' = rb' /\
        locals c' t = Local Idle v tm rest (e ++ [v]) d /\
        (forall t', t' <> t -> locals c' t' = locals c t')) /\
  (forall v tm rest e d x,
      locals c t = Local Idle v tm (Dequeue :: rest) e d ->
      dequeue_from_ringbuffer (S fuel) (shared c) = Done x rb' ->
      exists c',
        run id thread_step (turns 9 t) c = Some c' /\
        shared c' = rb' /\
        locals c' t = Local Idle v (out (shared c)) rest e (d ++ [x]) /\
        (forall t', t' <> t -> locals c' t' = locals c t')).
Proof.
  split.
  - intros v rest x tm e d Hl Hcall.
    apply (run_turns id thread_step 8 t c). unfold id. rewrite Hl.
    eapply enqueue_alone. eassumption.
  - intros v tm rest e d x Hl Hcall.
    apply (run_turns id thread_step 9 t c). unfold id. rewrite Hl.
    eapply dequeue_alone. eassumption.
Qed.

(** *** Every interleaving keeps count and indices in range *)

(** The threads start from the state [init_ringbuffer(N)] leaves. *)
Lemma boot_after_init_ringbuffer reply N programs rb0 :
  init_ringbuffer reply N rb0 = Done 0 (shared (boot reply N programs)).
Proof. reflexivity. Qed.

Lemma safe_boot N reply programs :
  0 <= N <= INT_MAX -> safe N (boot reply N programs).
Proof.
  intros HN. unfold boot.
  split; cbn [shared locals program pc tmp nr_slots slots held count in_ out
              critical found_room found_value holds_index];
    try lia; try (intros; reflexivity || discriminate); auto.
  intros cells Hm. exact (malloc_length _ _ _ HN Hm).
Qed.

Lemma found_room_critical l : found_room l = true -> critical l = true.
Proof. destruct l; simpl; congruence. Qed.

Lemma found_value_critical l : found_value l = true -> critical l = true.
Proof. destruct l; simpl; congruence. Qed.

(** A step that changes neither the buffer nor who holds the flag. *)
Lemma safe_local N rb ls t l' :
  safe N (Config rb ls) ->
  (critical (pc l') = true -> critical (pc (ls t)) = true) ->
  (found_room (pc l') = true -> count rb < N) ->
  (found_value (pc l') = true -> 0 < count rb) ->
  (holds_index (pc l') = true -> 0 <= tmp l' < N) ->
  safe N (Config rb (<[t := l']> ls)).
Proof.
  intros [Hcap Hslots Hflag Hfree Hone Hcount Hin Hout Hroom Hvalue Htmp]
         Hcrit Hroom' Hvalue' Htmp'.
  cbn [shared locals] in *.
  split; cbn [shared locals]; try assumption.
  - intros H0 t'. destruct (decide (t = t')) as [<-|Hne].
    + rewrite fn_lookup_insert. specialize (Hfree H0 t).
      destruct (critical (pc l')); [|reflexivity]. rewrite Hcrit in Hfree; auto.
    + rewrite fn_lookup_insert_ne by exact Hne. auto.
  - intros t1 t2 H1 H2. apply Hone.
    + destruct (decide (t = t1)) as [<-|Hne].
      * rewrite fn_lookup_insert in H1. auto.
      * rewrite fn_lookup_insert_ne in H1 by exact Hne. exact H1.
    + destruct (decide (t = t2)) as [<-|Hne].
      * rewrite fn_lookup_insert in H2. auto.
      * rewrite fn_lookup_insert_ne in H2 by exact Hne. exact H2.
  - intros t' H. destruct (decide (t = t')) as [<-|Hne].
    + rewrite fn_lookup_insert in H. auto.
    + rewrite fn_lookup_insert_ne in H by exact Hne. eauto.
  - intros t' H. destruct (decide (t = t')) as [<-|Hne].
    + rewrite fn_lookup_insert in H. auto.
    + rewrite fn_lookup_insert_ne in H by exact Hne. eauto.
  - intros t' H. destruct (decide (t = t')) as [<-|Hne].
    + rewrite fn_lookup_insert in H |- *. auto.
    + rewrite fn_lookup_insert_ne in H |- * by exact Hne. eauto.
Qed.

(** A step of the thread that holds the flag: it may change the buffer and
    clear the flag. *)
Lemma safe_holder N rb ls t rb' l' :
  safe N (Config rb ls) ->
  critical (pc (ls t)) = true ->
  nr_slots rb' = N ->
  (forall cells, slots rb' = Some cells -> Z.of_nat (length cells) = N) ->
  (held rb' = 1 /\ critical (pc l') = true \/
   held rb' = 0 /\ critical (pc l') = false) ->
  0 <= count rb' <= N ->
  0 <= in_ rb' < Z.max N 1 ->
  0 <= out rb' < Z.max N 1 ->
  (found_room (pc l') = true -> count rb' < N) ->
  (found_value (pc l') = true -> 0 < count rb') ->
  (holds_index (pc l') = true -> 0 <= tmp l' < N) ->
  safe N (Config rb' (<[t := l']> ls)).
Proof.
  intros [Hcap Hslots Hflag Hfree Hone Hcount Hin Hout Hroom Hvalue Htmp]
         Hcrit Hcap' Hslots' Hflag' Hcount' Hin' Hout' Hroom' Hvalue' Htmp'.
  cbn [shared locals] in *.
  assert (Hothers : forall t', t <> t' -> critical (pc (ls t')) = false).
  { intros t' Hne. destruct (critical (pc (ls t'))) eqn:E; [|reflexivity].
    exfalso. apply Hne. apply Hone; assumption. }
  split; cbn [shared locals]; try assumption.
  - destruct Hflag' as [[-> _]|[-> _]]; auto.
  - intros H0 t'. destruct (decide (t = t')) as [<-|Hne].
    + rewrite fn_lookup_insert. destruct Hflag' as [[H1 _]|[_ H]]; [lia|exact H].
    + rewrite fn_lookup_insert_ne by exact Hne. auto.
  - intros t1 t2 H1 H2.
    destruct (decide (t = t1)) as [<-|Hne1], (decide (t = t2)) as [<-|Hne2].
    + reflexivity.
    + rewrite fn_lookup_insert_ne in H2 by exact Hne2.
      rewrite Hothers in H2 by exact Hne2. discriminate.
    + rewrite fn_lookup_insert_ne in H1 by exact Hne1.
      rewrite Hothers in H1 by exact Hne1. discriminate.
    + rewrite fn_lookup_insert_ne in H1 by exact Hne1.
      rewrite Hothers in H1 by exact Hne1. discriminate.
  - intros t' H. destruct (decide (t = t')) as [<-|Hne].
    + rewrite fn_lookup_insert in H. auto.
    + rewrite fn_lookup_insert_ne in H by exact Hne.
      apply found_room_critical in H. rewrite Hothers in H by exact Hne. discriminate.
  - intros t' H. destruct (decide (t = t')) as [<-|Hne].
    + rewrite fn_lookup_insert in H. auto.
    + rewrite fn_lookup_insert_ne in H by exact Hne.
      apply found_value_critical in H. rewrite Hothers in H by exact Hne. discriminate.
  - intros t' H. destruct (decide (t = t')) as [<-|Hne].
    + rewrite fn_lookup_insert in H |- *. auto.
    + rewrite fn_lookup_insert_ne in H |- * by exact Hne. eauto.
Qed.

(** The step that takes the flag. *)
Lemma safe_take N rb ls t l' :
  safe N (Config rb ls) ->
  held rb = 0 ->
  critical (pc l') = true ->
  found_room (pc l') = false ->
  found_value (pc l') = false ->
  holds_index (pc l') = false ->
  safe N (Config (set_held 1 rb) (<[t := l']> ls)).
Proof.
  intros [Hcap Hslots Hflag Hfree Hone Hcount Hin Hout Hroom Hvalue Htmp]
         Hheld Hcrit Hroom' Hvalue' Htmp'.
  cbn [shared locals] in *. specialize (Hfree Hheld).
  split; cbn [shared locals set_held nr_slots slots held count in_ out];
    try assumption.
  - auto.
  - discriminate.
  - intros t1 t2 H1 H2.
    destruct (decide (t = t1)) as [<-|Hne1], (decide (t = t2)) as [<-|Hne2].
    + reflexivity.
    + rewrite fn_lookup_insert_ne in H2 by exact Hne2. rewrite Hfree in H2. discriminate.
    + rewrite fn_lookup_insert_ne in H1 by exact Hne1. rewrite Hfree in H1. discriminate.
    + rewrite fn_lookup_insert_ne in H1 by exact Hne1. rewrite Hfree in H1. discriminate.
  - intros t' H. destruct (decide (t = t')) as [<-|Hne].
    + rewrite fn_lookup_insert in H. congruence.
    + rewrite fn_lookup_insert_ne in H by exact Hne. eauto.
  - intros t' H. destruct (decide (t = t')) as [<-|Hne].
    + rewrite fn_lookup_insert in H. congruence.
    + rewrite fn_lookup_insert_ne in H by exact Hne. eauto.
  - intros t' H. destruct (decide (t = t')) as [<-|Hne].
    + rewrite fn_lookup_insert in H. congruence.
    + rewrite fn_lookup_insert_ne in H |- * by exact Hne. eauto.
Qed.

Lemma safe_step N t c c' :
  0 <= N <= INT_MAX ->
  safe N c ->
  step id thread_step t c = Some c' ->
  safe N c'.
Proof.
  intros HN Hs Hstep. destruct c as [rb ls].
  unfold step, id in Hstep. cbn [shared locals] in Hstep.
  pose proof Hs as [Hcap Hslots Hflag Hfree Hone Hcount Hin Hout
                      Hroom Hvalue Htmp].
  cbn [shared locals] in *.
  specialize (Hroom t). specialize (Hvalue t). specialize (Htmp t).
  destruct (ls t) as [l v tm td e d] eqn:Hl. cbn [pc tmp] in *.
  unfold INT_MAX in HN.
  destruct l; unfold thread_step in Hstep; cbn [pc] in Hstep.
  - (* Idle: the next call *)
    destruct td as [|[x|] rest]; [discriminate| |];
      injection Hstep as <-; apply safe_local; try exact Hs;
      cbn [pc tmp]; intros; discriminate.
  - (* E245 *)
    unfold bind, is_full, reads, ret in Hstep.
    destruct (count rb =? nr_slots rb); cbn in Hstep; injection Hstep as <-;
      apply safe_local; try exact Hs; rewrite ?Hl; cbn; intros; discriminate.
  - (* E247 *)
    unfold bind, cas_held, compare_and_swap, ret in Hstep.
    destruct (held rb =? 0) eqn:Hheld; cbn in Hstep.
    + apply Z.eqb_eq in Hheld. rewrite Hheld in Hstep. cbn in Hstep.
      injection Hstep as <-. apply safe_take; try exact Hs; auto.
    + destruct (held rb =? 0) eqn:Hheld'; [discriminate|]. cbn in Hstep.
      injection Hstep as <-.
      replace (set_held (held rb) rb) with rb by (destruct rb; reflexivity).
      apply safe_local; try exact Hs; rewrite ?Hl; cbn; intros; discriminate.
  - (* E249 *)
    unfold bind, is_full, reads, ret in Hstep.
    destruct (count rb =? nr_slots rb) eqn:Hfull; cbn in Hstep; injection Hstep as <-;
      apply safe_local; try exact Hs; rewrite ?Hl; cbn; intros;
      try discriminate; try reflexivity; lia.
  - (* E251 *)
    injection Hstep as <-.
    apply safe_holder with (rb := rb); try exact Hs; rewrite ?Hl; cbn;
      try assumption; try (intros; discriminate); eauto.
  - (* E254 *)
    unfold bind, write_slot, bind, reads, defined, modify, ret in Hstep.
    cbn in Hstep.
    destruct (store (slots rb) (in_ rb) v) as [p'|] eqn:Hst; cbn in Hstep; [|discriminate]. injection Hstep as <-.
    apply store_Some in Hst as (cells & Hcells & Hidx & ->).
    apply safe_holder with (rb := rb); try exact Hs; rewrite ?Hl; cbn;
      try assumption; try (intros; discriminate); auto.
    + intros cells' [= <-]. rewrite length_insert. auto.
    + destruct Hflag as [H0|H1]; [|auto].
      specialize (Hfree H0 t). rewrite Hl in Hfree. discriminate.
  - (* E255 *)
    unfold bind, advance_in, bind, reads, defined, modify, ret in Hstep.
    cbn in Hstep.
    destruct (int_of (in_ rb + 1)) as [i1|] eqn:Hi1; cbn in Hstep; [|discriminate].
    destruct (int_rem i1 (nr_slots rb)) as [r|] eqn:Hr; cbn in Hstep; [|discriminate]. injection Hstep as <-.
    apply int_of_Some in Hi1 as [-> _]. specialize (Hroom eq_refl).
    rewrite Hcap, int_rem_pos in Hr by lia. injection Hr as <-.
    apply safe_holder with (rb := rb); try exact Hs; rewrite ?Hl; cbn;
      try assumption; try (intros; discriminate); eauto.
    + destruct Hflag as [H0|H1]; [|auto].
      specialize (Hfree H0 t). rewrite Hl in Hfree. discriminate.
    + pose proof (Z.mod_pos_bound (in_ rb + 1) N). lia.
  - (* E256 *)
    unfold bind, increment_count, bind, reads, defined, modify, ret in Hstep.
    cbn in Hstep.
    destruct (int_of (count rb + 1)) as [c1|] eqn:Hc1; cbn in Hstep; [|discriminate]. injection Hstep as <-.
    apply int_of_Some in Hc1 as [-> _].
    specialize (Hroom eq_refl).
    apply safe_holder with (rb := rb); try exact Hs; rewrite ?Hl; cbn;
      try assumption; try (intros; discriminate); eauto.
    + destruct Hflag as [H0|H1]; [|auto].
      specialize (Hfree H0 t). rewrite Hl in Hfree. discriminate.
    + lia.
  - (* E257 *)
    injection Hstep as <-.
    apply safe_holder with (rb := rb); try exact Hs; rewrite ?Hl; cbn;
      try assumption; try (intros; discriminate); eauto.
  - (* D273 *)
    unfold bind, is_empty, reads, ret in Hstep.
    destruct (count rb =? 0); cbn in Hstep; injection Hstep as <-;
      apply safe_local; try exact Hs; rewrite ?Hl; cbn; intros; discriminate.
  - (* D275 *)
    unfold bind, cas_held, compare_and_swap, ret in Hstep.
    destruct (held rb =? 0) eqn:Hheld; cbn in Hstep.
    + apply Z.eqb_eq in Hheld. rewrite Hheld in Hstep. cbn in Hstep.
      injection Hstep as <-. apply safe_take; try exact Hs; auto.
    + destruct (held rb =? 0) eqn:Hheld'; [discriminate|]. cbn in Hstep.
      injection Hstep as <-.
      replace (set_held (held rb) rb) with rb by (destruct rb; reflexivity).
      apply safe_local; try exact Hs; rewrite ?Hl; cbn; intros; discriminate.
  - (* D277 *)
    unfold bind, is_empty, reads, ret in Hstep.
    destruct (count rb =? 0) eqn:Hempty; cbn in Hstep; injection Hstep as <-;
      apply safe_local; try exact Hs; rewrite ?Hl; cbn; intros;
      try discriminate; try reflexivity; lia.
  - (* D279 *)
    injection Hstep as <-.
    apply safe_holder with (rb := rb); try exact Hs; rewrite ?Hl; cbn;
      try assumption; try (intros; discriminate); eauto.
  - (* D282 *)
    injection Hstep as <-. specialize (Hvalue eq_refl).
    apply safe_local; try exact Hs; rewrite ?Hl; cbn; intros;
      try discriminate; try reflexivity; auto; lia.
  - (* D283 *)
    unfold bind, advance_out, bind, reads, defined, modify, ret in Hstep.
    cbn in Hstep.
    destruct (int_of (out rb + 1)) as [o1|] eqn:Ho1; cbn in Hstep; [|discriminate].
    destruct (int_rem o1 (nr_slots rb)) as [r|] eqn:Hr; cbn in Hstep; [|discriminate]. injection Hstep as <-.
    apply int_of_Some in Ho1 as [-> _]. specialize (Hvalue eq_refl).
    rewrite Hcap, int_rem_pos in Hr by lia. injection Hr as <-.
    apply safe_holder with (rb := rb); try exact Hs; rewrite ?Hl; cbn;
      try assumption; try (intros; discriminate); eauto.
    + destruct Hflag as [H0|H1]; [|auto].
      specialize (Hfree H0 t). rewrite Hl in Hfree. discriminate.
    + pose proof (Z.mod_pos_bound (out rb + 1) N). lia.
  - (* D284 *)
    unfold bind, decrement_count, bind, reads, defined, modify, ret in Hstep.
    cbn in Hstep.
    destruct (int_of (count rb - 1)) as [c1|] eqn:Hc1; cbn in Hstep; [|discriminate]. injection Hstep as <-.
    apply int_of_Some in Hc1 as [-> _].
    specialize (Hvalue eq_refl).
    apply safe_holder with (rb := rb); try exact Hs; rewrite ?Hl; cbn;
      try assumption; try (intros; discriminate); eauto.
    + destruct Hflag as [H0|H1]; [|auto].
      specialize (Hfree H0 t). rewrite Hl in Hfree. discriminate.
    + lia.
  - (* D285 *)
    injection Hstep as <-.
    apply safe_holder with (rb := rb); try exact Hs; rewrite ?Hl; cbn;
      try assumption; try (intros; discriminate); eauto.
  - (* D286 *)
    unfold bind, read_slot, bind, reads, defined, ret in Hstep.
    cbn in Hstep.
    destruct (load (slots rb) tm) as [x|]; cbn in Hstep; [|discriminate]. injection Hstep as <-.
    apply safe_local; try exact Hs; rewrite ?Hl; cbn; intros; discriminate.
Qed.

Lemma safe_run N schedule c c' :
  0 <= N <= INT_MAX ->
  safe N c ->
  run id thread_step schedule c = Some c' ->
  safe N c'.
Proof.
  intros HN. revert c. induction schedule as [|t schedule IH]; intros c Hs Hrun;
    simpl in Hrun.
  - injection Hrun as <-. assumption.
  - destruct (step id thread_step t c) as [c1|] eqn:Hstep; [|discriminate].
    eapply IH; [|exact Hrun]. eapply safe_step; eassumption.
Qed.

(** In a safe configuration with storage no thread's next step is
    undefined: the slot a thread writes or reads is inside the storage, and
    no arithmetic overflows. *)
Lemma safe_no_fault N c t cells :
  0 <= N <= INT_MAX ->
  safe N c ->
  slots (shared c) = Some cells ->
  thread_step t (locals c t) (shared c) <> Fault.
Proof.
  intros HN [Hcap Hslots Hflag Hfree Hone Hcount Hin Hout Hroom Hvalue Htmp]
         Hcells.
  specialize (Hroom t). specialize (Hvalue t). specialize (Htmp t).
  pose proof (Hslots _ Hcells) as Hlen.
  destruct c as [rb ls]. cbn [shared locals] in *.
  destruct (ls t) as [l v tm td e d]. cbn [pc tmp] in *.
  unfold INT_MAX in HN.
  destruct l; unfold thread_step; cbn [pc value tmp].
  - destruct td as [|[x|] rest]; discriminate.
  - unfold bind, is_full, reads, ret. discriminate.
  - unfold bind, cas_held, compare_and_swap, ret.
    destruct (held rb =? 0); discriminate.
  - unfold bind, is_full, reads, ret. discriminate.
  - discriminate.
  - unfold bind, write_slot, bind, reads, defined, modify, ret. cbn.
    specialize (Hroom eq_refl).
    assert (Hst : store (slots rb) (in_ rb) v
                  = Some (<[Z.to_nat (in_ rb) := v]> cells)).
    { apply store_Some. exists cells. repeat split; try assumption; lia. }
    rewrite Hst. discriminate.
  - unfold bind, advance_in, bind, reads, defined, modify, ret. cbn.
    specialize (Hroom eq_refl).
    rewrite (int_of_is_int (in_ rb + 1))
      by (unfold is_int, INT_MIN, INT_MAX; lia).
    rewrite Hcap, int_rem_pos by lia. discriminate.
  - unfold bind, increment_count, bind, reads, defined, modify, ret. cbn.
    specialize (Hroom eq_refl).
    rewrite (int_of_is_int (count rb + 1))
      by (unfold is_int, INT_MIN, INT_MAX; lia).
    discriminate.
  - discriminate.
  - unfold bind, is_empty, reads, ret. discriminate.
  - unfold bind, cas_held, compare_and_swap, ret.
    destruct (held rb =? 0); discriminate.
  - unfold bind, is_empty, reads, ret. discriminate.
  - discriminate.
  - discriminate.
  - unfold bind, advance_out, bind, reads, defined, modify, ret. cbn.
    specialize (Hvalue eq_refl).
    rewrite (int_of_is_int (out rb + 1))
      by (unfold is_int, INT_MIN, INT_MAX; lia).
    rewrite Hcap, int_rem_pos by lia. discriminate.
  - unfold bind, decrement_count, bind, reads, defined, modify, ret. cbn.
    specialize (Hvalue eq_refl).
    rewrite (int_of_is_int (count rb - 1))
      by (unfold is_int, INT_MIN, INT_MAX; lia).
    discriminate.
  - discriminate.
  - unfold bind, read_slot, bind, reads, defined, ret. cbn.
    specialize (Htmp eq_refl).
    destruct (lookup_lt_is_Some_2 cells (Z.to_nat tm)) as [x Hx]; [lia|].
    assert (Hld : load (slots rb) tm = Some x).
    { apply load_Some. exists cells. repeat split; try assumption; lia. }
    rewrite Hld. discriminate.
Qed.

(** At the busy-wait of line 245, while the buffer is full, a step leaves
    the thread at line 245 and the buffer as it is; so does a step at line
    273 while the buffer is empty. *)
Lemma enqueue_waits t c :
  pc (locals c t) = E245 ->
  count (shared c) = nr_slots (shared c) ->
  step id thread_step t c
  = Some (Config (shared c) (<[t := locals c t]> (locals c))).
Proof.
  intros Hpc Hfull. unfold step, id, thread_step. rewrite Hpc.
  unfold bind, is_full, reads, ret.
  replace (count (shared c) =? nr_slots (shared c)) with true by lia.
  reflexivity.
Qed.

Lemma dequeue_waits t c :
  pc (locals c t) = D273 ->
  count (shared c) = 0 ->
  step id thread_step t c
  = Some (Config (shared c) (<[t := locals c t]> (locals c))).
Proof.
  intros Hpc Hempty. unfold step, id, thread_step. rewrite Hpc.
  unfold bind, is_empty, reads, ret. rewrite Hempty. reflexivity.
Qed.

(** While the buffer is full no step inside [enqueue_into_ringbuffer]
    changes the buffer, its flag apart; while it is empty no step inside
    [dequeue_from_ringbuffer] does. *)
Lemma full_kept N t c c' :
  safe N c ->
  in_enqueue (pc (locals c t)) = true ->
  count (shared c) = N ->
  step id thread_step t c = Some c' ->
  data (shared c') = data (shared c).
Proof.
  intros [_ _ _ _ _ _ _ _ Hroom _ _] Hin Hfull Hstep.
  specialize (Hroom t). destruct c as [rb ls]. cbn [shared locals] in *.
  unfold step, id in Hstep. cbn [shared locals] in Hstep.
  destruct (ls t) as [l v tm td e d]. cbn [pc] in *.
  destruct l; try discriminate Hin;
    try (specialize (Hroom eq_refl); lia);
    unfold thread_step, bind, is_full, cas_held, compare_and_swap, modify,
      reads, ret in Hstep;
    cbn in Hstep.
  - destruct (count rb =? nr_slots rb); injection Hstep as <-; reflexivity.
  - destruct (held rb =? 0); cbn in Hstep; injection Hstep as <-; reflexivity.
  - destruct (count rb =? nr_slots rb); injection Hstep as <-; reflexivity.
  - injection Hstep as <-. reflexivity.
  - injection Hstep as <-. reflexivity.
Qed.

Lemma empty_kept N t c c' :
  safe N c ->
  in_dequeue (pc (locals c t)) = true ->
  count (shared c) = 0 ->
  step id thread_step t c = Some c' ->
  data (shared c') = data (shared c).
Proof.
  intros [_ _ _ _ _ _ _ _ _ Hvalue _] Hin Hempty Hstep.
  specialize (Hvalue t). destruct c as [rb ls]. cbn [shared locals] in *.
  unfold step, id in Hstep. cbn [shared locals] in Hstep.
  destruct (ls t) as [l v tm td e d]. cbn [pc] in *.
  destruct l; try discriminate Hin;
    try (specialize (Hvalue eq_refl); lia);
    unfold thread_step, bind, is_empty, cas_held, compare_and_swap, modify,
      read_slot, defined, reads, ret, bind in Hstep;
    cbn in Hstep.
  - destruct (count rb =? 0); injection Hstep as <-; reflexivity.
  - destruct (held rb =? 0); cbn in Hstep; injection Hstep as <-; reflexivity.
  - destruct (count rb =? 0); injection Hstep as <-; reflexivity.
  - injection Hstep as <-. reflexivity.
  - injection Hstep as <-. reflexivity.
  - destruct (load (slots rb) tm); cbn in Hstep; [|discriminate].
    injection Hstep as <-. reflexivity.
Qed.

(** C4.  For every capacity, an [int] [N >= 0]:
    - in every state [rb] reachable from [init_ringbuffer(N)] by calls that
      run one at a time, [0 <= count <= N]; while [count == N] a call to
      [enqueue_into_ringbuffer] keeps busy-waiting and leaves the state as
      it was, and while [count == 0] so does a call to
      [dequeue_from_ringbuffer];
    - in every configuration [c] that any number of threads reach from
      [init_ringbuffer(N)] under any schedule, [0 <= count <= N]; while
      [count == N] a step of a thread inside [enqueue_into_ringbuffer]
      leaves the buffer, its internal flag apart, as it was, and a thread at
      the busy-wait of line 245 stays there; while [count == 0] the same
      holds for [dequeue_from_ringbuffer] and line 273. *)
Theorem count_within_capacity N rb reply programs schedule c :
  is_int N ->
  0 <= N ->
  reachable N rb ->
  run id thread_step schedule (boot reply N programs) = Some c ->
  (0 <= count rb <= N /\
   (count rb = N ->
    forall fuel value, enqueue_into_ringbuffer fuel value rb = Spinning rb) /\
   (count rb = 0 ->
    forall fuel, dequeue_from_ringbuffer fuel rb = Spinning rb)) /\
  (0 <= count (shared c) <= N /\
   (forall t c',
       step id thread_step t c = Some c' ->
       (count (shared c) = N -> in_enqueue (pc (locals c t)) = true ->
        data (shared c') = data (shared c)) /\
       (count (shared c) = 0 -> in_dequeue (pc (locals c t)) = true ->
        data (shared c') = data (shared c))) /\
   (forall t,
       count (shared c) = N -> pc (locals c t) = E245 ->
       step id thread_step t c
       = Some (Config (shared c) (<[t := locals c t]> (locals c)))) /\
   (forall t,
       count (shared c) = 0 -> pc (locals c t) = D273 ->
       step id thread_step t c
       = Some (Config (shared c) (<[t := locals c t]> (locals c))))).
Proof.
  intros Hint HN Hreach Hrun. split; [exact (reachable_count N rb HN Hreach)|].
  assert (HN' : 0 <= N <= INT_MAX) by (unfold is_int in Hint; lia).
  pose proof (safe_run N _ _ _ HN' (safe_boot N reply programs HN') Hrun) as Hs.
  split; [exact (safe_count N c Hs)|]. split; [|split].
  - intros t c' Hstep. split; intros Hcount Hpc.
    + exact (full_kept N t c c' Hs Hpc Hcount Hstep).
    + exact (empty_kept N t c c' Hs Hpc Hcount Hstep).
  - intros t Hcount Hpc. apply enqueue_waits; [assumption|].
    rewrite (safe_capacity N c Hs). assumption.
  - intros t Hcount Hpc. apply dequeue_waits; assumption.
Qed.

Lemma count_within_capacity_witness :
  exists c,
    run id thread_step (turns 8 0%nat)
        (boot (Block (fun _ => 0)) 1 (producer_consumer [10; 20])) = Some c /\
    count (shared c) = 1 /\
    (0 <= count (Build 1 (Some [0]) 0 0 0 0) <= 1 /\
     (count (Build 1 (Some [0]) 0 0 0 0) = 1 ->
      forall fuel value,
        enqueue_into_ringbuffer fuel value (Build 1 (Some [0]) 0 0 0 0)
        = Spinning (Build 1 (Some [0]) 0 0 0 0)) /\
     (count (Build 1 (Some [0]) 0 0 0 0) = 0 ->
      forall fuel,
        dequeue_from_ringbuffer fuel (Build 1 (Some [0]) 0 0 0 0)
        = Spinning (Build 1 (Some [0]) 0 0 0 0))) /\
    (0 <= count (shared c) <= 1 /\
     (forall t c',
         step id thread_step t c = Some c' ->
         (count (shared c) = 1 -> in_enqueue (pc (locals c t)) = true ->
          data (shared c') = data (shared c)) /\
         (count (shared c) = 0 -> in_dequeue (pc (locals c t)) = true ->
          data (shared c') = data (shared c))) /\
     (forall t,
         count (shared c) = 1 -> pc (locals c t) = E245 ->
         step id thread_step t c
         = Some (Config (shared c) (<[t := locals c t]> (locals c)))) /\
     (forall t,
         count (shared c) = 0 -> pc (locals c t) = D273 ->
         step id thread_step t c
         = Some (Config (shared c) (<[t := locals c t]> (locals c))))).
Proof.
  eexists. split; [vm_compute; reflexivity|]. split; [reflexivity|].
  apply (count_within_capacity 1 (Build 1 (Some [0]) 0 0 0 0)
           (Block (fun _ => 0)) (producer_consumer [10; 20]) (turns 8 0%nat)).
  - unfold is_int, INT_MIN, INT_MAX. lia.
  - lia.
  - apply (reach_init 1 (Block (fun _ => 0)) 0 zero); [|reflexivity].
    unfold is_int, INT_MIN, INT_MAX. lia.
  - vm_compute. reflexivity.
Defined.

(** C9.  For every [int] capacity [N > 0]:
    - in every state [rb] reachable from [init_ringbuffer(N)] by calls that
      run one at a time, the head index [in] and the tail index [out] are in
      [0, N); when the slot storage is allocated it has [N] cells, the store
      that [enqueue_into_ringbuffer] performs at [in] and the load that
      [dequeue_from_ringbuffer] performs at [out] are defined, and neither
      call runs into undefined behaviour;
    - in every configuration [c] that any number of threads reach from
      [init_ringbuffer(N)] under any schedule, [in] and [out] are in
      [0, N), and so is the index [tmp] of a thread that is about to read
      its slot at line 286; when the slot storage is allocated it has [N]
      cells and the next step of every thread is defined. *)
Theorem indices_within_slots N rb reply programs schedule c :
  is_int N ->
  0 < N ->
  reachable N rb ->
  run id thread_step schedule (boot reply N programs) = Some c ->
  ((0 <= in_ rb < N /\ 0 <= out rb < N) /\
   (forall cells,
       slots rb = Some cells ->
       Z.of_nat (length cells) = N /\
       (forall value, is_Some (store (slots rb) (in_ rb) value)) /\
       is_Some (load (slots rb) (out rb)) /\
       (forall fuel value, enqueue_into_ringbuffer fuel value rb <> Fault) /\
       (forall fuel, dequeue_from_ringbuffer fuel rb <> Fault))) /\
  ((0 <= in_ (shared c) < N /\ 0 <= out (shared c) < N) /\
   (forall t, pc (locals c t) = D286 -> 0 <= tmp (locals c t) < N) /\
   (forall cells,
       slots (shared c) = Some cells ->
       Z.of_nat (length cells) = N /\
       (forall t, thread_step t (locals c t) (shared c) <> Fault))).
Proof.
  intros Hint HN Hreach Hrun. split; [exact (reachable_indices N rb HN Hreach)|].
  assert (HN' : 0 <= N <= INT_MAX) by (unfold is_int in Hint; lia).
  pose proof (safe_run N _ _ _ HN' (safe_boot N reply programs HN') Hrun) as Hs.
  pose proof (safe_in N c Hs) as Hin. pose proof (safe_out N c Hs) as Hout.
  split; [lia|]. split.
  - intros t Hpc. apply (safe_tmp N c Hs). rewrite Hpc. reflexivity.
  - intros cells Hcells. split; [exact (safe_slots N c Hs cells Hcells)|].
    intros t. exact (safe_no_fault N c t cells HN' Hs Hcells).
Qed.

Lemma indices_within_slots_witness :
  exists c,
    run id thread_step (turns 8 0%nat ++ turns 8 1%nat)
        (boot (Block (fun _ => 0)) 2 (producer_consumer [10; 20])) = Some c /\
    pc (locals c 1%nat) = D286 /\
    ((0 <= in_ (Build 2 (Some [0; 0]) 0 0 0 0) < 2 /\
      0 <= out (Build 2 (Some [0; 0]) 0 0 0 0) < 2) /\
     (forall cells,
         slots (Build 2 (Some [0; 0]) 0 0 0 0) = Some cells ->
         Z.of_nat (length cells) = 2 /\
         (forall value,
             is_Some (store (slots (Build 2 (Some [0; 0]) 0 0 0 0))
                            (in_ (Build 2 (Some [0; 0]) 0 0 0 0)) value)) /\
         is_Some (load (slots (Build 2 (Some [0; 0]) 0 0 0 0))
                       (out (Build 2 (Some [0; 0]) 0 0 0 0))) /\
         (forall fuel value,
             enqueue_into_ringbuffer fuel value (Build 2 (Some [0; 0]) 0 0 0 0)
             <> Fault) /\
         (forall fuel,
             dequeue_from_ringbuffer fuel (Build 2 (Some [0; 0]) 0 0 0 0)
             <> Fault))) /\
    ((0 <= in_ (shared c) < 2 /\ 0 <= out (shared c) < 2) /\
     (forall t, pc (locals c t) = D286 -> 0 <= tmp (locals c t) < 2) /\
     (forall cells,
         slots (shared c) = Some cells ->
         Z.of_nat (length cells) = 2 /\
         (forall t, thread_step t (locals c t) (shared c) <> Fault))).
Proof.
  eexists. split; [vm_compute; reflexivity|]. split; [reflexivity|].
  apply (indices_within_slots 2 (Build 2 (Some [0; 0]) 0 0 0 0)
           (Block (fun _ => 0)) (producer_consumer [10; 20])
           (turns 8 0%nat ++ turns 8 1%nat)).
  - unfold is_int, INT_MIN, INT_MAX. lia.
  - lia.
  - apply (reach_init 2 (Block (fun _ => 0)) 0 zero); [|reflexivity].
    unfold is_int, INT_MIN, INT_MAX. lia.
  - vm_compute. reflexivity.
Defined.

(** *** A consumer that is interrupted before its read *)

(** C7 (evaluation at the failing schedule).  On a buffer of capacity 1, one
    producer enqueues 10 and then 20 and one consumer dequeues twice.  Under
    the schedule [late_read] all four calls return, and the consumer's calls
    return 20 and 20. *)
Theorem late_read_breaks_fifo :
  exists c,
    run id thread_step late_read
        (boot (Block (fun _ => 0)) 1 (producer_consumer [10; 20])) = Some c /\
    pc (locals c 0%nat) = Idle /\ todo (locals c 0%nat) = [] /\
    pc (locals c 1%nat) = Idle /\ todo (locals c 1%nat) = [] /\
    enqueued (locals c 0%nat) = [10; 20] /\
    dequeued (locals c 1%nat) = [20; 20].
Proof.
  eexists. split; [vm_compute; reflexivity|].
  repeat split; reflexivity.
Qed.

(** The first scenario of the spec under the schedule [scenario_1]: the
    values 0, 1, 2, 3, 99 are enqueued and 99, 1, 2, 3, 99 are dequeued. *)
Lemma scenario_1_loses_first_value :
  exists c,
    run id thread_step scenario_1
        (boot (Block (fun _ => 0)) 4 (producer_consumer [0; 1; 2; 3; 99])) = Some c /\
    enqueued (locals c 0%nat) = [0; 1; 2; 3; 99] /\
    dequeued (locals c 1%nat) = [99; 1; 2; 3; 99].
Proof.
  eexists. split; [vm_compute; reflexivity|].
  split; reflexivity.
Qed.

End RingBufferThreadsFacts.

(* ================================================================= *)
(** * Part III: further properties of the code *)
(* ================================================================= *)

(** ** Spinlock *)

Module SpinlockUse.
Import Spinlock SpinlockThreads SpinlockFacts.

(** X2.  The spinlock is not recursive and has no owner.  From any state,
    [init_spinlock] followed by [acquire_spinlock] returns with [held == 1];
    a second [acquire_spinlock] then spins for as long as it is run and
    leaves the lock as it is; [release_spinlock] followed by
    [acquire_spinlock] returns again. *)
Theorem spinlock_not_recursive l0 fuel fuel' :
  exists l1,
    (init_spinlock ;; acquire_spinlock (S fuel)) l0 = Done tt l1 /\
    held l1 = 1 /\
    acquire_spinlock fuel' l1 = Spinning l1 /\
    (release_spinlock ;; acquire_spinlock (S fuel')) l1 = Done tt l1.
Proof.
  exists (Build 1). repeat split.
  apply acquire_spinlock_held. simpl. lia.
Qed.

Lemma spinlock_excludes_witness :
  exists c,
    run id thread_step (turns 2 5%nat ++ turns 3 7%nat) boot = Some c /\
    locals c 5%nat = Inside /\
    5%nat = 5%nat.
Proof.
  eexists. split; [vm_compute; reflexivity|]. split; [reflexivity|].
  eapply (spinlock_mutual_exclusion (turns 2 5%nat ++ turns 3 7%nat));
    reflexivity.
Defined.

End SpinlockUse.


(** ** Mutex: calls that run one at a time *)

Module MutexUse.
Import Mutex MutexFacts.

(** X3.  [acquire_mutex] does not test the result of [malloc].  When the
    allocation fails and the mutex is free ([S >= 1]) the call returns as
    usual, since the record is not used and [free(NULL)] does nothing;
    when the mutex is taken ([S <= 0]) the call writes through the null
    pointer at line 163. *)
Theorem acquire_mutex_without_memory fuel self w :
  held (mtx w) = 0 ->
  is_int (S (mtx w) - 1) ->
  acquire_mutex (Datatypes.S fuel) self None w =
    if S (mtx w) <=? 0 then Fault
    else Done tt (World (Build (Q (mtx w)) (S (mtx w) - 1) 0)
                        (heap w) (sigmask w) (pending w)).
Proof.
  intros Hheld Hint. rewrite acquire_cases by exact Hheld.
  rewrite int_of_is_int by exact Hint.
  destruct (S (mtx w) <=? 0) eqn:Hs.
  - replace (S (mtx w) - 1 <? 0) with true by lia. reflexivity.
  - replace (S (mtx w) - 1 <? 0) with false by lia. reflexivity.
Qed.

Lemma acquire_mutex_without_memory_witness :
  acquire_mutex 1 3%nat None (World (Build [] 0 0) ∅ ∅ ∅) =
    if S (mtx (World (Build [] 0 0) ∅ ∅ ∅)) <=? 0 then Fault
    else Done tt (World (Build [] (0 - 1) 0) ∅ ∅ ∅).
Proof.
  apply (acquire_mutex_without_memory 0 3%nat (World (Build [] 0 0) ∅ ∅ ∅)).
  - reflexivity.
  - unfold is_int, INT_MIN, INT_MAX. simpl. lia.
Defined.

(** X4.  Round trip on a free mutex.  On a mutex with [S >= 1] that no thread is
    operating on, [acquire_mutex] returns, and [release_mutex] after it
    returns and leaves mutex, heap and signal state exactly as they were
    before the two calls. *)
Theorem acquire_release_round_trip fuel fuel' self reply w :
  held (mtx w) = 0 ->
  1 <= S (mtx w) <= INT_MAX ->
  (forall a, reply = Some a -> heap w !! a = None) ->
  exists w1,
    acquire_mutex (Datatypes.S fuel) self reply w = Done tt w1 /\
    release_mutex (Datatypes.S fuel') w1 = Done tt w.
Proof.
  intros Hheld HS Hfresh. unfold INT_MAX in HS.
  eexists. split.
  - rewrite acquire_cases by exact Hheld.
    rewrite int_of_is_int by (unfold is_int, INT_MIN, INT_MAX; lia).
    replace (S (mtx w) - 1 <? 0) with false by lia. reflexivity.
  - rewrite release_cases by reflexivity. cbn [mtx S Q held heap sigmask pending].
    rewrite int_of_is_int by (unfold is_int, INT_MIN, INT_MAX; lia).
    replace (S (mtx w) - 1 + 1 <=? 0) with false by lia.
    destruct w as [[q s h] hp sm pd]. cbn in *. subst h.
    replace (s - 1 + 1) with s by lia.
    destruct reply as [a|]; [|reflexivity].
    rewrite delete_id by auto. reflexivity.
Qed.

Lemma acquire_release_round_trip_witness :
  exists w1,
    acquire_mutex 1 3%nat (Some 7%nat) (World (Build [] 1 0) ∅ ∅ ∅) = Done tt w1 /\
    release_mutex 1 w1 = Done tt (World (Build [] 1 0) ∅ ∅ ∅).
Proof.
  apply (acquire_release_round_trip 0 0 3%nat (Some 7%nat)
           (World (Build [] 1 0) ∅ ∅ ∅)).
  - reflexivity.
  - unfold INT_MAX. simpl. lia.
  - intros a _. apply lookup_empty.
Defined.

(** X5.  [release_mutex] has no notion of an owner.  Called on the mutex that
    [init_mutex] leaves, by a thread that has not acquired it, it raises
    [S] to 2; the next two calls of [acquire_mutex], by any two threads,
    then both return without waiting, with the queue still empty. *)
Theorem release_without_acquire_admits_two m fuel t1 t2 r1 r2 :
  exists w,
    (init_mutex ;;
     release_mutex (Datatypes.S fuel) ;;
     acquire_mutex (Datatypes.S fuel) t1 r1 ;;
     acquire_mutex (Datatypes.S fuel) t2 r2) (boot m) = Done tt w /\
    mtx w = Build [] 0 0.
Proof.
  assert (Hrel : release_mutex (Datatypes.S fuel) (World (Build [] 1 0) ∅ ∅ ∅)
                 = Done tt (World (Build [] 2 0) ∅ ∅ ∅)).
  { rewrite release_cases by reflexivity. reflexivity. }
  assert (Hacq : forall s t r,
             1 <= s <= 2 ->
             acquire_mutex (Datatypes.S fuel) t r (World (Build [] s 0) ∅ ∅ ∅)
             = Done tt (World (Build [] (s - 1) 0) ∅ ∅ ∅)).
  { intros s t r Hs. rewrite acquire_cases by reflexivity.
    cbn [mtx S Q held heap sigmask pending].
    rewrite int_of_is_int by (unfold is_int, INT_MIN, INT_MAX; lia).
    replace (s - 1 <? 0) with false by lia.
    destruct r as [a|]; [rewrite delete_empty|]; reflexivity. }
  exists (World (Build [] 0 0) ∅ ∅ ∅). split; [|reflexivity].
  unfold bind. rewrite init_mutex_cases, Hrel.
  rewrite (Hacq 2 t1 r1) by lia. exact (Hacq 1 t2 r2 ltac:(lia)).
Qed.

(** X6.  A free mutex has no waiters.  In every state reachable by calls that
    run one at a time, the wait queue is empty whenever [S > 0], and the
    internal flag is clear between calls. *)
Theorem free_mutex_has_no_waiters now since w :
  reachable now since w ->
  0 < S (mtx w) ->
  Q (mtx w) = [] /\ held (mtx w) = 0.
Proof.
  intros Hreach Hpos.
  destruct (reachable_consistent _ _ _ Hreach) as [Hheld _ Hlen _ _ _ _ _ _ _].
  split; [|assumption].
  destruct (Q (mtx w)); [reflexivity|]. simpl in Hlen. lia.
Qed.

Lemma free_mutex_has_no_waiters_witness :
  Q (mtx (World (Build [] 1 0) ∅ ∅ ∅)) = [] /\
  held (mtx (World (Build [] 1 0) ∅ ∅ ∅)) = 0.
Proof.
  apply (free_mutex_has_no_waiters 0 ∅ (World (Build [] 1 0) ∅ ∅ ∅)).
  - apply (reach_init (Build [] 0 0)). reflexivity.
  - simpl. lia.
Defined.

(** X7.  Handing the mutex over.  In every state reachable by calls that run
    one at a time, [release_mutex] with waiters queued ([S + 1 <= 0])
    returns; the rest of [acquire_mutex] then returns for the thread of the
    first queue entry: it has taken and cleared the internal flag, freed its
    record, consumed the signal and unblocked SIGINT; for the thread of
    every other queue entry it stays suspended in [sigwait]. *)
Theorem release_hands_over now since w fuel fuel' :
  reachable now since w ->
  S (mtx w) + 1 <= 0 ->
  exists a rest t w1,
    Q (mtx w) = a :: rest /\
    heap w !! a = Some (Thread (Some t)) /\
    release_mutex (Datatypes.S fuel) w = Done tt w1 /\
    acquire_mutex_resume (Datatypes.S fuel') t a w1 =
      Done tt (World (Build rest (S (mtx w) + 1) 0) (delete a (heap w))
                     (sigmask w ∖ {[t]}) (pending w)) /\
    (forall b t',
        b ∈ rest ->
        heap w !! b = Some (Thread (Some t')) ->
        acquire_mutex_resume (Datatypes.S fuel') t' b w1 = Parked w1).
Proof.
  intros Hreach Hneg. pose proof (reachable_consistent _ _ _ Hreach) as Hc.
  destruct Hc as [Hheld Hint Hlen Hnd Hq Hlive Hown Hpend Hsort Hstamp].
  destruct (Q (mtx w)) as [|a rest] eqn:HQ; [simpl in Hlen; lia|].
  destruct (Hq a) as (t & Ha & Hnp).
  { apply elem_of_cons. left. reflexivity. }
  destruct (Hlive a _ Ha) as (t0 & [= <-] & Hmask).
  apply NoDup_cons in Hnd as [HaQ Hnd].
  assert (Hrel : release_mutex (Datatypes.S fuel) w =
                 Done tt (World (Build rest (S (mtx w) + 1) 0) (heap w)
                                (sigmask w) (pending w ∪ {[t]}))).
  { rewrite release_cases by exact Hheld.
    rewrite int_of_is_int by (unfold is_int, INT_MIN, INT_MAX in *; lia).
    replace (S (mtx w) + 1 <=? 0) with true by lia.
    rewrite HQ, Ha.
    destruct (decide (t ∈ sigmask w)) as [_|Hout]; [reflexivity|contradiction]. }
  exists a, rest, t. eexists. split; [reflexivity|]. split; [assumption|].
  split; [exact Hrel|]. split.
  - rewrite resume_cases. cbn [mtx S Q held heap sigmask pending].
    destruct (decide (t ∈ pending w ∪ {[t]})) as [_|Hout].
    2:{ exfalso. apply Hout, elem_of_union. right. apply elem_of_singleton.
        reflexivity. }
    rewrite Ha. cbn.
    assert (Hset : (pending w ∪ {[t]}) ∖ {[t]} = pending w).
    { apply set_eq. intros x.
      rewrite elem_of_difference, elem_of_union, elem_of_singleton.
      split.
      - intros [[Hx|Hx] Hne]; [assumption|contradiction].
      - intros Hx. split; [left; assumption|]. intros ->. contradiction. }
    rewrite Hset. reflexivity.
  - intros b t' Hb Hhb. rewrite resume_cases.
    cbn [mtx S Q held heap sigmask pending].
    destruct (decide (t' ∈ pending w ∪ {[t]})) as [Hin|_]; [|reflexivity].
    exfalso. destruct (Hq b) as (tb & Htb & Hnpb).
    { apply elem_of_cons. right. assumption. }
    rewrite Hhb in Htb. injection Htb as <-.
    apply elem_of_union in Hin as [Hin|Hin]; [contradiction|].
    apply elem_of_singleton in Hin. subst t'.
    assert (b = a) by eauto. subst b. contradiction.
Qed.

Lemma release_hands_over_witness :
  exists a rest t w1,
    Q (Build [7%nat] (-1) 0) = a :: rest /\
    (<[7%nat := Thread (Some 2%nat)]> (∅ : gmap nat thread)) !! a
      = Some (Thread (Some t)) /\
    release_mutex 1
      (World (Build [7%nat] (-1) 0) (<[7%nat := Thread (Some 2%nat)]> ∅)
             ({[2%nat]}) ∅) = Done tt w1 /\
    acquire_mutex_resume 1 t a w1 =
      Done tt (World (Build rest (-1 + 1) 0)
                     (delete a (<[7%nat := Thread (Some 2%nat)]> ∅))
                     ({[2%nat]} ∖ {[t]}) ∅).
Proof.
  destruct (release_hands_over 2 (<[7%nat := 1%nat]> ∅)
              (World (Build [7%nat] (-1) 0) (<[7%nat := Thread (Some 2%nat)]> ∅)
                     ({[2%nat]}) ∅) 0 0)
    as (a & rest & t & w1 & HQ & Ha & Hrel & Hres & _).
  - apply (reach_wait 1 ∅ (World (Build [] 0 0) ∅ ∅ ∅) 1 2 7).
    + apply (reach_acquire 0 ∅ (World (Build [] 1 0) ∅ ∅ ∅) 1 1 None).
      * apply (reach_init (Build [] 0 0)). reflexivity.
      * intros a r Hr. simpl in Hr. rewrite lookup_empty in Hr. discriminate.
      * intros a Ha. discriminate.
      * reflexivity.
    + intros a r Hr. simpl in Hr. rewrite lookup_empty in Hr. discriminate.
    + reflexivity.
    + vm_compute. reflexivity.
  - simpl. lia.
  - exists a, rest, t, w1. auto.
Defined.

(** X8.  Any SIGINT wakes a waiter.  When a SIGINT is pending for a thread that
    is suspended in [acquire_mutex] with its record at the head of the
    queue -- a signal that did not come from [release_mutex], which
    unlinks the record first -- the rest of [acquire_mutex] returns: the
    thread enters its critical section, [S] is as it was, and the record
    has been freed while it is still linked in the queue.  The next
    [release_mutex] that finds [S <= 0] then reads the freed record. *)
Theorem stray_signal_frees_queued_record fuel fuel' self a rest w :
  held (mtx w) = 0 ->
  self ∈ pending w ->
  is_Some (heap w !! a) ->
  Q (mtx w) = a :: rest ->
  is_int (S (mtx w) + 1) ->
  S (mtx w) + 1 <= 0 ->
  exists w',
    acquire_mutex_resume (Datatypes.S fuel) self a w = Done tt w' /\
    mtx w' = mtx w /\
    heap w' !! a = None /\
    release_mutex (Datatypes.S fuel') w' = Fault.
Proof.
  intros Hheld Hpend [r Hr] HQ Hint Hneg.
  rewrite resume_cases.
  destruct (decide (self ∈ pending w)) as [_|Hout]; [|contradiction].
  rewrite Hheld, Hr. cbn. eexists. split; [reflexivity|]. split; [|split].
  - destruct w as [[q s h] hp sm pd]. cbn in *. subst h. reflexivity.
  - cbn. apply lookup_delete_eq.
  - rewrite release_cases by reflexivity. cbn [mtx S Q held heap sigmask pending].
    rewrite int_of_is_int by exact Hint.
    replace (S (mtx w) + 1 <=? 0) with true by lia.
    rewrite HQ, lookup_delete_eq. reflexivity.
Qed.

Lemma stray_signal_frees_queued_record_witness :
  exists w',
    acquire_mutex_resume 1 2%nat 7%nat
      (World (Build [7%nat] (-1) 0) (<[7%nat := Thread (Some 2%nat)]> ∅)
             ({[2%nat]}) ({[2%nat]})) = Done tt w' /\
    mtx w' = Build [7%nat] (-1) 0 /\
    heap w' !! 7%nat = None /\
    release_mutex 1 w' = Fault.
Proof.
  apply (stray_signal_frees_queued_record 0 0 2%nat 7%nat []
           (World (Build [7%nat] (-1) 0) (<[7%nat := Thread (Some 2%nat)]> ∅)
                  ({[2%nat]}) ({[2%nat]}))).
  - reflexivity.
  - simpl. apply elem_of_singleton. reflexivity.
  - simpl. rewrite lookup_insert_eq. eauto.
  - reflexivity.
  - unfold is_int, INT_MIN, INT_MAX. simpl. lia.
  - simpl. lia.
Defined.

End MutexUse.


(** ** Mutex: threads *)

Module MutexThreadsUse.
Import Mutex MutexThreads.

Lemma both_asleep_ends :
  (c ← run fst thread_step both_asleep boot;
   Some (pc (locals c 1%nat), pc (locals c 2%nat), mtx (shared c),
         bool_decide (1%nat ∈ pending (shared c)),
         bool_decide (2%nat ∈ pending (shared c))))
  = Some (A169, A169, Build [12%nat; 13%nat] (-2) 0, false, false).
Proof. vm_compute. reflexivity. Qed.

Lemma both_asleep_threads t :
  t ∈ fst <$> both_asleep -> t = 1%nat \/ t = 2%nat.
Proof.
  unfold both_asleep, turns. rewrite !fmap_app, !fmap_replicate. cbn [fst].
  intros H.
  repeat match type of H with
         | _ ∈ _ ++ _ => apply elem_of_app in H as [H|H]
         end;
    apply elem_of_replicate in H as [-> _]; auto.
Qed.

(** X9.  Two threads can put each other to sleep for good.  Two threads use one
    mutex, each calling [acquire_mutex] before and [release_mutex] after
    its critical section; no other thread takes a step.  Under the schedule
    [both_asleep] every turn can be taken, and at the end both threads are
    suspended in [sigwait] inside [acquire_mutex], queued one behind the
    other with [S == -2] and no signal pending: neither is inside the
    critical section and neither can take another step. *)
Theorem two_threads_deadlock :
  exists c,
    run fst thread_step both_asleep boot = Some c /\
    (forall t, t <> 1%nat -> t <> 2%nat -> locals c t = locals boot t) /\
    mtx (shared c) = Build [12%nat; 13%nat] (-2) 0 /\
    (forall reply,
        thread_step (1%nat, reply) (locals c 1%nat) (shared c)
        = Parked (shared c)) /\
    (forall reply,
        thread_step (2%nat, reply) (locals c 2%nat) (shared c)
        = Parked (shared c)).
Proof.
  pose proof both_asleep_ends as Hend.
  destruct (run fst thread_step both_asleep boot) as [c|] eqn:Hrun;
    [|discriminate Hend].
  exists c. split; [reflexivity|].
  cbn [mbind option_bind] in Hend. injection Hend as H1 H2 Hm Hp1 Hp2.
  apply bool_decide_eq_false in Hp1, Hp2.
  split; [|split; [assumption|split]].
  - intros t Hn1 Hn2. apply (run_others fst thread_step _ _ _ _ Hrun).
    intros Hin. apply both_asleep_threads in Hin as [?|?]; contradiction.
  - intros reply. unfold thread_step. rewrite H1. unfold bind, sigwait. cbn [fst].
    destruct (decide (1%nat ∈ pending (shared c))); [contradiction|reflexivity].
  - intros reply. unfold thread_step. rewrite H2. unfold bind, sigwait. cbn [fst].
    destruct (decide (2%nat ∈ pending (shared c))); [contradiction|reflexivity].
Qed.

End MutexThreadsUse.

(** ** Ring buffer: calls that run one at a time *)

Module RingBufferUse.
Import RingBuffer RingBufferFacts RingBufferThreads RingBufferThreadsFacts.

(** X11.  The head index is the tail index plus the count, modulo the capacity,
    in every state reachable from [init_ringbuffer(N)], [N > 0], by calls
    that run one at a time.  So [in == out] exactly when the buffer is
    empty or full, which only [count] tells apart. *)
Theorem head_is_tail_plus_count N rb :
  0 < N ->
  reachable N rb ->
  in_ rb = (out rb + count rb) mod N /\
  (in_ rb = out rb <-> count rb = 0 \/ count rb = N).
Proof.
  intros HN Hreach.
  destruct (reachable_shape N rb Hreach)
    as [_ _ _ Hcount Hout _ Hhead _ _].
  specialize (Hcount ltac:(lia)). specialize (Hhead HN).
  split; [assumption|]. rewrite Hhead. split.
  - intros Heq.
    destruct (decide (count rb = N)) as [|Hne]; [auto|left].
    rewrite Z.max_l in Hout by lia.
    assert (Hsmall : out rb = out rb mod N) by (symmetry; apply Z.mod_small; lia).
    rewrite Hsmall in Heq at 2.
    destruct (decide (count rb = 0)) as [|Hpos]; [assumption|exfalso].
    destruct (Z_lt_le_dec (out rb + count rb) N) as [Hlt|Hge].
    + rewrite Z.mod_small in Heq by lia. rewrite <- Hsmall in Heq. lia.
    + replace ((out rb + count rb) mod N) with (out rb + count rb - N) in Heq.
      2:{ apply Z.mod_unique with (q := 1); lia. }
      rewrite <- Hsmall in Heq. lia.
  - rewrite Z.max_l in Hout by lia.
    intros [H0|HN']; [rewrite H0, Z.add_0_r; apply Z.mod_small; lia|].
    rewrite HN'. symmetry. apply Z.mod_unique with (q := 1); lia.
Qed.

Lemma head_is_tail_plus_count_witness :
  in_ (Build 2 (Some [5; 0]) 0 1 0 1)
  = (out (Build 2 (Some [5; 0]) 0 1 0 1) + count (Build 2 (Some [5; 0]) 0 1 0 1)) mod 2 /\
  (in_ (Build 2 (Some [5; 0]) 0 1 0 1) = out (Build 2 (Some [5; 0]) 0 1 0 1) <->
   count (Build 2 (Some [5; 0]) 0 1 0 1) = 0 \/
   count (Build 2 (Some [5; 0]) 0 1 0 1) = 2).
Proof.
  apply (head_is_tail_plus_count 2 (Build 2 (Some [5; 0]) 0 1 0 1)).
  - lia.
  - apply (reach_enqueue 2 1 5 (Build 2 (Some [0; 0]) 0 0 0 0)); [|reflexivity].
    apply (reach_init 2 (Block (fun _ => 0)) 0 zero); [|reflexivity].
    unfold is_int, INT_MIN, INT_MAX. lia.
Defined.

(** X12.  Capacity 0.  [init_ringbuffer(0)] reports success, and in every state
    reachable from it every call of [enqueue_into_ringbuffer] and every
    call of [dequeue_from_ringbuffer] busy-waits for as long as it is run:
    the buffer is full and empty at once. *)
Theorem capacity_zero_blocks_every_call rb :
  reachable 0 rb ->
  (forall fuel value, enqueue_into_ringbuffer fuel value rb = Spinning rb) /\
  (forall fuel, dequeue_from_ringbuffer fuel rb = Spinning rb).
Proof.
  intros Hreach.
  destruct (reachable_count 0 rb ltac:(lia) Hreach) as (Hcount & Henq & Hdeq).
  split; [apply Henq|apply Hdeq]; lia.
Qed.

Lemma capacity_zero_blocks_every_call_witness :
  (forall fuel value,
      enqueue_into_ringbuffer fuel value (Build 0 (Some []) 0 0 0 0)
      = Spinning (Build 0 (Some []) 0 0 0 0)) /\
  (forall fuel,
      dequeue_from_ringbuffer fuel (Build 0 (Some []) 0 0 0 0)
      = Spinning (Build 0 (Some []) 0 0 0 0)).
Proof.
  apply (capacity_zero_blocks_every_call (Build 0 (Some []) 0 0 0 0)).
  apply (reach_init 0 (Block (fun _ => 0)) 0 zero); [|reflexivity].
  unfold is_int, INT_MIN, INT_MAX. lia.
Defined.

(** X13.  Negative capacity.  For a negative [int] [N], whatever the allocator
    would answer, the size [sizeof(int) * N] converted to [size_t] is above
    [PTRDIFF_MAX] and the allocation fails; [init_ringbuffer(N)] still
    returns 0.  The buffer then never looks full: the first call of
    [enqueue_into_ringbuffer] writes through the null pointer, and a call
    of [dequeue_from_ringbuffer] busy-waits. *)
Theorem negative_capacity N reply rb0 :
  INT_MIN <= N < 0 ->
  exists rb,
    init_ringbuffer reply N rb0 = Done 0 rb /\
    slots rb = None /\
    (forall fuel value,
        enqueue_into_ringbuffer (S fuel) value rb = Fault) /\
    (forall fuel, dequeue_from_ringbuffer fuel rb = Spinning rb).
Proof.
  intros HN. rewrite init_ringbuffer_cases, malloc_negative by exact HN.
  eexists. split; [reflexivity|]. split; [reflexivity|]. split.
  - intros fuel value. rewrite enqueue_cases. cbn [count nr_slots held].
    replace (0 =? N) with false by lia. reflexivity.
  - intros fuel. rewrite dequeue_cases. reflexivity.
Qed.

Lemma negative_capacity_witness :
  exists rb,
    init_ringbuffer (Block (fun _ => 0)) (-1) zero = Done 0 rb /\
    slots rb = None /\
    (forall fuel value,
        enqueue_into_ringbuffer (S fuel) value rb = Fault) /\
    (forall fuel, dequeue_from_ringbuffer fuel rb = Spinning rb).
Proof.
  apply (negative_capacity (-1) (Block (fun _ => 0)) zero).
  unfold INT_MIN. lia.
Defined.

(** X14.  After [fini_ringbuffer].  In every state reachable from
    [init_ringbuffer(N)], [N > 0], in which the storage is allocated,
    [fini_ringbuffer] returns and leaves [nr_slots] as it was, with count
    and both indices 0: the buffer looks empty and not full.  A call of
    [enqueue_into_ringbuffer] then writes through the freed pointer, a call
    of [dequeue_from_ringbuffer] busy-waits, and [init_ringbuffer] makes the
    buffer usable again. *)
Theorem use_after_fini N rb cells :
  0 < N ->
  reachable N rb ->
  slots rb = Some cells ->
  exists rb1,
    fini_ringbuffer rb = Done tt rb1 /\
    rb1 = Build N None 0 0 0 0 /\
    (forall fuel value,
        enqueue_into_ringbuffer (S fuel) value rb1 = Fault) /\
    (forall fuel, dequeue_from_ringbuffer fuel rb1 = Spinning rb1) /\
    (forall reply M, init_ringbuffer reply M rb1 = init_ringbuffer reply M zero).
Proof.
  intros HN Hreach _.
  destruct (reachable_shape N rb Hreach) as [_ Hcap Hheld _ _ _ _ _ _].
  exists (Build N None 0 0 0 0). split; [|split; [reflexivity|split; [|split]]].
  - destruct rb as [n p h c o i]. cbn in *. subst. reflexivity.
  - intros fuel value. rewrite enqueue_cases. cbn [count nr_slots held].
    replace (0 =? N) with false by lia. reflexivity.
  - intros fuel. rewrite dequeue_cases. reflexivity.
  - intros reply M. reflexivity.
Qed.

Lemma use_after_fini_witness :
  exists rb1,
    fini_ringbuffer (Build 2 (Some [5; 0]) 0 1 0 1) = Done tt rb1 /\
    rb1 = Build 2 None 0 0 0 0 /\
    (forall fuel value,
        enqueue_into_ringbuffer (S fuel) value rb1 = Fault) /\
    (forall fuel, dequeue_from_ringbuffer fuel rb1 = Spinning rb1) /\
    (forall reply M, init_ringbuffer reply M rb1 = init_ringbuffer reply M zero).
Proof.
  apply (use_after_fini 2 (Build 2 (Some [5; 0]) 0 1 0 1) [5; 0]).
  - lia.
  - apply (reach_enqueue 2 1 5 (Build 2 (Some [0; 0]) 0 0 0 0)); [|reflexivity].
    apply (reach_init 2 (Block (fun _ => 0)) 0 zero); [|reflexivity].
    unfold is_int, INT_MIN, INT_MAX. lia.
  - reflexivity.
Defined.

Lemma fifo_without_overlap_witness :
  [1; 2; 3] ++ contents (Build 2 (Some [3; 2]) 0 0 1 1)
  = inputs [Enqueue 1; Enqueue 2; Dequeue; Enqueue 3; Dequeue; Dequeue] /\
  (count (Build 2 (Some [3; 2]) 0 0 1 1) = 0 ->
   [1; 2; 3] = inputs [Enqueue 1; Enqueue 2; Dequeue; Enqueue 3; Dequeue; Dequeue]).
Proof.
  apply (fifo_without_overlap (Block (fun _ => 0)) 2 zero 0
           (Build 2 (Some [0; 0]) 0 0 0 0) 1
           [Enqueue 1; Enqueue 2; Dequeue; Enqueue 3; Dequeue; Dequeue]
           [1; 2; 3] (Build 2 (Some [3; 2]) 0 0 1 1)).
  - unfold is_int, INT_MIN, INT_MAX. lia.
  - reflexivity.
  - reflexivity.
Defined.

(** X15.  The internal flag of the ring buffer is exclusive.  After
    [init_ringbuffer(N)], for any number of threads that call
    [enqueue_into_ringbuffer] and [dequeue_from_ringbuffer] and under every
    schedule, at most one thread is between a successful
    [compare_and_swap] on [held] and the assignment that clears it, and
    while [held] is 0 no thread is. *)
Theorem ringbuffer_flag_exclusive N reply programs schedule c :
  is_int N ->
  0 <= N ->
  run id thread_step schedule (boot reply N programs) = Some c ->
  (forall t1 t2,
      critical (pc (locals c t1)) = true ->
      critical (pc (locals c t2)) = true ->
      t1 = t2) /\
  (held (shared c) = 0 -> forall t, critical (pc (locals c t)) = false).
Proof.
  intros Hint HN Hrun.
  assert (HN' : 0 <= N <= INT_MAX) by (unfold is_int in Hint; lia).
  pose proof (safe_run N _ _ _ HN' (safe_boot N reply programs HN') Hrun) as Hs.
  split; [exact (safe_one N c Hs)|exact (safe_free N c Hs)].
Qed.

Lemma ringbuffer_flag_exclusive_witness :
  exists c,
    run id thread_step (turns 4 0%nat ++ turns 2 1%nat)
        (boot (Block (fun _ => 0)) 1 (producer_consumer [10; 20])) = Some c /\
    critical (pc (locals c 0%nat)) = true /\
    (forall t1 t2,
        critical (pc (locals c t1)) = true ->
        critical (pc (locals c t2)) = true ->
        t1 = t2) /\
    (held (shared c) = 0 -> forall t, critical (pc (locals c t)) = false).
Proof.
  eexists. split; [vm_compute; reflexivity|]. split; [reflexivity|].
  apply (ringbuffer_flag_exclusive 1 (Block (fun _ => 0))
           (producer_consumer [10; 20]) (turns 4 0%nat ++ turns 2 1%nat)).
  - unfold is_int, INT_MIN, INT_MAX. lia.
  - lia.
  - vm_compute. reflexivity.
Defined.

End RingBufferUse.


(** ** Ring buffer: threads *)

Module RingBufferRuns.
Import RingBuffer RingBufferFacts RingBufferThreads RingBufferThreadsFacts.

(** *** The count under every interleaving *)

Lemma total_insert_ne f ts ls t l :
  t ∉ ts -> total f ts (<[t := l]> ls) = total f ts ls.
Proof.
  induction ts as [|t' ts IH]; intros Hnin; [reflexivity|].
  apply not_elem_of_cons in Hnin as [Hne Hnin]. simpl.
  rewrite fn_lookup_insert_ne by exact Hne. rewrite IH by exact Hnin. reflexivity.
Qed.

Lemma total_insert f ts ls t l :
  NoDup ts -> t ∈ ts ->
  total f ts (<[t := l]> ls) = total f ts ls + f l - f (ls t).
Proof.
  induction ts as [|t' ts IH]; intros Hnd Hin; [inversion Hin|].
  apply NoDup_cons in Hnd as [Hnin Hnd]. simpl.
  destruct (decide (t = t')) as [<-|Hne].
  - rewrite fn_lookup_insert, total_insert_ne by exact Hnin. lia.
  - apply elem_of_cons in Hin as [?|Hin]; [contradiction|].
    rewrite fn_lookup_insert_ne by exact Hne. rewrite IH by assumption. lia.
Qed.

(** What one step does to [count] is what it does to the thread's own
    tally. *)
Lemma step_counts t l rb l' rb' :
  thread_step t l rb = Done l' rb' ->
  count rb' - count rb
  = (counted_in l' - counted_in l) - (counted_out l' - counted_out l).
Proof.
  destruct l as [p v tm td e d]. unfold thread_step, counted_in, counted_out.
  cbn [pc value tmp todo enqueued dequeued].
  destruct p;
    unfold bind, is_full, is_empty, cas_held, compare_and_swap, write_slot,
      advance_in, increment_count, advance_out, decrement_count, read_slot,
      modify, reads, defined, ret, goto, bind;
    cbn.
  - destruct td as [|[x|] rest]; [discriminate| |]; intros [= <- <-]; cbn; lia.
  - destruct (count rb =? nr_slots rb); intros [= <- <-]; cbn; lia.
  - destruct (held rb =? 0); cbn; intros [= <- <-];
      destruct (held rb =? 0); cbn; lia.
  - destruct (count rb =? nr_slots rb); intros [= <- <-]; cbn; lia.
  - intros [= <- <-]; cbn; lia.
  - destruct (store (slots rb) (in_ rb) v); cbn; [|discriminate].
    intros [= <- <-]; cbn; lia.
  - destruct (int_of (in_ rb + 1)) as [i1|]; cbn; [|discriminate].
    destruct (int_rem i1 (nr_slots rb)); cbn; [|discriminate].
    intros [= <- <-]; cbn; lia.
  - destruct (int_of (count rb + 1)) as [c1|] eqn:Hc; cbn; [|discriminate].
    apply int_of_Some in Hc as [-> _].
    intros [= <- <-]; cbn; lia.
  - intros [= <- <-]; cbn. rewrite length_app. simpl. lia.
  - destruct (count rb =? 0); intros [= <- <-]; cbn; lia.
  - destruct (held rb =? 0); cbn; intros [= <- <-];
      destruct (held rb =? 0); cbn; lia.
  - destruct (count rb =? 0); intros [= <- <-]; cbn; lia.
  - intros [= <- <-]; cbn; lia.
  - intros [= <- <-]; cbn; lia.
  - destruct (int_of (out rb + 1)) as [o1|]; cbn; [|discriminate].
    destruct (int_rem o1 (nr_slots rb)); cbn; [|discriminate].
    intros [= <- <-]; cbn; lia.
  - destruct (int_of (count rb - 1)) as [c1|] eqn:Hc; cbn; [|discriminate].
    apply int_of_Some in Hc as [-> _].
    intros [= <- <-]; cbn; lia.
  - intros [= <- <-]; cbn; lia.
  - destruct (load (slots rb) tm); cbn; [|discriminate].
    intros [= <- <-]; cbn. rewrite length_app. simpl. lia.
Qed.

Lemma total_program f ts programs :
  f (program []) = 0 ->
  (forall calls, f (program calls) = f (program [])) ->
  total f ts (fun t => program (programs t)) = 0.
Proof.
  intros H0 Hany. induction ts as [|t ts IH]; [reflexivity|].
  simpl. rewrite Hany, H0, IH. reflexivity.
Qed.

Lemma tallied_boot reply N programs ts :
  (forall t, t ∉ ts -> programs t = []) ->
  tallied ts (boot reply N programs).
Proof.
  intros Hidle. split.
  - unfold boot. cbn [shared locals count].
    rewrite !total_program by reflexivity. reflexivity.
  - intros t Ht. unfold boot. cbn [locals]. rewrite Hidle by exact Ht.
    reflexivity.
Qed.

Lemma tallied_step ts t c c' :
  NoDup ts ->
  tallied ts c ->
  step id thread_step t c = Some c' ->
  tallied ts c'.
Proof.
  intros Hnd [Hcount Hidle] Hstep. unfold step, id in Hstep.
  destruct (thread_step t (locals c t) (shared c)) as [l' rb'| | |] eqn:Hthread;
    try discriminate.
  injection Hstep as <-. unfold tallied. cbn [shared locals].
  destruct (decide (t ∈ ts)) as [Hin|Hout].
  - split.
    + apply step_counts in Hthread.
      rewrite !total_insert by assumption. lia.
    + intros t' Ht'. rewrite fn_lookup_insert_ne; [auto|].
      intros <-. contradiction.
  - rewrite (Hidle t Hout) in Hthread. discriminate Hthread.
Qed.

Lemma tallied_run ts schedule c c' :
  NoDup ts ->
  tallied ts c ->
  run id thread_step schedule c = Some c' ->
  tallied ts c'.
Proof.
  intros Hnd. revert c. induction schedule as [|t schedule IH]; intros c Hc Hrun;
    simpl in Hrun.
  - injection Hrun as <-. assumption.
  - destruct (step id thread_step t c) as [c1|] eqn:Hstep; [|discriminate].
    eapply IH; [|exact Hrun]. eapply tallied_step; eassumption.
Qed.

(** *** How long the internal flag is held *)

Lemma holder_steps N c t cells :
  0 <= N <= INT_MAX ->
  safe N c ->
  slots (shared c) = Some cells ->
  critical (pc (locals c t)) = true ->
  exists l' rb',
    thread_step t (locals c t) (shared c) = Done l' rb' /\
    (remaining (pc l') < remaining (pc (locals c t)))%nat /\
    is_Some (slots rb') /\
    (critical (pc l') = false -> held rb' = 0).
Proof.
  intros HN [Hcap Hslots Hflag Hfree Hone Hcount Hin Hout Hroom Hvalue Htmp]
         Hcells Hcrit.
  specialize (Hroom t). specialize (Hvalue t). specialize (Htmp t).
  pose proof (Hslots _ Hcells) as Hlen.
  destruct c as [rb ls]. cbn [shared locals] in *.
  destruct (ls t) as [l v tm td e d]. cbn [pc tmp] in *.
  unfold INT_MAX in HN.
  destruct l; try discriminate Hcrit; unfold thread_step; cbn [pc value tmp].
  - unfold bind, is_full, reads, ret.
    destruct (count rb =? nr_slots rb); cbn; do 2 eexists;
      (split; [reflexivity|]); cbn; repeat split; eauto; try lia; discriminate.
  - do 2 eexists. split; [reflexivity|]. cbn. repeat split; eauto.
  - unfold bind, write_slot, bind, reads, defined, modify, ret. cbn.
    specialize (Hroom eq_refl).
    assert (Hst : store (slots rb) (in_ rb) v
                  = Some (<[Z.to_nat (in_ rb) := v]> cells)).
    { apply store_Some. exists cells. repeat split; try assumption; lia. }
    rewrite Hst. do 2 eexists. split; [reflexivity|]. cbn.
    repeat split; eauto; discriminate.
  - unfold bind, advance_in, bind, reads, defined, modify, ret. cbn.
    specialize (Hroom eq_refl).
    rewrite (int_of_is_int (in_ rb + 1))
      by (unfold is_int, INT_MIN, INT_MAX; lia).
    rewrite Hcap, int_rem_pos by lia.
    do 2 eexists. split; [reflexivity|]. cbn. repeat split; eauto; discriminate.
  - unfold bind, increment_count, bind, reads, defined, modify, ret. cbn.
    specialize (Hroom eq_refl).
    rewrite (int_of_is_int (count rb + 1))
      by (unfold is_int, INT_MIN, INT_MAX; lia).
    do 2 eexists. split; [reflexivity|]. cbn. repeat split; eauto; discriminate.
  - do 2 eexists. split; [reflexivity|]. cbn. repeat split; eauto.
  - unfold bind, is_empty, reads, ret.
    destruct (count rb =? 0); cbn; do 2 eexists;
      (split; [reflexivity|]); cbn; repeat split; eauto; try lia; discriminate.
  - do 2 eexists. split; [reflexivity|]. cbn. repeat split; eauto.
  - do 2 eexists. split; [reflexivity|]. cbn. repeat split; eauto; discriminate.
  - unfold bind, advance_out, bind, reads, defined, modify, ret. cbn.
    specialize (Hvalue eq_refl).
    rewrite (int_of_is_int (out rb + 1))
      by (unfold is_int, INT_MIN, INT_MAX; lia).
    rewrite Hcap, int_rem_pos by lia.
    do 2 eexists. split; [reflexivity|]. cbn. repeat split; eauto; discriminate.
  - unfold bind, decrement_count, bind, reads, defined, modify, ret. cbn.
    specialize (Hvalue eq_refl).
    rewrite (int_of_is_int (count rb - 1))
      by (unfold is_int, INT_MIN, INT_MAX; lia).
    do 2 eexists. split; [reflexivity|]. cbn. repeat split; eauto; discriminate.
  - do 2 eexists. split; [reflexivity|]. cbn. repeat split; eauto.
Qed.

Lemma holder_releases k N c t cells :
  0 <= N <= INT_MAX ->
  safe N c ->
  slots (shared c) = Some cells ->
  critical (pc (locals c t)) = true ->
  (remaining (pc (locals c t)) <= k)%nat ->
  exists n c',
    (0 < n <= k)%nat /\
    run id thread_step (turns n t) c = Some c' /\
    critical (pc (locals c' t)) = false /\
    held (shared c') = 0.
Proof.
  intros HN. revert c cells. induction k as [|k IH]; intros c cells Hs Hcells Hcrit Hk.
  - destruct (pc (locals c t)); try discriminate Hcrit; simpl in Hk; lia.
  - destruct (holder_steps N c t cells HN Hs Hcells Hcrit)
      as (l' & rb' & Hstep & Hless & [cells' Hcells'] & Hclear).
    assert (Hstep' : step id thread_step t c
                     = Some (Config rb' (<[t := l']> (locals c)))).
    { unfold step, id. rewrite Hstep. reflexivity. }
    destruct (critical (pc l')) eqn:Hcrit'.
    + destruct (IH (Config rb' (<[t := l']> (locals c))) cells')
        as (n & c' & Hn & Hrun & Hout & Hheld).
      * eapply safe_step; eassumption.
      * exact Hcells'.
      * cbn [locals]. rewrite fn_lookup_insert. exact Hcrit'.
      * cbn [locals]. rewrite fn_lookup_insert. lia.
      * exists (S n), c'. split; [lia|]. split; [|auto].
        simpl. rewrite Hstep'. exact Hrun.
    + exists 1%nat. eexists. split; [lia|]. split.
      * simpl. rewrite Hstep'. reflexivity.
      * cbn [locals shared]. rewrite fn_lookup_insert. auto.
Qed.

(** X17.  The internal flag is held for five statements at most.  After
    [init_ringbuffer(N)] with the storage allocated, under every schedule:
    a thread that holds the internal flag clears it within its next five
    steps, none of which waits or is undefined. *)
Theorem flag_held_briefly N reply programs schedule c cells t :
  is_int N ->
  0 <= N ->
  run id thread_step schedule (boot reply N programs) = Some c ->
  slots (shared c) = Some cells ->
  critical (pc (locals c t)) = true ->
  exists n c',
    (0 < n <= 5)%nat /\
    run id thread_step (turns n t) c = Some c' /\
    critical (pc (locals c' t)) = false /\
    held (shared c') = 0.
Proof.
  intros Hint HN Hrun Hcells Hcrit.
  assert (HN' : 0 <= N <= INT_MAX) by (unfold is_int in Hint; lia).
  pose proof (safe_run N _ _ _ HN' (safe_boot N reply programs HN') Hrun) as Hs.
  apply (holder_releases 5 N c t cells HN' Hs Hcells Hcrit).
  destruct (pc (locals c t)); simpl; lia.
Qed.

Lemma flag_held_briefly_witness :
  exists c cells,
    run id thread_step (turns 4 0%nat)
        (boot (Block (fun _ => 0)) 1 (producer_consumer [10; 20])) = Some c /\
    slots (shared c) = Some cells /\
    critical (pc (locals c 0%nat)) = true /\
    exists n c',
      (0 < n <= 5)%nat /\
      run id thread_step (turns n 0%nat) c = Some c' /\
      critical (pc (locals c' 0%nat)) = false /\
      held (shared c') = 0.
Proof.
  do 2 eexists. split; [vm_compute; reflexivity|].
  split; [reflexivity|]. split; [reflexivity|].
  eapply (flag_held_briefly 1 (Block (fun _ => 0)) (producer_consumer [10; 20])
            (turns 4 0%nat)).
  - unfold is_int, INT_MIN, INT_MAX. lia.
  - lia.
  - vm_compute. reflexivity.
  - reflexivity.
  - reflexivity.
Defined.

End RingBufferRuns.

(** ** Ring buffer: threads, with [count++] as a load and a store *)

Module RingBufferAccessesFacts.
Import RingBuffer RingBufferFacts RingBufferThreads RingBufferThreadsFacts.
Import RingBufferRuns RingBufferAccesses.

Lemma safe_ext N c c' :
  shared c = shared c' ->
  (forall t, locals c t = locals c' t) ->
  safe N c -> safe N c'.
Proof.
  intros Hs Hl [Hcap Hslots Hflag Hfree Hone Hcount Hin Hout Hroom Hvalue Htmp].
  split; rewrite <- ?Hs; try assumption.
  - intros H0 t. rewrite <- Hl. apply Hfree. exact H0.
  - intros t1 t2. rewrite <- !Hl. apply Hone.
  - intros t. rewrite <- Hl. apply Hroom.
  - intros t. rewrite <- Hl. apply Hvalue.
  - intros t. rewrite <- Hl. apply Htmp.
Qed.

Lemma total_ext f ts ls ls' :
  (forall t, ls t = ls' t) -> total f ts ls = total f ts ls'.
Proof.
  intros H. induction ts as [|t ts IH]; [reflexivity|].
  simpl. rewrite H, IH. reflexivity.
Qed.

Lemma tallied_ext ts c c' :
  shared c = shared c' ->
  (forall t, locals c t = locals c' t) ->
  tallied ts c -> tallied ts c'.
Proof.
  intros Hs Hl [Hcount Hidle]. split.
  - rewrite <- Hs, Hcount.
    rewrite (total_ext counted_in ts _ _ Hl), (total_ext counted_out ts _ _ Hl).
    reflexivity.
  - intros t Ht. rewrite <- Hl. auto.
Qed.

(** The statements without the registers, after a step. *)
Lemma statements_insert rb ls t l r :
  forall t', locals (Config rb (<[t := base (Thread l r)]> (fun t => base (ls t)))) t'
             = locals (statements (Config rb (<[t := Thread l r]> ls))) t'.
Proof.
  intros t'. cbn [locals statements]. destruct (decide (t = t')) as [<-|Hne].
  - rewrite !fn_lookup_insert. reflexivity.
  - rewrite !fn_lookup_insert_ne by exact Hne. reflexivity.
Qed.

(** Only lines 256 and 284 write [count]. *)
Lemma count_unchanged t l rb l' rb' :
  RingBufferThreads.thread_step t l rb = Done l' rb' ->
  pc l <> E256 -> pc l <> D284 ->
  count rb' = count rb.
Proof.
  destruct l as [p v tm td e d]. unfold RingBufferThreads.thread_step.
  cbn [pc value tmp todo enqueued dequeued].
  intros Hstep H256 H284.
  destruct p; try congruence;
    unfold bind, is_full, is_empty, cas_held, compare_and_swap, write_slot,
      advance_in, advance_out, read_slot, modify, reads, defined, ret, goto,
      bind in Hstep;
    cbn in Hstep.
  - destruct td as [|[x|] rest]; [discriminate| |]; injection Hstep as _ <-;
      reflexivity.
  - destruct (count rb =? nr_slots rb); injection Hstep as _ <-; reflexivity.
  - destruct (held rb =? 0); cbn in Hstep; injection Hstep as _ <-; reflexivity.
  - destruct (count rb =? nr_slots rb); injection Hstep as _ <-; reflexivity.
  - injection Hstep as _ <-. reflexivity.
  - destruct (store (slots rb) (in_ rb) v); cbn in Hstep; [|discriminate].
    injection Hstep as _ <-. reflexivity.
  - destruct (int_of (in_ rb + 1)) as [i1|]; cbn in Hstep; [|discriminate].
    destruct (int_rem i1 (nr_slots rb)); cbn in Hstep; [|discriminate].
    injection Hstep as _ <-. reflexivity.
  - injection Hstep as _ <-. reflexivity.
  - destruct (count rb =? 0); injection Hstep as _ <-; reflexivity.
  - destruct (held rb =? 0); cbn in Hstep; injection Hstep as _ <-; reflexivity.
  - destruct (count rb =? 0); injection Hstep as _ <-; reflexivity.
  - injection Hstep as _ <-. reflexivity.
  - injection Hstep as _ <-. reflexivity.
  - destruct (int_of (out rb + 1)) as [o1|]; cbn in Hstep; [|discriminate].
    destruct (int_rem o1 (nr_slots rb)); cbn in Hstep; [|discriminate].
    injection Hstep as _ <-. reflexivity.
  - injection Hstep as _ <-. reflexivity.
  - destruct (load (slots rb) tm); cbn in Hstep; [|discriminate].
    injection Hstep as _ <-. reflexivity.
Qed.

(** A step that is a step of [RingBufferThreads.thread_step]. *)
Lemma sound_statement N ts rb ls t l1 rb' :
  0 <= N <= INT_MAX ->
  NoDup ts ->
  sound N ts (Config rb ls) ->
  RingBufferThreads.thread_step t (base (ls t)) rb = Done l1 rb' ->
  (forall t' r', t' <> t -> reg (ls t') = Some r' -> r' = count rb') ->
  sound N ts (Config rb' (<[t := Thread l1 None]> ls)).
Proof.
  intros HN Hnd [Hsafe Hreg Htally] Hstep Hothers.
  assert (Hcoarse : step id RingBufferThreads.thread_step t (statements (Config rb ls))
                    = Some (Config rb' (<[t := l1]> (fun t => base (ls t))))).
  { unfold step, id. cbn [statements shared locals]. rewrite Hstep. reflexivity. }
  split.
  - eapply safe_ext; [| |eapply safe_step; eassumption]; [reflexivity|].
    apply (statements_insert rb' ls t l1 None).
  - intros t' r'. cbn [locals shared].
    destruct (decide (t = t')) as [<-|Hne].
    + rewrite fn_lookup_insert. discriminate.
    + rewrite fn_lookup_insert_ne by exact Hne. intros Hr.
      split; [exact (proj1 (Hreg t' r' Hr))|]. apply (Hothers t'); auto.
  - eapply tallied_ext; [| |eapply tallied_step; eassumption]; [reflexivity|].
    apply (statements_insert rb' ls t l1 None).
Qed.

Lemma sound_step N ts t c c' :
  0 <= N <= INT_MAX ->
  NoDup ts ->
  sound N ts c ->
  step id thread_step t c = Some c' ->
  sound N ts c'.
Proof.
  intros HN Hnd Hs Hstep. destruct c as [rb ls].
  unfold step, id in Hstep. cbn [shared locals] in Hstep.
  destruct (thread_step t (ls t) rb) as [l' rb1| | |] eqn:Hthread;
    try discriminate.
  injection Hstep as <-.
  pose proof Hs as [Hsafe Hreg Htally]. cbn [shared locals] in Hreg.
  assert (Hkeep : forall l1,
             RingBufferThreads.thread_step t (base (ls t)) rb = Done l1 rb1 ->
             pc (base (ls t)) <> E256 -> pc (base (ls t)) <> D284 ->
             forall t' r', t' <> t -> reg (ls t') = Some r' -> r' = count rb1).
  { intros l1 Hcoarse H256 H284 t' r' _ Hr.
    rewrite (count_unchanged _ _ _ _ _ Hcoarse H256 H284).
    exact (proj2 (Hreg t' r' Hr)). }
  assert (Halone : critical (pc (base (ls t))) = true ->
             forall t' r', t' <> t -> reg (ls t') = Some r' -> r' = count rb1).
  { intros Hcrit t' r' Hne Hr. exfalso. apply Hne.
    apply (safe_one N _ Hsafe t' t); cbn [statements locals]; [|exact Hcrit].
    destruct (proj1 (Hreg t' r' Hr)) as [-> | ->]; reflexivity. }
  unfold thread_step in Hthread.
  destruct (ls t) as [l r] eqn:Hl. cbn [base reg] in *.
  destruct (pc l) eqn:Hpc.
  16: destruct r as [r|].
  8: destruct r as [r|].
  all: try (unfold bind, ret in Hthread;
            destruct (RingBufferThreads.thread_step t l rb) as [l1 rb2| | |]
              eqn:Hcoarse; try discriminate;
            injection Hthread as <- <-;
            apply sound_statement with (rb := rb); try assumption;
            [rewrite Hl; exact Hcoarse
            |apply (Hkeep l1); [reflexivity|discriminate|discriminate]]).
  - (* line 256, the store *)
    destruct (Hreg t r) as [_ ->]; [rewrite Hl; reflexivity|].
    unfold bind, defined, modify, ret in Hthread.
    destruct (int_of (count rb + 1)) as [c1|] eqn:Hc1; [|discriminate].
    injection Hthread as <- <-.
    apply sound_statement with (rb := rb); try assumption.
    + rewrite Hl. cbn [base]. unfold RingBufferThreads.thread_step. rewrite Hpc.
      unfold bind, increment_count, bind, reads, defined, modify, ret.
      rewrite Hc1. reflexivity.
    + apply Halone. reflexivity.
  - (* line 256, the load *)
    injection Hthread as <- <-. split.
    + eapply safe_ext; [| |exact Hsafe]; [reflexivity|].
      intros t'. cbn [statements locals]. destruct (decide (t = t')) as [<-|Hne].
      * rewrite fn_lookup_insert, Hl. reflexivity.
      * rewrite fn_lookup_insert_ne by exact Hne. reflexivity.
    + intros t' r'. cbn [locals shared].
      destruct (decide (t = t')) as [<-|Hne].
      * rewrite fn_lookup_insert. cbn [base reg]. intros [= <-]. auto.
      * rewrite fn_lookup_insert_ne by exact Hne. apply Hreg.
    + eapply tallied_ext; [| |exact Htally]; [reflexivity|].
      intros t'. cbn [statements locals]. destruct (decide (t = t')) as [<-|Hne].
      * rewrite fn_lookup_insert, Hl. reflexivity.
      * rewrite fn_lookup_insert_ne by exact Hne. reflexivity.
  - (* line 284, the store *)
    destruct (Hreg t r) as [_ ->]; [rewrite Hl; reflexivity|].
    unfold bind, defined, modify, ret in Hthread.
    destruct (int_of (count rb - 1)) as [c1|] eqn:Hc1; [|discriminate].
    injection Hthread as <- <-.
    apply sound_statement with (rb := rb); try assumption.
    + rewrite Hl. cbn [base]. unfold RingBufferThreads.thread_step. rewrite Hpc.
      unfold bind, decrement_count, bind, reads, defined, modify, ret.
      rewrite Hc1. reflexivity.
    + apply Halone. reflexivity.
  - (* line 284, the load *)
    injection Hthread as <- <-. split.
    + eapply safe_ext; [| |exact Hsafe]; [reflexivity|].
      intros t'. cbn [statements locals]. destruct (decide (t = t')) as [<-|Hne].
      * rewrite fn_lookup_insert, Hl. reflexivity.
      * rewrite fn_lookup_insert_ne by exact Hne. reflexivity.
    + intros t' r'. cbn [locals shared].
      destruct (decide (t = t')) as [<-|Hne].
      * rewrite fn_lookup_insert. cbn [base reg]. intros [= <-]. auto.
      * rewrite fn_lookup_insert_ne by exact Hne. apply Hreg.
    + eapply tallied_ext; [| |exact Htally]; [reflexivity|].
      intros t'. cbn [statements locals]. destruct (decide (t = t')) as [<-|Hne].
      * rewrite fn_lookup_insert, Hl. reflexivity.
      * rewrite fn_lookup_insert_ne by exact Hne. reflexivity.
Qed.

Lemma sound_boot N reply programs ts :
  0 <= N <= INT_MAX ->
  (forall t, t ∉ ts -> programs t = []) ->
  sound N ts (boot reply N programs).
Proof.
  intros HN Hidle. split.
  - exact (safe_boot N reply programs HN).
  - intros t r. cbn. discriminate.
  - exact (tallied_boot reply N programs ts Hidle).
Qed.

Lemma sound_run N ts schedule c c' :
  0 <= N <= INT_MAX ->
  NoDup ts ->
  sound N ts c ->
  run id thread_step schedule c = Some c' ->
  sound N ts c'.
Proof.
  intros HN Hnd. revert c.
  induction schedule as [|t schedule IH]; intros c Hc Hrun; simpl in Hrun.
  - injection Hrun as <-. assumption.
  - destruct (step id thread_step t c) as [c1|] eqn:Hstep; [|discriminate].
    eapply IH; [|exact Hrun]. eapply sound_step; eassumption.
Qed.

(** X16.  No update of [count] is lost.  The threads run
    [enqueue_into_ringbuffer] and [dequeue_from_ringbuffer] with
    [ringbuffer.count++] and [ringbuffer.count--] as a load and a store
    each.  After [init_ringbuffer(N)], for the threads [ts] making any
    calls and under every schedule: a thread that has loaded [count] at
    line 256 or 284 still finds that value in [count] when it stores, and
    [count] is the number of calls of [enqueue_into_ringbuffer] that have
    stored at line 256 minus the number of calls of
    [dequeue_from_ringbuffer] that have stored at line 284. *)
Theorem count_updates_are_not_lost N reply programs ts schedule c :
  is_int N ->
  0 <= N ->
  NoDup ts ->
  (forall t, t ∉ ts -> programs t = []) ->
  run id thread_step schedule (boot reply N programs) = Some c ->
  (forall t r, reg (locals c t) = Some r -> r = count (shared c)) /\
  count (shared c)
  = total counted_in ts (locals (statements c))
    - total counted_out ts (locals (statements c)).
Proof.
  intros Hint HN Hnd Hidle Hrun.
  assert (HN' : 0 <= N <= INT_MAX) by (unfold is_int in Hint; lia).
  destruct (sound_run N ts _ _ _ HN' Hnd (sound_boot N reply programs ts HN' Hidle) Hrun)
    as [_ Hreg [Hcount _]].
  split; [|exact Hcount].
  intros t r Hr. exact (proj2 (Hreg t r Hr)).
Qed.

Lemma count_updates_are_not_lost_witness :
  exists c,
    run id thread_step
        (turns 9 0%nat ++ turns 7 1%nat ++ turns 3 0%nat)
        (boot (Block (fun _ => 0)) 2 (producer_consumer [10; 20])) = Some c /\
    reg (locals c 1%nat) = Some 1 /\
    count (shared c) = 1 /\
    (forall t r, reg (locals c t) = Some r -> r = count (shared c)) /\
    count (shared c)
    = total counted_in [0%nat; 1%nat] (locals (statements c))
      - total counted_out [0%nat; 1%nat] (locals (statements c)).
Proof.
  eexists. split; [vm_compute; reflexivity|].
  split; [reflexivity|]. split; [reflexivity|].
  apply (count_updates_are_not_lost 2 (Block (fun _ => 0))
           (producer_consumer [10; 20]) [0%nat; 1%nat]
           (turns 9 0%nat ++ turns 7 1%nat ++ turns 3 0%nat)).
  - unfold is_int, INT_MIN, INT_MAX. lia.
  - lia.
  - apply NoDup_cons. split; [|apply NoDup_singleton].
    intros H. apply elem_of_cons in H as [H|H]; [discriminate H|inversion H].
  - intros t Ht. destruct t as [|[|t]]; [| |reflexivity];
      exfalso; apply Ht; repeat constructor.
  - vm_compute. reflexivity.
Defined.

End RingBufferAccessesFacts.
